(** * minauto: DFA minimization (union-find partition refinement, compression,
    dead-state marking)

    A shallow embedding of the C sources ("ufind.c", "partit.c", "main.c",
    "dead.c", "auto.h") and the properties proved about them.

    Conventions of the embedding:
    - [state_t] is C's [int]; every value the program stores is bounded by
      [MAX_STATES] in absolute value, so it is modelled by [Z] (no overflow
      can occur on valid inputs, and signed overflow has no defined result
      in C anyway).
    - A C array is a total map from indices to cells, [array A := Z -> A];
      an assignment [a[i] = v] is [upd a i v].  Automatic (stack) arrays
      start with indeterminate contents: these are explicit arguments.
    - Loops with a counter ([for (i = 1; i <= n; i++)]) iterate over
      [range 1 n]; loops that chase pointers or wait for a sentinel take
      [fuel] and return [None] when it runs out. *)

From Stdlib Require Import ZArith List Lia Bool Ascii.
From Stdlib Require Import FunctionalExtensionality Relations FinFun.
Import ListNotations.
Open Scope Z_scope.

(* ===================================================================== *)
(** ** auto.h *)
(* ===================================================================== *)

Definition MAX_STATES : Z := 50.
Definition AB_SIZE : Z := 128.

Definition TRUE : Z := 1.
Definition FALSE : Z := 0.

Definition array (A : Type) : Type := Z -> A.

Definition upd {A : Type} (a : array A) (i : Z) (v : A) : array A :=
  fun j => if j =? i then v else a j.

Definition upd2 {A : Type} (m : Z -> Z -> A) (i j : Z) (v : A) : Z -> Z -> A :=
  fun i' j' => if (i' =? i) && (j' =? j) then v else m i' j'.

Record automaton_t : Type := mk_automaton {
  nstates : Z;                    (* number of states        *)
  nab : Z;                        (* alphabet size           *)
  mat : Z -> Z -> Z;              (* state transition matrix *)
  init_state : Z;                 (* initial state           *)
  accept : array Z;               (* accept states           *)
  state_attrib : array ascii      (* state attributes        *)
}.

Definition attr_A : ascii := "A"%char.
Definition attr_D : ascii := "D"%char.

(* ===================================================================== *)
(** ** Control structure *)
(* ===================================================================== *)

Definition bind {A B : Type} (c : option A) (k : A -> option B) : option B :=
  match c with
  | Some x => k x
  | None => None
  end.

Notation "x <- c ;; k" := (bind c (fun x => k))
  (at level 61, c at next level, right associativity).
Notation "' p <- c ;; k" := (bind c (fun x => let 'p := x in k))
  (at level 61, p pattern, c at next level, right associativity).

(** [for (i = lo; i <= hi; i++)] visits [range lo hi]. *)
Definition range (lo hi : Z) : list Z :=
  map (fun k => lo + Z.of_nat k) (seq 0 (Z.to_nat (hi - lo + 1))).

Fixpoint for_each {S : Type} (l : list Z) (body : Z -> S -> option S) (s : S)
  : option S :=
  match l with
  | [] => Some s
  | x :: l' => s' <- body x s ;; for_each l' body s'
  end.

(* ===================================================================== *)
(** ** ufind.c *)
(* ===================================================================== *)

(** (a) [for (i = elem; rep[i] > 0; i = rep[i]) ;] *)
Fixpoint find_root (fuel : nat) (rep : array Z) (i : Z) : option Z :=
  match fuel with
  | O => None
  | S f => if rep i >? 0 then find_root f rep (rep i) else Some i
  end.

(** (b) [while (rep[elem] > 0) { temp = elem; elem = rep[elem]; rep[temp] = i; }] *)
Fixpoint compress_path (fuel : nat) (rep : array Z) (elem i : Z)
  : option (array Z) :=
  match fuel with
  | O => None
  | S f =>
      if rep elem >? 0
      then compress_path f (upd rep elem i) (rep elem) i
      else Some rep
  end.

Definition find (fuel : nat) (elem : Z) (rep : array Z) : option (Z * array Z) :=
  i <- find_root fuel rep elem ;;
  rep' <- compress_path fuel rep elem i ;;
  Some (i, rep').

Definition Union (fuel : nat) (elem1 elem2 : Z) (rep : array Z)
  : option (array Z) :=
  '(i, rep) <- find fuel elem1 rep ;;
  '(j, rep) <- find fuel elem2 rep ;;
  if negb (i =? j) then
    if rep j >? rep i then
      let rep := upd rep i (rep i + (rep j - 1)) in
      Some (upd rep j i)
    else
      let rep := upd rep j (rep j + (rep i - 1)) in
      Some (upd rep i j)
  else Some rep.

(* ===================================================================== *)
(** ** partit.c *)
(* ===================================================================== *)

(** First loop of [update_partitions]: stops at the first member whose
    representative differs between the two arrays. *)
Fixpoint differs (fuel : nat) (member : list Z) (old_groups new_groups : array Z)
  : option (bool * array Z * array Z) :=
  match member with
  | [] => Some (false, old_groups, new_groups)
  | state :: rest =>
      '(old_rep, old_groups) <- find fuel state old_groups ;;
      '(new_rep, new_groups) <- find fuel state new_groups ;;
      if negb (old_rep =? new_rep)
      then Some (true, old_groups, new_groups)
      else differs fuel rest old_groups new_groups
  end.

Definition copy_members (member : list Z) (old_groups new_groups : array Z)
  : array Z :=
  fold_left (fun og state => upd og state (new_groups state)) member old_groups.

Definition update_partitions (fuel : nat) (member : list Z)
  (old_groups new_groups : array Z) : option (bool * array Z * array Z) :=
  '(update, old_groups, new_groups) <- differs fuel member old_groups new_groups ;;
  if update
  then Some (true, copy_members member old_groups new_groups, new_groups)
  else Some (false, old_groups, new_groups).

Definition init_partitions (fuel : nat) (nstates : Z) (attribs : array ascii)
  (groups : array Z) : option (array Z) :=
  let groups := fold_left (fun g i => upd g i 0) (range 1 nstates) groups in
  '(_, _, groups) <-
    for_each (range 1 nstates)
      (fun i '(accept_rep, others_rep, groups) =>
         if Ascii.eqb (attribs i) attr_A then
           if accept_rep =? 0 then Some (i, others_rep, groups)
           else groups <- Union fuel accept_rep i groups ;;
                Some (accept_rep, others_rep, groups)
         else
           if others_rep =? 0 then Some (accept_rep, i, groups)
           else groups <- Union fuel others_rep i groups ;;
                Some (accept_rep, others_rep, groups))
      (0, 0, groups) ;;
  Some groups.

(** [cls_find t groups] is the guarded call
    [if (t > 0) t = find(t, groups);] of [same_transitions]. *)
Definition cls_find (fuel : nat) (t : Z) (groups : array Z)
  : option (Z * array Z) :=
  if t >? 0 then find fuel t groups else Some (t, groups).

Fixpoint same_transitions_from (fuel : nat) (symbols : list Z) (s1 s2 : Z)
  (mat : Z -> Z -> Z) (groups : array Z) : option (bool * array Z) :=
  match symbols with
  | [] => Some (true, groups)
  | i :: rest =>
      '(transition1, groups) <- cls_find fuel (mat s1 i) groups ;;
      '(transition2, groups) <- cls_find fuel (mat s2 i) groups ;;
      if negb (transition1 =? transition2)
      then Some (false, groups)
      else same_transitions_from fuel rest s1 s2 mat groups
  end.

Definition same_transitions (fuel : nat) (s1 s2 : Z) (mat : Z -> Z -> Z)
  (nab : Z) (groups : array Z) : option (bool * array Z) :=
  same_transitions_from fuel (range 1 nab) s1 s2 mat groups.

(** The arrays a sweep of [partition] works on: the partition being refined
    and the two automatic arrays [new_groups] and [unified].  The array
    [member] together with [group_size] is the list [member]. *)
Record sweep_state : Type := mk_sweep {
  old_groups : array Z;
  new_groups : array Z;
  unified : array Z
}.

(** [for (i = 1; i <= nstates; i++) if (find(i, old_groups) == rep) ...] *)
Definition collect_members (fuel : nat) (nstates rep : Z) (st : sweep_state)
  : option (list Z * sweep_state) :=
  for_each (range 1 nstates)
    (fun i '(member, st) =>
       '(r, og) <- find fuel i (old_groups st) ;;
       if r =? rep
       then Some (member ++ [i],
                  mk_sweep og (upd (new_groups st) i 0) (upd (unified st) i FALSE))
       else Some (member, mk_sweep og (new_groups st) (unified st)))
    ([], st).

(** Inner loop [for (j = i + 1; j < group_size; j++)] for a fixed [member[i]]. *)
Fixpoint unify_with (fuel : nat) (dfa : automaton_t) (mi : Z) (rest : list Z)
  (st : sweep_state) : option sweep_state :=
  match rest with
  | [] => Some st
  | mj :: rest' =>
      if negb (unified st mj =? 0) then unify_with fuel dfa mi rest' st
      else
        '(same, og) <- same_transitions fuel mi mj (mat dfa) (nab dfa) (old_groups st) ;;
        if same then
          ng <- Union fuel mi mj (new_groups st) ;;
          unify_with fuel dfa mi rest' (mk_sweep og ng (upd (unified st) mj TRUE))
        else unify_with fuel dfa mi rest' (mk_sweep og (new_groups st) (unified st))
  end.

(** Outer loop [for (i = 0; i < group_size - 1; i++)]: the last member is
    never taken as [member[i]]. *)
Fixpoint unify_pairs (fuel : nat) (dfa : automaton_t) (member : list Z)
  (st : sweep_state) : option sweep_state :=
  match member with
  | mi :: ((_ :: _) as rest) =>
      if negb (unified st mi =? 0) then unify_pairs fuel dfa rest st
      else
        st' <- unify_with fuel dfa mi rest
                 (mk_sweep (old_groups st) (new_groups st) (upd (unified st) mi TRUE)) ;;
        unify_pairs fuel dfa rest st'
  | _ => Some st
  end.

(** Body of [for (rep = 1; rep <= nstates; rep++)]. *)
Definition partition_group (fuel : nat) (dfa : automaton_t) (rep : Z)
  (acc : sweep_state * bool) : option (sweep_state * bool) :=
  let '(st, updated) := acc in
  if old_groups st rep >=? 0 then Some (st, updated)
  else
    '(member, st) <- collect_members fuel (nstates dfa) rep st ;;
    st <- unify_pairs fuel dfa member st ;;
    '(changed, og, ng) <- update_partitions fuel member (old_groups st) (new_groups st) ;;
    Some (mk_sweep og ng (unified st), if changed then true else updated).

Definition partition (fuel : nat) (dfa : automaton_t) (st : sweep_state)
  : option (bool * array Z) :=
  '(st, updated) <- for_each (range 1 (nstates dfa)) (partition_group fuel dfa) (st, false) ;;
  Some (updated, old_groups st).

(* ===================================================================== *)
(** ** dead.c *)
(* ===================================================================== *)

Definition init_connections (transitions_mat : Z -> Z -> Z) (nstates nab : Z)
  (connected : Z -> Z -> Z) : Z -> Z -> Z :=
  fold_left
    (fun connected src =>
       let connected :=
         fold_left (fun c dest => upd2 c src dest FALSE) (range 1 nstates) connected in
       let connected := upd2 connected src src TRUE in
       fold_left
         (fun c i =>
            let dest := transitions_mat src i in
            if dest >? 0 then upd2 c src dest TRUE else c)
         (range 1 nab) connected)
    (range 1 nstates) connected.

(** [for (k = 1; k <= nstates; k++) if (connected[i][k]) connected[j][k] = TRUE;] *)
Definition closure_row (nstates i j : Z) (connected : Z -> Z -> Z) : Z -> Z -> Z :=
  fold_left
    (fun c k => if negb (c i k =? 0) then upd2 c j k TRUE else c)
    (range 1 nstates) connected.

Definition closure_pivot (nstates i : Z) (connected : Z -> Z -> Z) : Z -> Z -> Z :=
  fold_left
    (fun c j => if negb (c j i =? 0) then closure_row nstates i j c else c)
    (range 1 nstates) connected.

Definition t_closure (nstates : Z) (connected : Z -> Z -> Z) : Z -> Z -> Z :=
  fold_left (fun c i => closure_pivot nstates i c) (range 1 nstates) connected.

(** [for (j = 0; (accept_st = dfa->accept[j]) != 0; j++)
       if (connected[i][accept_st]) break;]
    The result is the value of [accept_st] when the loop is left. *)
Fixpoint scan_accept (fuel : nat) (accept : array Z) (connected : Z -> Z -> Z)
  (i j : Z) : option Z :=
  match fuel with
  | O => None
  | S f =>
      let accept_st := accept j in
      if negb (accept_st =? 0) then
        if negb (connected i accept_st =? 0) then Some accept_st
        else scan_accept f accept connected i (j + 1)
      else Some accept_st
  end.

Definition mark_unreachable (nstates init : Z) (connected : Z -> Z -> Z)
  (attrib : array ascii) : array ascii :=
  fold_left
    (fun a i => if connected init i =? 0 then upd a i attr_D else a)
    (range 1 nstates) attrib.

Definition mark_not_accepting (fuel : nat) (nstates : Z) (accept : array Z)
  (connected : Z -> Z -> Z) (attrib : array ascii) : option (array ascii) :=
  for_each (range 1 nstates)
    (fun i a =>
       let attrib := a i in
       if Ascii.eqb attrib attr_D || Ascii.eqb attrib attr_A then Some a
       else
         accept_st <- scan_accept fuel accept connected i 0 ;;
         if accept_st =? 0 then Some (upd a i attr_D) else Some a)
    attrib.

Definition find_dead_states (fuel : nat) (dfa : automaton_t)
  (connected : Z -> Z -> Z) : option (automaton_t * (Z -> Z -> Z)) :=
  let connected := init_connections (mat dfa) (nstates dfa) (nab dfa) connected in
  let connected := t_closure (nstates dfa) connected in
  let attrib := mark_unreachable (nstates dfa) (init_state dfa) connected (state_attrib dfa) in
  attrib <- mark_not_accepting fuel (nstates dfa) (accept dfa) connected attrib ;;
  Some (mk_automaton (nstates dfa) (nab dfa) (mat dfa) (init_state dfa) (accept dfa) attrib,
        connected).

(* ===================================================================== *)
(** ** main.c *)
(* ===================================================================== *)

(** The three automatic arrays of [compress_dfa] and its counter. *)
Record scan_state : Type := mk_scan {
  sc_groups : array Z;
  sc_map : array Z;          (* old->new (compressed) state mapping *)
  sc_pam : array Z;          (* new->old (inverse) state mapping    *)
  sc_rep : array Z;          (* representative-states array         *)
  rep_count : Z
}.

(** First loop of [compress_dfa]. *)
Definition compress_scan (fuel : nat) (nstates : Z) (st : scan_state)
  : option scan_state :=
  for_each (range 1 nstates)
    (fun i st =>
       '(r, g) <- find fuel i (sc_groups st) ;;
       let rep := upd (sc_rep st) i r in
       if i =? rep i then
         let rep_count := rep_count st + 1 in
         Some (mk_scan g (upd (sc_map st) i rep_count)
                 (upd (sc_pam st) rep_count i) rep rep_count)
       else Some (mk_scan g (sc_map st) (sc_pam st) rep (rep_count st)))
    st.

(** Second loop of [compress_dfa]: the output fields it writes and the
    accept counter. *)
Record fill_state : Type := mk_fill {
  f_mat : Z -> Z -> Z;
  f_attrib : array ascii;
  f_accept : array Z;
  a_count : Z
}.

Definition compress_fill (old_dfa : automaton_t) (sc : scan_state)
  (fs : fill_state) : fill_state :=
  fold_left
    (fun fs i =>
       let m :=
         fold_left
           (fun m j =>
              upd2 m i j (sc_map sc (sc_rep sc (mat old_dfa (sc_pam sc i) j))))
           (range 1 (nab old_dfa)) (f_mat fs) in
       let attrib := upd (f_attrib fs) i (state_attrib old_dfa (sc_pam sc i)) in
       if Ascii.eqb (attrib i) attr_A
       then mk_fill m attrib (upd (f_accept fs) (a_count fs) i) (a_count fs + 1)
       else mk_fill m attrib (f_accept fs) (a_count fs))
    (range 1 (rep_count sc)) fs.

(** [compress_dfa (old_dfa, new_dfa, groups)].  [new_dfa] is the previous
    content of the structure that is written; [map0], [pam0], [rep0] are the
    contents of the automatic arrays on entry.  The result also carries the
    scan state (for the mappings) and the accept counter. *)
Definition compress_dfa (fuel : nat) (old_dfa new_dfa : automaton_t)
  (groups map0 pam0 rep0 : array Z)
  : option (automaton_t * scan_state * Z) :=
  sc <- compress_scan fuel (nstates old_dfa)
          (mk_scan groups (upd map0 0 0) (upd pam0 0 0) (upd rep0 0 0) 0) ;;
  let fs := compress_fill old_dfa sc
              (mk_fill (mat new_dfa) (state_attrib new_dfa) (accept new_dfa) 0) in
  Some (mk_automaton
          (rep_count sc)
          (nab old_dfa)
          (f_mat fs)
          (sc_map sc (sc_rep sc (init_state old_dfa)))
          (f_accept fs)
          (f_attrib fs),
        sc, a_count fs).

(** [while (partition(old_dfa, groups) == TRUE) ;] *)
Fixpoint refine (fuel : nat) (find_fuel : nat) (dfa : automaton_t)
  (groups ng0 un0 : array Z) : option (array Z) :=
  match fuel with
  | O => None
  | S f =>
      '(changed, groups) <- partition find_fuel dfa (mk_sweep groups ng0 un0) ;;
      if changed then refine f find_fuel dfa groups ng0 un0 else Some groups
  end.

(** The memory [minimize_dfa] works on besides its arguments: the static
    matrix [connected] of "dead.c" and the automatic arrays of the functions
    it calls. *)
Record workspace : Type := mk_workspace {
  w_connected : Z -> Z -> Z;
  w_new_groups : array Z;
  w_unified : array Z;
  w_map : array Z;
  w_pam : array Z;
  w_rep : array Z
}.

Definition final_partition (fuel : nat) (old_dfa : automaton_t)
  (groups : array Z) (w : workspace) : option (array Z) :=
  groups <- init_partitions fuel (nstates old_dfa) (state_attrib old_dfa) groups ;;
  refine fuel fuel old_dfa groups (w_new_groups w) (w_unified w).

Definition minimize_dfa (fuel : nat) (old_dfa new_dfa : automaton_t)
  (groups : array Z) (w : workspace) : option automaton_t :=
  groups <- final_partition fuel old_dfa groups w ;;
  '(new_dfa, _, _) <- compress_dfa fuel old_dfa new_dfa groups (w_map w) (w_pam w) (w_rep w) ;;
  '(new_dfa, _) <- find_dead_states fuel new_dfa (w_connected w) ;;
  Some new_dfa.

(* ===================================================================== *)
(** ** inout.c *)
(* ===================================================================== *)

(** What one conversion [%d] of [scanf] does: it stores a number and
    counts as matched, or it fails to match, or the input has ended; in the
    last two cases the variable is not written. *)
Inductive scan_int : Type :=
| IntOk (v : Z)
| IntFail
| IntEof.

(** The calls of [Abort] in [input_dfa], in the order of the source. *)
Inductive abort : Type :=
| BadHeader
| BadNstates (nstates : Z)
| TooManyStates (nstates : Z)
| BadNab (nab : Z)
| TooManySymbols (nab : Z)
| BadAlphabet
| BadStates
| StateOutOfRange (s : Z)
| AcceptOutOfRange (s : Z).

(** How a part of [input_dfa] ends: it goes on with a result, it calls
    [Abort], or it writes past the last cell of [accept[]]. *)
Inductive outcome (A : Type) : Type :=
| Ret (a : A)
| Aborted (why : abort)
| Overrun.

Arguments Ret {A} a.
Arguments Aborted {A} why.
Arguments Overrun {A}.

Section Input.

(** The standard input and the two conversions the module reads it with:
    [scan_d] is [scanf("%d", &v)], [scan_1s] is [scanf("%1s", c)] (its
    result is [c[0]] when the call returned 1). *)
Variable stdin_t : Type.
Variable scan_d : stdin_t -> scan_int * stdin_t.
Variable scan_1s : stdin_t -> option ascii * stdin_t.

(** [for (j = 1; j <= nab; j++)] reading the alphabet symbols. *)
Fixpoint read_alphabet (js : list Z) (ab_map : array ascii) (inp : stdin_t)
  : outcome (array ascii * stdin_t) :=
  match js with
  | [] => Ret (ab_map, inp)
  | j :: rest =>
      match scan_1s inp with
      | (Some c, inp) => read_alphabet rest (upd ab_map j c) inp
      | (None, _) => Aborted BadAlphabet
      end
  end.

(** The [j] loop reading row [i] of the matrix; [s] is the local the
    numbers are read into. *)
Fixpoint read_row (nstates i : Z) (js : list Z) (mat : Z -> Z -> Z) (s : Z)
  (inp : stdin_t) : outcome ((Z -> Z -> Z) * Z * stdin_t) :=
  match js with
  | [] => Ret (mat, s, inp)
  | j :: rest =>
      match scan_d inp with
      | (IntOk s, inp) =>
          if s >=? nstates then Aborted (StateOutOfRange s)
          else read_row nstates i rest
                 (upd2 mat i j (if s >=? 0 then s + 1 else 0)) s inp
      | (_, _) => Aborted BadStates
      end
  end.

(** The [i] loop: clear the attribute of state [i], read its row. *)
Fixpoint read_matrix (nstates nab : Z) (rows : list Z) (mat : Z -> Z -> Z)
  (attrib : array ascii) (s : Z) (inp : stdin_t)
  : outcome ((Z -> Z -> Z) * array ascii * Z * stdin_t) :=
  match rows with
  | [] => Ret (mat, attrib, s, inp)
  | i :: rest =>
      let attrib := upd attrib i Ascii.zero in
      match read_row nstates i (range 1 nab) mat s inp with
      | Ret (mat, s, inp) => read_matrix nstates nab rest mat attrib s inp
      | Aborted why => Aborted why
      | Overrun => Overrun
      end
  end.

(** [while (scanf("%d",&s) != EOF)] reading the accept states, and the
    sentinel written after the loop.  A failed match leaves [s] as it was
    and the body runs all the same.  [accept[]] has [MAX_STATES + 1]
    cells. *)
Fixpoint read_accepts (fuel : nat) (nstates : Z) (attrib : array ascii)
  (accept : array Z) (i s : Z) (inp : stdin_t)
  : option (outcome (array ascii * array Z * stdin_t)) :=
  match fuel with
  | O => None
  | S f =>
      let '(r, inp) := scan_d inp in
      match r with
      | IntEof =>
          if i >? MAX_STATES then Some Overrun
          else Some (Ret (attrib, upd accept i 0, inp))
      | _ =>
          let s := match r with IntOk v => v | _ => s end in
          if (s <? 0) || (nstates <=? s) then Some (Aborted (AcceptOutOfRange s))
          else if i >? MAX_STATES then Some Overrun
          else read_accepts f nstates (upd attrib (s + 1) attr_A)
                 (upd accept i (s + 1)) (i + 1) s inp
      end
  end.

(** [input_dfa]: [s] is the content of the uninitialised local [s],
    [ab_map] the static array of the module. *)
Definition input_dfa (fuel : nat) (s : Z) (dfa : automaton_t)
  (ab_map : array ascii) (inp : stdin_t)
  : option (outcome (automaton_t * array ascii * stdin_t)) :=
  match scan_d inp with
  | (IntOk nstates, inp) =>
      match scan_d inp with
      | (IntOk nab, inp) =>
          if nstates <? 1 then Some (Aborted (BadNstates nstates))
          else if nstates >? MAX_STATES then Some (Aborted (TooManyStates nstates))
          else if nab <? 1 then Some (Aborted (BadNab nab))
          else if nab >? AB_SIZE then Some (Aborted (TooManySymbols nab))
          else
            match read_alphabet (range 1 nab) ab_map inp with
            | Ret (ab_map, inp) =>
                match read_matrix nstates nab (range 1 nstates) (mat dfa)
                        (state_attrib dfa) s inp with
                | Ret (mat, attrib, s, inp) =>
                    match read_accepts fuel nstates attrib (accept dfa) 0 s inp with
                    | Some (Ret (attrib, accept, inp)) =>
                        Some (Ret (mk_automaton nstates nab mat 1 accept attrib,
                                   ab_map, inp))
                    | Some (Aborted why) => Some (Aborted why)
                    | Some Overrun => Some Overrun
                    | None => None
                    end
                | Aborted why => Some (Aborted why)
                | Overrun => Some Overrun
                end
            | Aborted why => Some (Aborted why)
            | Overrun => Some Overrun
            end
      | (_, _) => Some (Aborted BadHeader)
      end
  | (_, _) => Some (Aborted BadHeader)
  end.

End Input.

Arguments read_alphabet {stdin_t} scan_1s js ab_map inp.
Arguments read_row {stdin_t} scan_d nstates i js mat s inp.
Arguments read_matrix {stdin_t} scan_d nstates nab rows mat attrib s inp.
Arguments read_accepts {stdin_t} scan_d fuel nstates attrib accept i s inp.
Arguments input_dfa {stdin_t} scan_d scan_1s fuel s dfa ab_map inp.

(* ===================================================================== *)
(** ** Specification vocabulary *)
(* ===================================================================== *)

(** [chain rep e r d]: following parent pointers from [e] reaches the root
    [r] (a cell that is not positive) after [d] steps. *)
Inductive chain (rep : array Z) : Z -> Z -> nat -> Prop :=
| chain_root : forall r, rep r <= 0 -> chain rep r r O
| chain_step : forall e r d,
    0 < rep e -> chain rep (rep e) r d -> chain rep e r (S d).

Definition root (rep : array Z) (e r : Z) : Prop := exists d, chain rep e r d.

(** A well-formed partition vector over the elements [1..n]: parents stay
    in range and every parent chain ends at a root. *)
Definition wf (n : Z) (rep : array Z) : Prop :=
  forall e, 1 <= e <= n ->
    (0 < rep e -> 1 <= rep e <= n) /\ exists r, root rep e r.

(** Transitions stay inside [{0} + [1, nstates]]. *)
Definition trans_ok (dfa : automaton_t) : Prop :=
  forall s j, 1 <= s <= nstates dfa -> 1 <= j <= nab dfa ->
    0 <= mat dfa s j <= nstates dfa.

(** The direct-transition relation and reachability by zero or more
    transitions. *)
Definition step (dfa : automaton_t) (a b : Z) : Prop :=
  exists j, 1 <= j <= nab dfa /\ mat dfa a j = b /\ 0 < b.

Definition reach (dfa : automaton_t) : Z -> Z -> Prop :=
  clos_refl_trans Z (step dfa).

(** In a forest of depth at most one the class of an element is read off
    directly: its parent if it has one, itself otherwise. *)
Definition cls (g : array Z) (e : Z) : Z := if g e >? 0 then g e else e.

Definition same (g : array Z) (x y : Z) : bool := cls g x =? cls g y.

(** The shape [Union] gives a class that is built by uniting its first
    member with each further member in turn: the second member is the root
    and carries the weight, every other member points to it. *)
Definition CanonAt (v : array Z) (cl : list Z) : Prop :=
  match cl with
  | [] => True
  | [a] => v a = 0
  | a :: b :: tl =>
      v a = b /\ v b = - Z.of_nat (S (length tl)) /\ forall t, In t tl -> v t = b
  end.

(** [v] encodes, in that shape, the partition of [ms] by [eqv]. *)
Definition Canon (ms : list Z) (eqv : Z -> Z -> bool) (v : array Z) : Prop :=
  forall x, In x ms -> CanonAt v (filter (eqv x) ms).

Definition Equiv (eqv : Z -> Z -> bool) : Prop :=
  (forall x, eqv x x = true) /\
  (forall x y, eqv x y = true -> eqv y x = true) /\
  (forall x y z, eqv x y = true -> eqv y z = true -> eqv x z = true).

(** The invariant of the partition vector between the calls of the
    refinement loop. *)
Definition Inv (n : Z) (g : array Z) : Prop := Canon (range 1 n) (same g) g.

(** Number of equivalence classes (roots) among [1..n]. *)
Definition is_root (g : array Z) (x : Z) : bool := g x <=? 0.

Definition class_count (n : Z) (g : array Z) : nat :=
  length (filter (is_root g) (range 1 n)).

(** Class of a transition target: the sink [0] is a class of its own. *)
Definition cl0 (g : array Z) (t : Z) : Z := if t >? 0 then cls g t else t.

(** The same-transition predicate of [same_transitions], as a function. *)
Definition same_trans (dfa : automaton_t) (g : array Z) (s1 s2 : Z) : bool :=
  forallb (fun j => cl0 g (mat dfa s1 j) =? cl0 g (mat dfa s2 j))
    (range 1 (nab dfa)).

(** Running a DFA: state [0] is the sink ("no transition"); a word is a
    list of symbol indices; it is accepted when the run ends in a state
    with attribute ['A']. *)
Definition delta (dfa : automaton_t) (s j : Z) : Z :=
  if s =? 0 then 0 else mat dfa s j.

Fixpoint run (dfa : automaton_t) (s : Z) (w : list Z) : Z :=
  match w with
  | [] => s
  | j :: w' => run dfa (delta dfa s j) w'
  end.

Definition accepts (dfa : automaton_t) (w : list Z) : bool :=
  let s := run dfa (init_state dfa) w in
  (0 <? s) && Ascii.eqb (state_attrib dfa s) attr_A.

Definition word_ok (dfa : automaton_t) (w : list Z) : Prop :=
  forall j, In j w -> 1 <= j <= nab dfa.

(** The automaton as "inout.c" prints it: states with attribute ['D'] are
    left out and a transition into one of them is shown as "no transition". *)
Definition dead (dfa : automaton_t) (s : Z) : bool :=
  Ascii.eqb (state_attrib dfa s) attr_D.

Definition delta_live (dfa : automaton_t) (s j : Z) : Z :=
  if s =? 0 then 0
  else let t := mat dfa s j in
       if (t <=? 0) || dead dfa t then 0 else t.

Fixpoint run_live (dfa : automaton_t) (s : Z) (w : list Z) : Z :=
  match w with
  | [] => s
  | j :: w' => run_live dfa (delta_live dfa s j) w'
  end.

Definition accepts_live (dfa : automaton_t) (w : list Z) : bool :=
  let start := if dead dfa (init_state dfa) then 0 else init_state dfa in
  let s := run_live dfa start w in
  (0 <? s) && Ascii.eqb (state_attrib dfa s) attr_A.

(** The accept list up to its sentinel names accepting states. *)
Definition accept_list_ok (dfa : automaton_t) : Prop :=
  exists k, 0 <= k <= MAX_STATES /\ accept dfa k = 0 /\
    forall j, 0 <= j < k ->
      1 <= accept dfa j <= nstates dfa /\ state_attrib dfa (accept dfa j) = attr_A.

(** A DFA as the input module hands it over: it marks accepting states
    only, no state is dead yet. *)
Definition valid_dfa (dfa : automaton_t) : Prop :=
  1 <= nstates dfa <= MAX_STATES /\
  1 <= nab dfa <= AB_SIZE /\
  trans_ok dfa /\
  init_state dfa = 1 /\
  accept_list_ok dfa /\
  (forall s, 1 <= s <= nstates dfa -> state_attrib dfa s <> attr_D).

(** One iteration of the [src] loop of [init_connections]. *)
Definition init_row (dfa : automaton_t) (connected : Z -> Z -> Z) (src : Z)
  : Z -> Z -> Z :=
  let connected :=
    fold_left (fun c dest => upd2 c src dest FALSE) (range 1 (nstates dfa)) connected in
  let connected := upd2 connected src src TRUE in
  fold_left
    (fun c i =>
       let dest := mat dfa src i in
       if dest >? 0 then upd2 c src dest TRUE else c)
    (range 1 (nab dfa)) connected.

(** The outer loop of [t_closure] over a list of pivots. *)
Definition pivots (n : Z) (l : list Z) (c : Z -> Z -> Z) : Z -> Z -> Z :=
  fold_left (fun c i => closure_pivot n i c) l c.

(** The root of a class in canonical shape. *)
Definition croot (cl : list Z) : Z :=
  match cl with
  | [] => 0
  | [a] => a
  | _ :: b :: _ => b
  end.

(** [cov eqv pre x]: [x] is equivalent to a member of [pre]. *)
Definition cov (eqv : Z -> Z -> bool) (pre : list Z) (x : Z) : bool :=
  existsb (fun y => eqv y x) pre.

(** No two states of one class differ in the classes of their transitions. *)
Definition stable (dfa : automaton_t) (g : array Z) : Prop :=
  forall x y, 1 <= x <= nstates dfa -> 1 <= y <= nstates dfa ->
    same g x y = true -> same_trans dfa g x y = true.

Definition refines (n : Z) (g' g : array Z) : Prop :=
  forall x y, 1 <= x <= n -> 1 <= y <= n -> same g' x y = true -> same g x y = true.

(** What one iteration of the [rep] loop of [partition] does to the
    partition [g]. *)
Definition group_result (dfa : automaton_t) (g g' : array Z) (rep : Z)
  (updated updated' : bool) : Prop :=
  Inv (nstates dfa) g' /\ refines (nstates dfa) g' g /\
  ((updated' = updated /\ g' = g /\
    (g rep < 0 -> forall x y, 1 <= x <= nstates dfa -> 1 <= y <= nstates dfa ->
       cls g x = rep -> cls g y = rep -> same_trans dfa g x y = true)) \/
   (updated' = true /\
    (class_count (nstates dfa) g < class_count (nstates dfa) g')%nat)).

(** Accepting or not: the two initial classes of [init_partitions]. *)
Definition isA (attribs : array ascii) (x : Z) : bool :=
  Ascii.eqb (attribs x) attr_A.
Definition cat (attribs : array ascii) (b : bool) (y : Z) : bool :=
  Bool.eqb (isA attribs y) b.
Definition eqA (attribs : array ascii) (x y : Z) : bool :=
  cat attribs (isA attribs x) y.

(** State of the first loop of [compress_dfa] after the iteration [m],
    for the partition vector [g] over [1..n] it started from. *)
Definition scan_inv (n : Z) (g : array Z) (m : Z) (sc : scan_state) : Prop :=
  wf n (sc_groups sc) /\
  (forall x rx, 1 <= x <= n -> (root (sc_groups sc) x rx <-> root g x rx)) /\
  sc_rep sc 0 = 0 /\ sc_map sc 0 = 0 /\
  0 <= rep_count sc <= m /\
  (forall x, 1 <= x <= m -> root g x (sc_rep sc x)) /\
  (forall r, 1 <= r <= m -> root g r r ->
     1 <= sc_map sc r <= rep_count sc /\ sc_pam sc (sc_map sc r) = r) /\
  (forall t, 1 <= t <= rep_count sc ->
     1 <= sc_pam sc t <= m /\ root g (sc_pam sc t) (sc_pam sc t) /\
     sc_map sc (sc_pam sc t) = t).

(** State of the second loop of [compress_dfa] after the iteration [m],
    started in [fs0]. *)
Definition fill_inv (old_dfa : automaton_t) (sc : scan_state)
  (fs0 : fill_state) (m : Z) (fs : fill_state) : Prop :=
  (forall i j, 1 <= i <= m -> 1 <= j <= nab old_dfa ->
     f_mat fs i j = sc_map sc (sc_rep sc (mat old_dfa (sc_pam sc i) j))) /\
  (forall i j, ~ (1 <= i <= m /\ 1 <= j <= nab old_dfa) ->
     f_mat fs i j = f_mat fs0 i j) /\
  (forall i, 1 <= i <= m -> f_attrib fs i = state_attrib old_dfa (sc_pam sc i)) /\
  (forall i, ~ 1 <= i <= m -> f_attrib fs i = f_attrib fs0 i) /\
  a_count fs0 <= a_count fs <= a_count fs0 + m /\
  (forall k, a_count fs0 <= k < a_count fs ->
     1 <= f_accept fs k <= m /\ f_attrib fs (f_accept fs k) = attr_A) /\
  (forall k, ~ a_count fs0 <= k < a_count fs -> f_accept fs k = f_accept fs0 k) /\
  (forall i, 1 <= i <= m -> f_attrib fs i = attr_A ->
     exists k, a_count fs0 <= k < a_count fs /\ f_accept fs k = i).

(** New id of the class of an old state: [map[rep[t]]]. *)
Definition newid (sc : scan_state) (t : Z) : Z := sc_map sc (sc_rep sc t).

(** The partition vectors the refinement loop of [minimize_dfa] passes to
    [partition]: the initial one, and the result of every call that
    returned [TRUE]. *)
Inductive reached (fuel : nat) (dfa : automaton_t) (g0 : array Z)
  : array Z -> Prop :=
| reached_init : reached fuel dfa g0 g0
| reached_step : forall g ng un g',
    reached fuel dfa g0 g ->
    partition fuel dfa (mk_sweep g ng un) = Some (true, g') ->
    reached fuel dfa g0 g'.

(** Executable checks of the hypotheses, for concrete inputs. *)
Definition trans_okb (dfa : automaton_t) : bool :=
  forallb
    (fun s =>
       forallb (fun j => (0 <=? mat dfa s j) && (mat dfa s j <=? nstates dfa))
         (range 1 (nab dfa)))
    (range 1 (nstates dfa)).

Definition accept_list_okb (dfa : automaton_t) : bool :=
  existsb
    (fun k =>
       (accept dfa k =? 0) &&
       forallb
         (fun j => (1 <=? accept dfa j) && (accept dfa j <=? nstates dfa) &&
                   Ascii.eqb (state_attrib dfa (accept dfa j)) attr_A)
         (range 0 (k - 1)))
    (range 0 MAX_STATES).

Definition valid_dfab (dfa : automaton_t) : bool :=
  (1 <=? nstates dfa) && (nstates dfa <=? MAX_STATES) &&
  (1 <=? nab dfa) && (nab dfa <=? AB_SIZE) &&
  trans_okb dfa && (init_state dfa =? 1) && accept_list_okb dfa &&
  forallb (fun s => negb (Ascii.eqb (state_attrib dfa s) attr_D))
    (range 1 (nstates dfa)).

Definition wfb (n : Z) (rep : array Z) : bool :=
  forallb
    (fun e =>
       ((rep e <=? 0) || ((1 <=? rep e) && (rep e <=? n))) &&
       match find_root (S (Z.to_nat n)) rep e with
       | Some _ => true
       | None => false
       end)
    (range 1 n).

(** Concrete automata and memory contents used in the examples below. *)
Definition zeros : array Z := fun _ => 0.
Definition no_attrib : array ascii := fun _ => Ascii.zero.
Definition blank_dfa : automaton_t :=
  mk_automaton 0 0 (fun _ _ => 0) 0 zeros no_attrib.
Definition blank_workspace : workspace :=
  mk_workspace (fun _ _ => 0) zeros zeros zeros zeros zeros.

(** Three states over one symbol, [0 -> 1 -> 2 -> 2], accepting [{1, 2}]
    (external numbering). *)
Definition chain_dfa : automaton_t :=
  mk_automaton 3 1
    (fun s j => match s, j with 1, 1 => 2 | 2, 1 => 3 | 3, 1 => 3 | _, _ => 0 end)
    1
    (fun k => match k with 0 => 2 | 1 => 3 | _ => 0 end)
    (fun s => match s with 2 | 3 => attr_A | _ => Ascii.zero end).

(** Three states over one symbol, every state goes to state 1 (external);
    only state 1 accepts, so states 0 and 2 are equivalent. *)
Definition fork_dfa : automaton_t :=
  mk_automaton 3 1
    (fun s j => match s, j with 1, 1 => 2 | 2, 1 => 2 | 3, 1 => 2 | _, _ => 0 end)
    1
    (fun k => match k with 0 => 2 | _ => 0 end)
    (fun s => match s with 2 => attr_A | _ => Ascii.zero end).

(** Two equivalent non-accepting states. *)
Definition pair_dfa : automaton_t :=
  mk_automaton 2 1
    (fun s j => match s, j with 1, 1 => 1 | 2, 1 => 2 | _, _ => 0 end)
    1 zeros no_attrib.

(** State 1 (external) accepts but cannot be reached from state 0. *)
Definition island_dfa : automaton_t :=
  mk_automaton 2 1
    (fun s j => match s, j with 1, 1 => 1 | 2, 1 => 2 | _, _ => 0 end)
    1
    (fun k => match k with 0 => 2 | _ => 0 end)
    (fun s => match s with 2 => attr_A | _ => Ascii.zero end).

(** Two accepting states that are not equivalent, then a rejecting sink
    state: [0 -> 1 -> 2 -> 2], accepting [{0, 1}]. *)
Definition two_accept_dfa : automaton_t :=
  mk_automaton 3 1
    (fun s j => match s, j with 1, 1 => 2 | 2, 1 => 3 | 3, 1 => 3 | _, _ => 0 end)
    1
    (fun k => match k with 0 => 1 | 1 => 2 | _ => 0 end)
    (fun s => match s with 1 | 2 => attr_A | _ => Ascii.zero end).

(** A single accepting state with a self loop. *)
Definition loop_dfa : automaton_t :=
  mk_automaton 1 1
    (fun s j => match s, j with 1, 1 => 1 | _, _ => 0 end)
    1
    (fun k => match k with 0 => 1 | _ => 0 end)
    (fun s => match s with 1 => attr_A | _ => Ascii.zero end).

(** An accepting state followed by a rejecting trap: [0 -> 1 -> 1],
    accepting [{0}]. *)
Definition trap_dfa : automaton_t :=
  mk_automaton 2 1
    (fun s j => match s, j with 1, 1 => 2 | 2, 1 => 2 | _, _ => 0 end)
    1
    (fun k => match k with 0 => 1 | _ => 0 end)
    (fun s => match s with 1 => attr_A | _ => Ascii.zero end).

(** States 1 and 3 in one class with root 3, state 2 alone. *)
Definition fork_rep : array Z :=
  fun x => match x with 1 => 3 | 3 => -1 | _ => 0 end.

(** A parent chain [1 -> 2 -> 3] with root [3]. *)
Definition path_rep : array Z :=
  fun x => match x with 1 => 2 | 2 => 3 | 3 => -2 | _ => 0 end.

(** A relation on states that one step of the automaton respects: related
    states go, on every symbol, to the same target or to related states. *)
Definition trans_closed (dfa : automaton_t) (E : Z -> Z -> Prop) : Prop :=
  forall x y, 1 <= x <= nstates dfa -> 1 <= y <= nstates dfa -> E x y ->
  forall j, 1 <= j <= nab dfa ->
    mat dfa x j = mat dfa y j \/
    (1 <= mat dfa x j <= nstates dfa /\ 1 <= mat dfa y j <= nstates dfa /\
     E (mat dfa x j) (mat dfa y j)).

(** The partition [g] keeps [E]-related states together. *)
Definition keeps (n : Z) (E : Z -> Z -> Prop) (g : array Z) : Prop :=
  forall x y, 1 <= x <= n -> 1 <= y <= n -> E x y -> same g x y = true.

(** Acceptance of a word from an arbitrary state, and language equivalence
    of two states. *)
Definition accepts_from (dfa : automaton_t) (s : Z) (w : list Z) : bool :=
  let t := run dfa s w in
  (0 <? t) && Ascii.eqb (state_attrib dfa t) attr_A.

Definition lang_eq (dfa : automaton_t) (x y : Z) : Prop :=
  forall w, word_ok dfa w -> accepts_from dfa x w = accepts_from dfa y w.

(** Every transition leads to a state (no "no transition" entries). *)
Definition total (dfa : automaton_t) : Prop :=
  forall s j, 1 <= s <= nstates dfa -> 1 <= j <= nab dfa ->
    1 <= mat dfa s j <= nstates dfa.

Definition totalb (dfa : automaton_t) : bool :=
  forallb
    (fun s =>
       forallb (fun j => (1 <=? mat dfa s j) && (mat dfa s j <=? nstates dfa))
         (range 1 (nab dfa)))
    (range 1 (nstates dfa)).

(** What the run of a word from a state shows: it fell off the automaton
    (a "no transition" entry was met), it ended in an accept state, or it
    ended in another state. *)
Inductive verdict : Type := Stuck | Accepted | Rejected.

Definition verdict_of (dfa : automaton_t) (s : Z) (w : list Z) : verdict :=
  let t := run dfa s w in
  if t <=? 0 then Stuck
  else if isA (state_attrib dfa) t then Accepted else Rejected.

(** No word tells the two states apart. *)
Definition indist (dfa : automaton_t) (x y : Z) : Prop :=
  forall w, word_ok dfa w -> verdict_of dfa x w = verdict_of dfa y w.

(** Related states are both accepting or both not. *)
Definition respects_accept (dfa : automaton_t) (E : Z -> Z -> Prop) : Prop :=
  forall x y, 1 <= x <= nstates dfa -> 1 <= y <= nstates dfa -> E x y ->
    isA (state_attrib dfa) x = isA (state_attrib dfa) y.

(** Five states over two symbols accepting the two words of length two
    that end in the first symbol: states 1 and 2 (external) both lead to the
    accept state 3 on the first symbol; on the second symbol state 1 has no
    transition and state 2 goes to the trap state 4. *)
Definition gap_dfa : automaton_t :=
  mk_automaton 5 2
    (fun s j =>
       match s, j with
       | 1, 1 => 2 | 1, 2 => 3
       | 2, 1 => 4
       | 3, 1 => 4 | 3, 2 => 5
       | 5, 1 => 5 | 5, 2 => 5
       | _, _ => 0
       end)
    1
    (fun k => match k with 0 => 4 | _ => 0 end)
    (fun s => match s with 4 => attr_A | _ => Ascii.zero end).

(** [on_path rep e x]: [x] is [e] or one of its ancestors, and is not a
    root; these are the cells the second loop of [find] writes. *)
Inductive on_path (rep : array Z) : Z -> Z -> Prop :=
| on_path_here : forall e, 0 < rep e -> on_path rep e e
| on_path_up : forall e x, 0 < rep e -> on_path rep (rep e) x -> on_path rep e x.

(** The root of [x] as the first loop of [find] reaches it within [n]
    steps (0 if it does not), the number of elements of [1..n] with root
    [r], and the bookkeeping of "ufind.c": a root stores minus the number of
    the other members of its class. *)
Definition root_of (n : Z) (rep : array Z) (x : Z) : Z :=
  match find_root (Z.to_nat n) rep x with Some r => r | None => 0 end.

Definition class_size (n : Z) (rep : array Z) (r : Z) : nat :=
  length (filter (fun x => root_of n rep x =? r) (range 1 n)).

Definition weights_ok (n : Z) (rep : array Z) : Prop :=
  forall r, 1 <= r <= n -> rep r <= 0 ->
    rep r = - (Z.of_nat (class_size n rep r) - 1).

Definition weights_okb (n : Z) (rep : array Z) : bool :=
  forallb
    (fun r => (0 <? rep r) || (rep r =? - (Z.of_nat (class_size n rep r) - 1)))
    (range 1 n).

(** Class of a transition target in an arbitrary partition vector: the
    root of a state, and the sink [0] (or any "no transition" entry) as it
    is. *)
Definition root0 (n : Z) (rep : array Z) (t : Z) : Z :=
  if t >? 0 then root_of n rep t else t.

(** A stand-in for the standard input in the examples: a list of numbers
    and symbols already split at white space.  [%d] takes a number and
    fails, without consuming anything, on a symbol; [%1s] takes a symbol. *)
Inductive token : Type :=
| TInt (v : Z)
| TSym (c : ascii).

Definition tok_d (inp : list token) : scan_int * list token :=
  match inp with
  | [] => (IntEof, [])
  | TInt v :: rest => (IntOk v, rest)
  | TSym _ :: _ => (IntFail, inp)
  end.

Definition tok_1s (inp : list token) : option ascii * list token :=
  match inp with
  | TSym c :: rest => (Some c, rest)
  | _ => (None, inp)
  end.

(** The text of [chain_dfa]: 3 states, 1 symbol, the matrix, the accept
    states; and the same text followed by a stray symbol. *)
Definition chain_text : list token :=
  [TInt 3; TInt 1; TSym "a"%char; TInt 1; TInt 2; TInt 2; TInt 1; TInt 2].

Definition stray_text : list token := chain_text ++ [TSym "x"%char].

(** Two runs of the first loop of [compress_dfa] on the same partition
    vector agree on every cell the second loop reads. *)
Definition scan_agree (pre : list Z) (a b : scan_state) : Prop :=
  sc_groups a = sc_groups b /\ rep_count a = rep_count b /\ 0 <= rep_count a /\
  (forall x, x = 0 \/ In x pre -> sc_rep a x = sc_rep b x) /\
  (forall x, x = 0 \/ (In x pre /\ sc_rep a x = x) -> sc_map a x = sc_map b x) /\
  (forall t, 0 <= t <= rep_count a -> sc_pam a t = sc_pam b t).

(** The relation a connectivity matrix stores among the states [1..n]. *)
Definition edge (n : Z) (c : Z -> Z -> Z) (x y : Z) : Prop :=
  1 <= x <= n /\ 1 <= y <= n /\ c x y <> 0.

(* ===================================================================== *)
(** ** Basic facts: arrays, ranges, the option monad *)
(* ===================================================================== *)

Lemma upd_eq {A} (a : array A) i v : upd a i v i = v.
Proof. unfold upd. now rewrite Z.eqb_refl. Qed.

Lemma upd_neq {A} (a : array A) i j v : j <> i -> upd a i v j = a j.
Proof. intros H. unfold upd. destruct (Z.eqb_spec j i); congruence. Qed.

Lemma upd_same {A} (a : array A) i : upd a i (a i) = a.
Proof.
  apply functional_extensionality. intros j. unfold upd.
  destruct (Z.eqb_spec j i); congruence.
Qed.

Lemma upd2_eq {A} (m : Z -> Z -> A) i j v : upd2 m i j v i j = v.
Proof. unfold upd2. now rewrite !Z.eqb_refl. Qed.

Lemma upd2_neq {A} (m : Z -> Z -> A) i j v i' j' :
  i' <> i \/ j' <> j -> upd2 m i j v i' j' = m i' j'.
Proof.
  intros H. unfold upd2.
  destruct (Z.eqb_spec i' i), (Z.eqb_spec j' j); simpl; try reflexivity.
  destruct H; congruence.
Qed.

Lemma bind_Some {A B} (c : option A) (k : A -> option B) y :
  bind c k = Some y -> exists x, c = Some x /\ k x = Some y.
Proof. destruct c; simpl; intros H; [eauto | discriminate]. Qed.

Lemma in_range lo hi x : In x (range lo hi) <-> lo <= x <= hi.
Proof.
  unfold range. rewrite in_map_iff. split.
  - intros (k & <- & Hk). apply in_seq in Hk. lia.
  - intros H. exists (Z.to_nat (x - lo)). split; [lia |].
    apply in_seq. lia.
Qed.

Lemma range_length lo hi : length (range lo hi) = Z.to_nat (hi - lo + 1).
Proof. unfold range. now rewrite length_map, length_seq. Qed.

Lemma range_NoDup lo hi : NoDup (range lo hi).
Proof.
  unfold range. apply Injective_map_NoDup; [| apply seq_NoDup].
  intros a b H. lia.
Qed.

Lemma range_empty lo hi : hi < lo -> range lo hi = [].
Proof.
  intros H. unfold range. replace (Z.to_nat (hi - lo + 1)) with O by lia.
  reflexivity.
Qed.

Lemma range_snoc lo hi : lo <= hi -> range lo hi = range lo (hi - 1) ++ [hi].
Proof.
  intros H. unfold range.
  replace (Z.to_nat (hi - lo + 1)) with (S (Z.to_nat (hi - 1 - lo + 1))) by lia.
  rewrite seq_S, map_app. simpl. do 2 f_equal. lia.
Qed.

Lemma range_cons lo hi : lo <= hi -> range lo hi = lo :: range (lo + 1) hi.
Proof.
  intros H. unfold range.
  replace (Z.to_nat (hi - lo + 1)) with (S (Z.to_nat (hi - (lo + 1) + 1))) by lia.
  simpl. f_equal; [lia |].
  rewrite <- seq_shift, map_map. apply map_ext. intros k. lia.
Qed.

Lemma NoDup_app_disjoint {A} (l1 l2 : list A) x :
  NoDup (l1 ++ l2) -> In x l1 -> In x l2 -> False.
Proof.
  induction l1 as [| a l1 IH]; intros Hnd H1 H2; [destruct H1 |].
  cbn [app] in Hnd. apply NoDup_cons_iff in Hnd. destruct Hnd as [Hna Hnd].
  destruct H1 as [-> | H1]; [| now apply IH].
  apply Hna. apply in_app_iff. auto.
Qed.

(* ===================================================================== *)
(** ** Union-Find: [find] *)
(* ===================================================================== *)

Section FindTheory.

Lemma chain_fun rep e r d :
  chain rep e r d -> forall r' d', chain rep e r' d' -> r = r' /\ d = d'.
Proof.
  induction 1 as [r Hr | e r d He Hc IH]; intros r' d' H'.
  - inversion H'; subst; [auto | lia].
  - inversion H'; subst; [lia |].
    destruct (IH _ _ H0) as [-> ->]. auto.
Qed.

Lemma root_fun rep e r r' : root rep e r -> root rep e r' -> r = r'.
Proof. intros [d H] [d' H']. now destruct (chain_fun _ _ _ _ H _ _ H'). Qed.

Lemma chain_root_cell rep e r d : chain rep e r d -> rep r <= 0.
Proof. induction 1; auto. Qed.

Lemma chain_in_range n rep e r d :
  wf n rep -> 1 <= e <= n -> chain rep e r d -> 1 <= r <= n.
Proof.
  intros Hwf He Hc. induction Hc as [r Hr | e r d Hpos Hc IH]; [assumption |].
  apply IH. now apply (Hwf e He).
Qed.

Lemma root_in_range n rep e r :
  wf n rep -> 1 <= e <= n -> root rep e r -> 1 <= r <= n.
Proof. intros Hwf He [d Hc]. eauto using chain_in_range. Qed.

Lemma find_root_chain rep e r d :
  chain rep e r d -> forall fuel, (d < fuel)%nat -> find_root fuel rep e = Some r.
Proof.
  induction 1 as [r Hr | e r d He Hc IH]; intros [| f] Hf; try lia; simpl.
  - destruct (Z.gtb_spec (rep r) 0); [lia | reflexivity].
  - destruct (Z.gtb_spec (rep e) 0); [| lia]. apply IH. lia.
Qed.

(** One write of the path compression: re-parenting [t] to its own root
    keeps every root and makes no chain longer. *)
Lemma chain_upd_to_root rep t r dt :
  0 < rep t -> chain rep t r dt -> 0 < r ->
  forall x rx dx, chain rep x rx dx ->
    exists dx', (dx' <= dx)%nat /\ chain (upd rep t r) x rx dx'.
Proof.
  intros Ht Hct Hr x rx dx Hc.
  assert (Hrt : r <> t) by (apply chain_root_cell in Hct; intros ->; lia).
  induction Hc as [rx Hrx | x rx d Hx Hc (d' & Hd' & IH)].
  - exists O. split; [lia |]. constructor.
    rewrite upd_neq; [assumption | intros ->; lia].
  - destruct (Z.eq_dec x t) as [-> | Hxt].
    + destruct (chain_fun _ _ _ _ Hct _ _ (chain_step _ _ _ _ Hx Hc)) as [<- _].
      exists 1%nat. split; [lia |].
      apply chain_step; rewrite upd_eq; [assumption |].
      constructor. rewrite upd_neq by assumption.
      eapply chain_root_cell; eauto.
    + exists (S d'). split; [lia |].
      apply chain_step; rewrite upd_neq by assumption; assumption.
Qed.

Lemma compress_path_spec r fuel : 0 < r ->
  forall d rep elem, chain rep elem r d -> (d < fuel)%nat ->
  exists rep', compress_path fuel rep elem r = Some rep' /\
    (forall x rx dx, chain rep x rx dx ->
       exists dx', (dx' <= dx)%nat /\ chain rep' x rx dx') /\
    (forall x, rep x <= 0 -> rep' x = rep x) /\
    (forall x, rep' x = rep x \/ (0 < rep x /\ rep' x = r)).
Proof.
  intros Hr. induction fuel as [| f IH]; intros d rep elem Hc Hf; [lia |].
  simpl. inversion Hc; subst.
  - destruct (Z.gtb_spec (rep r) 0); [lia |].
    exists rep. repeat split; eauto.
  - destruct (Z.gtb_spec (rep elem) 0); [| lia].
    destruct (chain_upd_to_root rep elem r _ H Hc Hr _ _ _ H0) as (d1 & Hd1 & Hc1).
    destruct (IH d1 (upd rep elem r) (rep elem) Hc1 ltac:(lia))
      as (rep' & Hrun & Hkeep & Hcells & Hchg).
    exists rep'. split; [assumption |]. repeat split.
    + intros x rx dx Hx.
      destruct (chain_upd_to_root rep elem r _ H Hc Hr _ _ _ Hx) as (d2 & Hd2 & Hc2).
      destruct (Hkeep _ _ _ Hc2) as (d3 & Hd3 & Hc3).
      exists d3. split; [lia | assumption].
    + intros x Hx. rewrite Hcells; rewrite upd_neq; auto; intros ->; lia.
    + intros x. destruct (Z.eq_dec x elem) as [-> | Hne].
      * right. split; [assumption |].
        destruct (Hchg elem) as [E | [_ E]]; [| assumption].
        now rewrite E, upd_eq.
      * destruct (Hchg x) as [E | [E1 E2]].
        -- left. now rewrite E, upd_neq.
        -- right. rewrite upd_neq in E1 by assumption. auto.
Qed.

(** Pigeonhole: a parent chain inside [1..n] visits pairwise distinct
    elements, so it is shorter than [n]. *)
Lemma chain_path n rep e r d :
  wf n rep -> 1 <= e <= n -> chain rep e r d ->
  exists l, length l = S d /\ NoDup l /\
    forall x, In x l -> 1 <= x <= n /\ exists dx, (dx <= d)%nat /\ chain rep x r dx.
Proof.
  intros Hwf He Hc. induction Hc as [r Hr | e r d Hpos Hc IH].
  - exists [r]. repeat split; simpl in *.
    + constructor; [intros [] | constructor].
    + destruct H; [subst; lia | contradiction].
    + destruct H; [subst; lia | contradiction].
    + destruct H; [subst | contradiction].
      exists O. split; [lia | now constructor].
  - destruct IH as (l & Hlen & Hnd & Hl); [now apply (Hwf e He) |].
    exists (e :: l). repeat split; simpl.
    + now rewrite Hlen.
    + constructor; [| assumption]. intros Hin.
      destruct (Hl _ Hin) as (_ & dx & Hdx & Hcx).
      destruct (chain_fun _ _ _ _ Hcx _ _ (chain_step _ _ _ _ Hpos Hc)). lia.
    + destruct H; [subst; lia | now apply Hl].
    + destruct H; [subst; lia | now apply Hl].
    + destruct H as [<- | Hin].
      * exists (S d). split; [lia | now constructor].
      * destruct (Hl _ Hin) as (_ & dx & Hdx & Hcx). exists dx. split; [lia | assumption].
Qed.

Lemma chain_depth_bound n rep e r d :
  wf n rep -> 1 <= e <= n -> chain rep e r d -> (d < Z.to_nat n)%nat.
Proof.
  intros Hwf He Hc.
  destruct (chain_path n rep e r d Hwf He Hc) as (l & Hlen & Hnd & Hl).
  assert (Hle : (length l <= length (range 1 n))%nat).
  { apply NoDup_incl_length; [assumption |].
    intros x Hx. apply in_range. now apply Hl. }
  rewrite range_length in Hle. lia.
Qed.

Lemma find_spec n rep e fuel :
  wf n rep -> 1 <= e <= n -> (Z.to_nat n <= fuel)%nat ->
  exists r rep',
    find fuel e rep = Some (r, rep') /\
    root rep e r /\ 1 <= r <= n /\
    wf n rep' /\
    (forall x rx, 1 <= x <= n -> (root rep' x rx <-> root rep x rx)) /\
    (forall x, rep x <= 0 -> rep' x = rep x) /\
    (forall x, rep' x = rep x \/ (0 < rep x /\ rep' x = r)).
Proof.
  intros Hwf He Hfuel.
  destruct (Hwf e He) as (_ & r & d & Hc).
  pose proof (chain_depth_bound _ _ _ _ _ Hwf He Hc) as Hd.
  pose proof (chain_in_range _ _ _ _ _ Hwf He Hc) as Hr.
  destruct (compress_path_spec r fuel ltac:(lia) d rep e Hc ltac:(lia))
    as (rep' & Hrun & Hkeep & Hcells & Hchg).
  assert (Hfwd : forall x rx, root rep x rx -> root rep' x rx).
  { intros x rx [dx Hx]. destruct (Hkeep _ _ _ Hx) as (dx' & _ & Hx'). now exists dx'. }
  exists r, rep'. unfold find.
  rewrite (find_root_chain _ _ _ _ Hc) by lia. simpl. rewrite Hrun. simpl.
  split; [reflexivity |]. split; [now exists d |]. split; [lia |].
  split; [| split; [| split; [assumption | assumption]]].
  - intros x Hx. split.
    + destruct (Hchg x) as [E | [E1 E2]]; rewrite ?E, ?E2; [apply (Hwf x Hx) | lia].
    + destruct (Hwf x Hx) as (_ & r0 & Hr0). exists r0. now apply Hfwd.
  - intros x rx Hx. split; [| apply Hfwd].
    intros Hx'. destruct (Hwf x Hx) as (_ & r0 & Hr0).
    now rewrite (root_fun _ _ _ _ Hx' (Hfwd _ _ Hr0)).
Qed.

End FindTheory.

(* ===================================================================== *)
(** ** Union-Find: [Union] *)
(* ===================================================================== *)

Section UnionTheory.

Lemma Union_spec n rep a b fuel :
  wf n rep -> 1 <= a <= n -> 1 <= b <= n -> (Z.to_nat n <= fuel)%nat ->
  exists i j g,
    root rep a i /\ root rep b j /\ 1 <= i <= n /\ 1 <= j <= n /\
    wf n g /\
    (forall x rx, 1 <= x <= n -> (root g x rx <-> root rep x rx)) /\
    (forall x, rep x <= 0 -> g x = rep x) /\
    Union fuel a b rep =
      Some (if i =? j then g
            else if rep j >? rep i
                 then upd (upd g i (rep i + (rep j - 1))) j i
                 else upd (upd g j (rep j + (rep i - 1))) i j).
Proof.
  intros Hwf Ha Hb Hfuel.
  destruct (find_spec n rep a fuel Hwf Ha Hfuel)
    as (i & g1 & Hf1 & Hri & Hi & Hwf1 & Hroots1 & Hcells1 & _).
  destruct (find_spec n g1 b fuel Hwf1 Hb Hfuel)
    as (j & g2 & Hf2 & Hrj & Hj & Hwf2 & Hroots2 & Hcells2 & _).
  assert (Hrj' : root rep b j) by now apply Hroots1.
  assert (Hci : rep i <= 0) by (destruct Hri as [d Hd]; eapply chain_root_cell; eauto).
  assert (Hcj : rep j <= 0) by (destruct Hrj' as [d Hd]; eapply chain_root_cell; eauto).
  assert (Ei : g2 i = rep i) by (rewrite Hcells2, Hcells1; auto; rewrite Hcells1; auto).
  assert (Ej : g2 j = rep j) by (rewrite Hcells2, Hcells1; auto; rewrite Hcells1; auto).
  exists i, j, g2. repeat (split; [first [assumption | lia] |]).
  split; [| split].
  - intros x rx Hx. rewrite Hroots2, Hroots1 by assumption. reflexivity.
  - intros x Hx. rewrite Hcells2, Hcells1; auto. rewrite Hcells1; auto.
  - unfold Union. rewrite Hf1. simpl. rewrite Hf2. simpl.
    rewrite Ei, Ej. destruct (i =? j); simpl; [reflexivity |].
    destruct (rep j >? rep i); reflexivity.
Qed.

(** Attaching the root [j] under the root [i]: members of [j]'s tree move
    to [i], every other element keeps its root. *)
Lemma chain_attach g i j w :
  g i <= 0 -> g j <= 0 -> i <> j -> 0 < i -> w <= 0 ->
  forall x rx d, chain g x rx d ->
    root (upd (upd g i w) j i) x (if rx =? j then i else rx).
Proof.
  intros Hi Hj Hij Hpos Hw x rx d Hc.
  induction Hc as [rx Hrx | x rx d Hx Hc IH].
  - destruct (Z.eqb_spec rx j) as [-> | Hne].
    + exists 1%nat. apply chain_step; rewrite upd_eq; [assumption |].
      constructor. rewrite upd_neq, upd_eq by assumption. assumption.
    + exists O. constructor. rewrite upd_neq by assumption.
      destruct (Z.eq_dec rx i) as [-> | Hne']; [now rewrite upd_eq |].
      now rewrite upd_neq.
  - destruct IH as [d' IH]. exists (S d').
    assert (x <> i) by (intros ->; lia).
    assert (x <> j) by (intros ->; lia).
    apply chain_step; rewrite !upd_neq by assumption; assumption.
Qed.

End UnionTheory.

(* ===================================================================== *)
(** ** dead.c: the connectivity matrix *)
(* ===================================================================== *)

Section Connectivity.

Variable dfa : automaton_t.
Let n := nstates dfa.

Lemma clear_row_other src l : forall c a b,
  a <> src -> fold_left (fun c dest => upd2 c src dest FALSE) l c a b = c a b.
Proof.
  induction l as [| x l IH]; intros c a b H; simpl; [reflexivity |].
  rewrite IH by assumption. apply upd2_neq. auto.
Qed.

Lemma clear_row_in src l : forall c b,
  In b l \/ c src b = 0 ->
  fold_left (fun c dest => upd2 c src dest FALSE) l c src b = 0.
Proof.
  induction l as [| x l IH]; intros c b H; simpl.
  - destruct H; [contradiction | assumption].
  - apply IH. destruct (Z.eq_dec b x) as [-> | Hne].
    + right. apply upd2_eq.
    + destruct H as [[E | H] | H]; [congruence | auto |].
      right. rewrite upd2_neq; auto.
Qed.

Lemma set_row_other src l : forall c a b,
  a <> src ->
  fold_left (fun c i => let dest := mat dfa src i in
                        if dest >? 0 then upd2 c src dest TRUE else c) l c a b
  = c a b.
Proof.
  induction l as [| x l IH]; intros c a b H; simpl; [reflexivity |].
  rewrite IH by assumption.
  destruct (mat dfa src x >? 0); [apply upd2_neq; auto | reflexivity].
Qed.

Lemma set_row_spec src l : forall c b, 0 < b ->
  (fold_left (fun c i => let dest := mat dfa src i in
                         if dest >? 0 then upd2 c src dest TRUE else c) l c src b <> 0
   <-> c src b <> 0 \/ exists i, In i l /\ mat dfa src i = b).
Proof.
  induction l as [| x l IH]; intros c b Hb; simpl.
  - split; [auto | intros [H | (i & [] & _)]; assumption].
  - rewrite IH by assumption. clear IH.
    destruct (Z.gtb_spec (mat dfa src x) 0) as [Hx | Hx].
    + destruct (Z.eq_dec (mat dfa src x) b) as [E | Hne].
      * rewrite E, upd2_eq. split; [| intros _; left; discriminate].
        intros _. right. exists x. auto.
      * rewrite upd2_neq by auto. split.
        -- intros [H | (i & Hi & E)]; [auto |]. right. exists i. auto.
        -- intros [H | (i & [-> | Hi] & E)]; [auto | congruence |].
           right. exists i. auto.
    + split.
      * intros [H | (i & Hi & E)]; [auto |]. right. exists i. auto.
      * intros [H | (i & [-> | Hi] & E)]; [auto | lia |]. right. exists i. auto.
Qed.

Lemma init_row_other c src a b : a <> src -> init_row dfa c src a b = c a b.
Proof.
  intros H. unfold init_row. rewrite set_row_other by assumption.
  rewrite upd2_neq by auto. now apply clear_row_other.
Qed.

Lemma init_row_spec c src b : 1 <= b <= n ->
  (init_row dfa c src src b <> 0 <-> b = src \/ step dfa src b).
Proof.
  intros Hb. unfold init_row. rewrite set_row_spec by lia.
  destruct (Z.eq_dec b src) as [-> | Hne].
  - rewrite upd2_eq. split; [auto | intros _; left; discriminate].
  - rewrite upd2_neq by auto.
    rewrite clear_row_in by (left; apply in_range; lia).
    split.
    + intros [H | (i & Hi & E)]; [congruence |]. right.
      exists i. apply in_range in Hi. repeat split; try lia; assumption.
    + intros [H | (i & Hi & E & _)]; [congruence |]. right.
      exists i. split; [now apply in_range | assumption].
Qed.

Lemma init_connections_fold l : forall c a b, 1 <= b <= n ->
  In a l \/ (c a b <> 0 <-> a = b \/ step dfa a b) ->
  (fold_left (init_row dfa) l c a b <> 0 <-> a = b \/ step dfa a b).
Proof.
  induction l as [| x l IH]; intros c a b Hb H; simpl.
  - destruct H; [contradiction | assumption].
  - apply IH; [assumption |].
    destruct (Z.eq_dec a x) as [-> | Hne].
    + right. rewrite init_row_spec by assumption.
      split; (intros [E | E]; [left; congruence | now right]).
    + destruct H as [[E | H] | H]; [congruence | auto |].
      right. now rewrite init_row_other.
Qed.

Lemma init_connections_spec c a b :
  1 <= a <= n -> 1 <= b <= n ->
  (init_connections (mat dfa) n (nab dfa) c a b <> 0 <-> a = b \/ step dfa a b).
Proof.
  intros Ha Hb. apply (init_connections_fold (range 1 n) c a b Hb).
  left. now apply in_range.
Qed.

(** The [k] loop: row [j] absorbs row [i]. *)
Lemma closure_row_fold i j l : forall c0 a b,
  (fold_left (fun c k => if negb (c i k =? 0) then upd2 c j k TRUE else c) l c0 a b <> 0
   <-> c0 a b <> 0 \/ (a = j /\ In b l /\ c0 i b <> 0)).
Proof.
  induction l as [| k l IH] using rev_ind; intros c0 a b; simpl.
  - split; [auto | intros [H | (_ & [] & _)]; assumption].
  - rewrite fold_left_app. simpl.
    set (c := fold_left _ l c0) in *.
    assert (Hg : c i k <> 0 <-> c0 i k <> 0).
    { unfold c. rewrite IH. split; [intros [H | (_ & _ & H)]; assumption | auto]. }
    destruct (Z.eqb_spec (c i k) 0) as [E | E]; simpl.
    + unfold c. rewrite IH. split.
      * intros [H | (Ha & Hb & H)]; [auto |]. right. rewrite in_app_iff. auto.
      * intros [H | (Ha & Hb & H)]; [auto |]. apply in_app_iff in Hb.
        destruct Hb as [Hb | [<- | []]]; [auto |].
        exfalso. exact (proj2 Hg H E).
    + destruct (Z.eq_dec a j) as [-> | Ha]; [destruct (Z.eq_dec b k) as [-> | Hb] |].
      * rewrite upd2_eq. split; [| discriminate]. intros _. right.
        rewrite in_app_iff. simpl. apply Hg in E. auto.
      * rewrite upd2_neq by auto. unfold c. rewrite IH. split.
        -- intros [H | (Ha & Hb' & H)]; [auto |]. right. rewrite in_app_iff. auto.
        -- intros [H | (Ha & Hb' & H)]; [auto |]. apply in_app_iff in Hb'.
           destruct Hb' as [Hb' | [<- | []]]; [auto | congruence].
      * rewrite upd2_neq by auto. unfold c. rewrite IH. split.
        -- intros [H | (Ha' & _)]; [auto | congruence].
        -- intros [H | (Ha' & _)]; [auto | congruence].
Qed.

Lemma closure_row_spec i j c a b :
  closure_row n i j c a b <> 0
  <-> c a b <> 0 \/ (a = j /\ 1 <= b <= n /\ c i b <> 0).
Proof. unfold closure_row. rewrite closure_row_fold, in_range. reflexivity. Qed.

(** The [j] loop for a fixed pivot [i]. *)
Lemma closure_pivot_fold i l : forall c0 a b,
  (fold_left (fun c j => if negb (c j i =? 0) then closure_row n i j c else c) l c0 a b <> 0
   <-> c0 a b <> 0 \/ (In a l /\ 1 <= b <= n /\ c0 a i <> 0 /\ c0 i b <> 0)).
Proof.
  induction l as [| j l IH] using rev_ind; intros c0 a b; simpl.
  - split; [auto | intros [H | ([] & _)]; assumption].
  - rewrite fold_left_app. simpl.
    set (c := fold_left _ l c0) in *.
    assert (Hg : c j i <> 0 <-> c0 j i <> 0).
    { unfold c. rewrite IH. split; [intros [H | (_ & _ & H & _)]; assumption | auto]. }
    assert (Hrow : c i b <> 0 <-> c0 i b <> 0).
    { unfold c. rewrite IH. split; [intros [H | (_ & _ & _ & H)]; assumption | auto]. }
    destruct (Z.eqb_spec (c j i) 0) as [E | E]; simpl.
    + unfold c. rewrite IH. split.
      * intros [H | (Ha & Hb & H)]; [auto |]. right. rewrite in_app_iff. auto.
      * intros [H | (Ha & Hb & H1 & H2)]; [auto |]. apply in_app_iff in Ha.
        destruct Ha as [Ha | [<- | []]]; [auto |].
        exfalso. exact (proj2 Hg H1 E).
    + rewrite closure_row_spec, Hrow. unfold c. rewrite IH. split.
      * intros [[H | (Ha & Hb & H)] | (-> & Hb & H)]; [auto | |].
        -- right. rewrite in_app_iff. auto.
        -- right. rewrite in_app_iff. simpl. apply Hg in E. auto.
      * intros [H | (Ha & Hb & H1 & H2)]; [auto |]. apply in_app_iff in Ha.
        destruct Ha as [Ha | [<- | []]]; [left; right; auto | right; auto].
Qed.

Lemma closure_pivot_spec i c a b :
  closure_pivot n i c a b <> 0
  <-> c a b <> 0 \/ (1 <= a <= n /\ 1 <= b <= n /\ c a i <> 0 /\ c i b <> 0).
Proof. unfold closure_pivot. rewrite closure_pivot_fold, in_range. reflexivity. Qed.

Lemma pivots_mono l c a b : c a b <> 0 -> pivots n l c a b <> 0.
Proof.
  revert c. induction l as [| i l IH]; intros c H; simpl; [assumption |].
  apply IH. apply closure_pivot_spec. auto.
Qed.

(** After the pivots [l], connections compose through every pivot of [l]. *)
Lemma pivots_trans l c :
  (forall x, In x l -> 1 <= x <= n) ->
  forall p a b,
  In p l -> 1 <= a <= n -> 1 <= b <= n ->
  pivots n l c a p <> 0 -> pivots n l c p b <> 0 -> pivots n l c a b <> 0.
Proof.
  induction l as [| m l IH] using rev_ind; intros Hl p a b Hp Ha Hb; [destruct Hp |].
  assert (Hm : 1 <= m <= n) by (apply Hl, in_app_iff; simpl; auto).
  assert (Hl' : forall x, In x l -> 1 <= x <= n)
    by (intros x Hx; apply Hl, in_app_iff; auto).
  specialize (IH Hl').
  unfold pivots in *. rewrite fold_left_app. simpl.
  set (cl := fold_left _ l c) in *.
  rewrite !closure_pivot_spec. apply in_app_iff in Hp.
  destruct (Z.eq_dec p m) as [-> | Hne].
  - intros [H1 | (_ & _ & H1 & _)] [H2 | (_ & _ & _ & H2)]; right; auto.
  - destruct Hp as [Hp | [E | []]]; [| congruence].
    intros [H1 | (_ & _ & H1 & H1')] [H2 | (_ & _ & H2 & H2')].
    + left. eapply IH; eauto.
    + right. repeat split; try assumption; try lia. eapply IH; eauto.
    + right. repeat split; try assumption; try lia. eapply IH; eauto.
    + right. repeat split; try assumption; lia.
Qed.

Lemma pivots_sound l : forall c,
  (forall a b, 1 <= a <= n -> 1 <= b <= n -> c a b <> 0 -> reach dfa a b) ->
  (forall x, In x l -> 1 <= x <= n) ->
  forall a b, 1 <= a <= n -> 1 <= b <= n -> pivots n l c a b <> 0 -> reach dfa a b.
Proof.
  induction l as [| i l IH]; intros c Hc Hl a b Ha Hb; simpl; [now apply Hc |].
  apply IH; try assumption; [| intros x Hx; apply Hl; now right].
  clear a b Ha Hb. intros a b Ha Hb H.
  assert (Hi : 1 <= i <= n) by (apply Hl; now left).
  apply closure_pivot_spec in H. destruct H as [H | (_ & _ & H1 & H2)].
  - now apply Hc.
  - apply rt_trans with i; now apply Hc.
Qed.

Lemma reach_in_range a b :
  trans_ok dfa -> 1 <= a <= n -> reach dfa a b -> 1 <= b <= n.
Proof.
  intros Hok Ha H. apply clos_rt_rt1n in H.
  induction H as [a | a x b (j & Hj & E & Hx) _ IH]; [assumption |].
  apply IH. specialize (Hok a j Ha Hj). fold n in Hok. lia.
Qed.

Lemma t_closure_spec c a b :
  trans_ok dfa -> 1 <= a <= n -> 1 <= b <= n ->
  (t_closure n (init_connections (mat dfa) n (nab dfa) c) a b <> 0
   <-> reach dfa a b).
Proof.
  intros Hok Ha Hb.
  set (c0 := init_connections (mat dfa) n (nab dfa) c).
  change (t_closure n c0) with (pivots n (range 1 n) c0).
  assert (Hr : forall x, In x (range 1 n) -> 1 <= x <= n)
    by (intros x; apply in_range).
  split.
  - apply pivots_sound; try assumption.
    intros x y Hx Hy H. apply init_connections_spec in H; try assumption.
    destruct H as [-> | H]; [apply rt_refl | now apply rt_step].
  - intros H. apply clos_rt_rt1n in H.
    induction H as [a | a x b Hs Hrt IH].
    + apply pivots_mono. apply init_connections_spec; auto.
    + assert (Hx : 1 <= x <= n).
      { apply (reach_in_range a x Hok Ha). now apply rt_step. }
      apply (pivots_trans _ _ Hr x); try assumption.
      * now apply in_range.
      * apply pivots_mono. apply init_connections_spec; auto.
      * now apply IH.
Qed.

End Connectivity.

(* ===================================================================== *)
(** ** dead.c: marking *)
(* ===================================================================== *)

Section DeadStates.

Lemma attr_A_neq_D : attr_A <> attr_D.
Proof. discriminate. Qed.

Lemma mark_unreachable_fold init (connected : Z -> Z -> Z) l : forall attrib s,
  fold_left (fun a i => if connected init i =? 0 then upd a i attr_D else a) l attrib s
  = if existsb (Z.eqb s) l && (connected init s =? 0) then attr_D else attrib s.
Proof.
  induction l as [| x l IH]; intros attrib s; simpl; [reflexivity |].
  rewrite IH. destruct (existsb (Z.eqb s) l) eqn:Ex; simpl.
  - rewrite orb_true_r. simpl.
    destruct (connected init s =? 0) eqn:Es; [reflexivity |].
    destruct (connected init x =? 0) eqn:Ec; [| reflexivity].
    apply upd_neq. intros ->. congruence.
  - rewrite orb_false_r. destruct (Z.eqb_spec s x) as [-> | Hne]; simpl.
    + destruct (connected init x =? 0); [apply upd_eq | reflexivity].
    + destruct (connected init x =? 0); [now apply upd_neq | reflexivity].
Qed.

Lemma existsb_range lo hi s :
  existsb (Z.eqb s) (range lo hi) = (lo <=? s) && (s <=? hi).
Proof.
  apply eq_true_iff_eq. rewrite existsb_exists, andb_true_iff, !Z.leb_le.
  split.
  - intros (x & Hx & E). apply Z.eqb_eq in E. subst. now apply in_range in Hx.
  - intros H. exists s. split; [now apply in_range | apply Z.eqb_refl].
Qed.

Lemma mark_unreachable_spec n init connected attrib s :
  mark_unreachable n init connected attrib s
  = if (1 <=? s) && (s <=? n) && (connected init s =? 0) then attr_D else attrib s.
Proof. unfold mark_unreachable. now rewrite mark_unreachable_fold, existsb_range. Qed.

Lemma scan_accept_total accept connected i k :
  0 <= k -> accept k = 0 ->
  forall fuel j, 0 <= j <= k -> (Z.to_nat (k - j) < fuel)%nat ->
  exists v, scan_accept fuel accept connected i j = Some v.
Proof.
  intros Hk Hz. induction fuel as [| f IH]; intros j Hj Hf; [lia |].
  simpl. destruct (Z.eqb_spec (accept j) 0) as [E | E]; simpl; [eauto |].
  destruct (connected i (accept j) =? 0); simpl; [| eauto].
  assert (j <> k) by congruence.
  apply IH; lia.
Qed.

Lemma mark_not_accepting_fold fuel accept connected k :
  0 <= k -> accept k = 0 -> (Z.to_nat k < fuel)%nat ->
  forall l attrib,
  exists attrib',
    for_each l
      (fun i a =>
         let attrib := a i in
         if Ascii.eqb attrib attr_D || Ascii.eqb attrib attr_A then Some a
         else
           accept_st <- scan_accept fuel accept connected i 0 ;;
           if accept_st =? 0 then Some (upd a i attr_D) else Some a)
      attrib = Some attrib' /\
    (forall s, attrib' s = attrib s \/
               (attrib' s = attr_D /\
                scan_accept fuel accept connected s 0 = Some 0)) /\
    (forall s, attrib s = attr_A \/ attrib s = attr_D -> attrib' s = attrib s).
Proof.
  intros Hk Hz Hf. induction l as [| x l IH]; intros attrib; simpl.
  - exists attrib. auto.
  - assert (Hstep : exists a1,
      (if Ascii.eqb (attrib x) attr_D || Ascii.eqb (attrib x) attr_A then Some attrib
       else accept_st <- scan_accept fuel accept connected x 0 ;;
            if accept_st =? 0 then Some (upd attrib x attr_D) else Some attrib)
      = Some a1 /\
      (forall s, a1 s = attrib s \/
                 (a1 s = attr_D /\
                  scan_accept fuel accept connected s 0 = Some 0)) /\
      (forall s, attrib s = attr_A \/ attrib s = attr_D -> a1 s = attrib s)).
    { destruct (Ascii.eqb_spec (attrib x) attr_D) as [ED | ED]; simpl;
        [exists attrib; auto |].
      destruct (Ascii.eqb_spec (attrib x) attr_A) as [EA | EA]; simpl;
        [exists attrib; auto |].
      destruct (scan_accept_total accept connected x k Hk Hz fuel 0) as [v Hv];
        [lia | lia |].
      rewrite Hv. simpl. destruct (Z.eqb_spec v 0) as [-> |]; [| exists attrib; auto].
      exists (upd attrib x attr_D). split; [reflexivity |]. split.
      - intros s. destruct (Z.eq_dec s x) as [-> | Hne];
          [right; split; [apply upd_eq | exact Hv] | left; now apply upd_neq].
      - intros s Hs. apply upd_neq. intros ->. destruct Hs; contradiction. }
    destruct Hstep as (a1 & -> & H1 & H2).
    destruct (IH a1) as (a2 & Hrun & H3 & H4).
    exists a2. split; [exact Hrun |]. split.
    + intros s. destruct (H3 s) as [E | E]; [rewrite E; apply H1 | auto].
    + intros s Hs. rewrite H4; rewrite H2; auto.
Qed.

Lemma find_dead_states_spec fuel dfa c0 k :
  0 <= k -> accept dfa k = 0 -> (Z.to_nat k < fuel)%nat ->
  let connected :=
    t_closure (nstates dfa)
      (init_connections (mat dfa) (nstates dfa) (nab dfa) c0) in
  exists attrib',
    find_dead_states fuel dfa c0 =
      Some (mk_automaton (nstates dfa) (nab dfa) (mat dfa) (init_state dfa)
              (accept dfa) attrib', connected) /\
    (forall s, attrib' s = attr_A <->
       state_attrib dfa s = attr_A /\
       ~ (1 <= s <= nstates dfa /\ connected (init_state dfa) s = 0)) /\
    (forall s, state_attrib dfa s = attr_D -> attrib' s = attr_D) /\
    (forall s, 1 <= s <= nstates dfa -> connected (init_state dfa) s = 0 ->
       attrib' s = attr_D) /\
    (forall s, attrib' s = attr_D ->
       state_attrib dfa s = attr_D \/
       (1 <= s <= nstates dfa /\ connected (init_state dfa) s = 0) \/
       scan_accept fuel (accept dfa) connected s 0 = Some 0).
Proof.
  intros Hk Hz Hf connected.
  destruct (mark_not_accepting_fold fuel (accept dfa) connected k Hk Hz Hf
              (range 1 (nstates dfa))
              (mark_unreachable (nstates dfa) (init_state dfa) connected (state_attrib dfa)))
    as (attrib' & Hrun & Hor & Hkeep).
  exists attrib'. split; [| split; [| split; [| split]]].
  - unfold find_dead_states, mark_not_accepting. subst connected.
    cbv zeta in Hrun |- *. rewrite Hrun. reflexivity.
  - intros s. pose proof (mark_unreachable_spec (nstates dfa) (init_state dfa)
                            connected (state_attrib dfa) s) as Hm.
    destruct ((1 <=? s) && (s <=? nstates dfa) && (connected (init_state dfa) s =? 0)) eqn:Eg.
    + apply andb_true_iff in Eg. destruct Eg as [Eg1 Eg2].
      apply andb_true_iff in Eg1. destruct Eg1 as [Eg0 Eg1].
      apply Z.leb_le in Eg0, Eg1. apply Z.eqb_eq in Eg2.
      rewrite (Hkeep s) by (right; exact Hm). rewrite Hm. split.
      * intros E. symmetry in E. now apply attr_A_neq_D in E.
      * intros [_ H]. exfalso. apply H. auto.
    + assert (Hn : ~ (1 <= s <= nstates dfa /\ connected (init_state dfa) s = 0)).
      { intros [[H1 H2] H3]. apply Z.leb_le in H1, H2. apply Z.eqb_eq in H3.
        rewrite H1, H2, H3 in Eg. discriminate. }
      split.
      * intros E. split; [| assumption].
        destruct (Hor s) as [E' | [E' _]];
          [congruence | rewrite E' in E; symmetry in E; now apply attr_A_neq_D in E].
      * intros [E _]. rewrite Hkeep; rewrite Hm; auto.
  - intros s Hs.
    pose proof (mark_unreachable_spec (nstates dfa) (init_state dfa)
                  connected (state_attrib dfa) s) as Hm.
    assert (E : mark_unreachable (nstates dfa) (init_state dfa) connected
                  (state_attrib dfa) s = attr_D).
    { rewrite Hm. destruct (_ && _); [reflexivity | assumption]. }
    rewrite Hkeep; auto.
  - intros s Hs Hc.
    pose proof (mark_unreachable_spec (nstates dfa) (init_state dfa)
                  connected (state_attrib dfa) s) as Hm.
    destruct (Z.leb_spec 1 s); [| lia].
    destruct (Z.leb_spec s (nstates dfa)); [| lia].
    rewrite Hc in Hm. cbn in Hm. rewrite Hkeep; auto.
  - intros s Hs. destruct (Hor s) as [E | [_ E]]; [| auto].
    rewrite E, mark_unreachable_spec in Hs.
    destruct ((1 <=? s) && (s <=? nstates dfa) && (connected (init_state dfa) s =? 0))
      eqn:Eg; [| auto].
    right. left.
    apply andb_true_iff in Eg. destruct Eg as [Eg1 Eg2].
    apply andb_true_iff in Eg1. destruct Eg1 as [Eg0 Eg1].
    apply Z.leb_le in Eg0, Eg1. apply Z.eqb_eq in Eg2. auto.
Qed.

Lemma scan_accept_hit (accept : array Z) (connected : Z -> Z -> Z) i k :
  connected i (accept k) <> 0 ->
  forall fuel j, j <= k -> (forall x, j <= x <= k -> accept x <> 0) ->
  (Z.to_nat (k - j) < fuel)%nat ->
  exists v, scan_accept fuel accept connected i j = Some v /\ v <> 0.
Proof.
  intros Hc. induction fuel as [| f IH]; intros j Hj Hnz Hf; [lia |].
  cbn [scan_accept].
  destruct (Z.eqb_spec (accept j) 0) as [E | E]; [exfalso; apply (Hnz j); [lia | assumption] |].
  cbn [negb].
  destruct (Z.eqb_spec (connected i (accept j)) 0) as [Ec | Ec]; cbn [negb]; [| eauto].
  assert (j <> k) by (intros ->; contradiction).
  apply IH; [lia | intros x Hx; apply Hnz; lia | lia].
Qed.

End DeadStates.

(* ===================================================================== *)
(** ** Loops over a range *)
(* ===================================================================== *)

Section Loops.

Context {S : Type}.

Lemma for_each_app (l1 l2 : list Z) (body : Z -> S -> option S) s :
  for_each (l1 ++ l2) body s = s' <- for_each l1 body s ;; for_each l2 body s'.
Proof.
  revert s. induction l1 as [| x l1 IH]; intros s; simpl; [reflexivity |].
  destruct (body x s); simpl; [apply IH | reflexivity].
Qed.

(** Invariant rule for [for (i = lo; i <= hi; i++)]: [I k s] is the state
    after the iteration [k]. *)
Lemma for_each_range (I : Z -> S -> Prop) (body : Z -> S -> option S) lo :
  forall hi s0, lo - 1 <= hi ->
  I (lo - 1) s0 ->
  (forall i s, lo <= i <= hi -> I (i - 1) s ->
     exists s', body i s = Some s' /\ I i s') ->
  exists s', for_each (range lo hi) body s0 = Some s' /\ I hi s'.
Proof.
  intros hi s0 Hhi H0 Hstep.
  assert (G : forall k, (lo - 1 <= lo - 1 + Z.of_nat k <= hi) ->
            exists s', for_each (range lo (lo - 1 + Z.of_nat k)) body s0 = Some s' /\
                       I (lo - 1 + Z.of_nat k) s').
  { induction k as [| k IH]; intros Hk.
    - replace (lo - 1 + Z.of_nat 0) with (lo - 1) by lia.
      rewrite range_empty by lia. simpl. exists s0. auto.
    - destruct IH as (s1 & Hrun & HI); [lia |].
      rewrite range_snoc by lia.
      replace (lo - 1 + Z.of_nat (Datatypes.S k) - 1) with (lo - 1 + Z.of_nat k) by lia.
      rewrite for_each_app, Hrun. cbn [bind for_each].
      destruct (Hstep (lo - 1 + Z.of_nat (Datatypes.S k)) s1) as (s2 & Hb & HI2); [lia | |].
      + now replace (lo - 1 + Z.of_nat (Datatypes.S k) - 1) with (lo - 1 + Z.of_nat k) by lia.
      + rewrite Hb. cbn [bind]. eauto. }
  specialize (G (Z.to_nat (hi - (lo - 1)))).
  replace (lo - 1 + Z.of_nat (Z.to_nat (hi - (lo - 1)))) with hi in G by lia.
  apply G. lia.
Qed.

Lemma fold_left_range (I : Z -> S -> Prop) (body : S -> Z -> S) lo :
  forall hi s0, lo - 1 <= hi ->
  I (lo - 1) s0 ->
  (forall i s, lo <= i <= hi -> I (i - 1) s -> I i (body s i)) ->
  I hi (fold_left body (range lo hi) s0).
Proof.
  intros hi s0 Hhi H0 Hstep.
  assert (G : forall k, (lo - 1 <= lo - 1 + Z.of_nat k <= hi) ->
            I (lo - 1 + Z.of_nat k)
              (fold_left body (range lo (lo - 1 + Z.of_nat k)) s0)).
  { induction k as [| k IH]; intros Hk.
    - replace (lo - 1 + Z.of_nat 0) with (lo - 1) by lia.
      rewrite range_empty by lia. simpl. assumption.
    - rewrite range_snoc by lia. rewrite fold_left_app. cbn [fold_left].
      apply Hstep; [lia |].
      replace (lo - 1 + Z.of_nat (Datatypes.S k) - 1) with (lo - 1 + Z.of_nat k) by lia.
      apply IH. lia. }
  specialize (G (Z.to_nat (hi - (lo - 1)))).
  replace (lo - 1 + Z.of_nat (Z.to_nat (hi - (lo - 1)))) with hi in G by lia.
  apply G. lia.
Qed.

End Loops.

(* ===================================================================== *)
(** ** Forests of depth one *)
(* ===================================================================== *)

Section Flat.

Lemma find_flat fuel g e :
  (2 <= fuel)%nat -> (0 < g e -> g (g e) <= 0) ->
  find fuel e g = Some (cls g e, g).
Proof.
  intros Hf Hflat. destruct fuel as [| [| f]]; try lia.
  unfold find, cls. cbn [find_root compress_path].
  destruct (Z.gtb_spec (g e) 0) as [Hpos | Hneg].
  - specialize (Hflat Hpos).
    destruct (Z.gtb_spec (g (g e)) 0); [lia |]. cbn [bind].
    rewrite upd_same.
    destruct f; cbn [compress_path bind];
      destruct (Z.gtb_spec (g (g e)) 0); try lia; reflexivity.
  - cbn [bind]. destruct f; cbn [compress_path bind];
      destruct (Z.gtb_spec (g e) 0); try lia; reflexivity.
Qed.

Lemma CanonAt_ext v v' cl :
  (forall t, In t cl -> v' t = v t) -> CanonAt v cl -> CanonAt v' cl.
Proof.
  destruct cl as [| a [| b tl]]; simpl; intros H Hc; [exact I | |].
  - rewrite H; auto.
  - destruct Hc as (Ha & Hb & Ht). rewrite !H by auto.
    repeat split; try assumption. intros t Hin. rewrite H; auto.
Qed.

Lemma CanonAt_cls v cl x :
  (forall t, In t cl -> 0 < t) -> CanonAt v cl -> In x cl -> cls v x = croot cl.
Proof.
  intros Hpos Hc Hx. unfold cls.
  destruct cl as [| a [| b tl]]; simpl in *; [contradiction | |].
  - destruct Hx as [<- | []]. rewrite Hc. reflexivity.
  - destruct Hc as (Ha & Hb & Ht).
    assert (0 < b) by (apply Hpos; auto).
    destruct (Z.eq_dec x b) as [-> | Hne].
    + rewrite Hb. destruct (Z.gtb_spec (- Z.of_nat (S (length tl))) 0); [lia | reflexivity].
    + assert (Hv : v x = b).
      { destruct Hx as [<- | [E | Hx]]; [assumption | congruence | auto]. }
      rewrite Hv. destruct (Z.gtb_spec b 0); [reflexivity | lia].
Qed.

Lemma CanonAt_root_cell v cl :
  CanonAt v cl -> cl <> [] -> v (croot cl) <= 0.
Proof.
  destruct cl as [| a [| b tl]]; simpl; intros Hc Hne; [congruence | lia |].
  destruct Hc as (_ & Hb & _). lia.
Qed.

Lemma croot_in cl : cl <> [] -> In (croot cl) cl.
Proof. destruct cl as [| a [| b tl]]; simpl; intros H; [congruence | auto | auto]. Qed.

(** [Union] of the first member of a class in canonical shape with a fresh
    singleton appends the singleton to the class. *)
Lemma Union_canon_step fuel v a cd x :
  (2 <= fuel)%nat ->
  CanonAt v (a :: cd) -> v x = 0 -> NoDup (a :: cd ++ [x]) ->
  (forall t, In t (a :: cd ++ [x]) -> 0 < t) ->
  exists v', Union fuel a x v = Some v' /\
    CanonAt v' (a :: cd ++ [x]) /\
    (forall t, ~ In t (a :: cd ++ [x]) -> v' t = v t).
Proof.
  intros Hf Hc Hx Hnd Hpos.
  pose proof Hnd as Hnd0.
  apply NoDup_cons_iff in Hnd. destruct Hnd as [Hna Hnd].
  assert (Hax : a <> x).
  { intros ->. apply Hna. apply in_app_iff. simpl. auto. }
  assert (Ecx : cls v x = x) by (unfold cls; rewrite Hx; reflexivity).
  unfold Union.
  destruct cd as [| b tl]; cbn [CanonAt] in Hc.
  - assert (Eca : cls v a = a) by (unfold cls; rewrite Hc; reflexivity).
    rewrite find_flat by (try assumption; lia). cbn [bind].
    rewrite find_flat by (try assumption; lia). cbn [bind].
    rewrite Eca, Ecx, Hc, Hx.
    destruct (Z.eqb_spec a x) as [| _]; [contradiction |]. cbn [negb].
    destruct (Z.gtb_spec 0 0); [lia |].
    eexists. split; [reflexivity |]. split.
    + cbn [app CanonAt]. rewrite upd_eq, upd_neq, upd_eq by auto.
      split; [reflexivity |]. split; [reflexivity | intros t []].
    + intros t Ht. simpl in Ht. rewrite !upd_neq; auto.
  - destruct Hc as (Ha & Hb & Ht).
    cbn [app] in Hnd, Hna.
    apply NoDup_cons_iff in Hnd. destruct Hnd as [Hnb Hnd].
    assert (Hbpos : 0 < b) by (apply Hpos; simpl; auto).
    assert (Hbx : b <> x).
    { intros ->. apply Hnb. apply in_app_iff. simpl. auto. }
    assert (Hab : a <> b).
    { intros ->. apply Hna. simpl. auto. }
    assert (Eca : cls v a = b).
    { unfold cls. rewrite Ha. destruct (Z.gtb_spec b 0); [reflexivity | lia]. }
    rewrite find_flat by (try assumption; rewrite Ha, Hb; lia). cbn [bind].
    rewrite find_flat by (try assumption; lia). cbn [bind].
    rewrite Eca, Ecx, Hx, Hb.
    destruct (Z.eqb_spec b x) as [| _]; [contradiction |]. cbn [negb].
    destruct (Z.gtb_spec 0 (- Z.of_nat (S (length tl)))); [| lia].
    eexists. split; [reflexivity |]. split.
    + cbn [app CanonAt]. rewrite upd_neq, upd_neq by auto. split; [assumption |].
      rewrite upd_neq, upd_eq by auto. split.
      * rewrite length_app. cbn [length]. lia.
      * intros t Hin. apply in_app_iff in Hin. destruct Hin as [Hin | [<- | []]].
        -- assert (t <> x).
           { intros ->. apply NoDup_remove_2 in Hnd. apply Hnd.
             rewrite app_nil_r. assumption. }
           assert (t <> b).
           { intros ->. apply Hnb. apply in_app_iff. auto. }
           rewrite !upd_neq by auto. auto.
        -- apply upd_eq.
    + intros t Hin. cbn [app In] in Hin.
      assert (t <> x).
      { intros ->. apply Hin. right. right. apply in_app_iff. simpl. auto. }
      assert (t <> b) by (intros ->; apply Hin; auto).
      rewrite !upd_neq by auto. reflexivity.
Qed.

End Flat.

(* ===================================================================== *)
(** ** Partitions in canonical shape *)
(* ===================================================================== *)

Section Canonical.

Variable ms : list Z.
Variable eqv : Z -> Z -> bool.
Hypothesis eqv_equiv : Equiv eqv.
Hypothesis ms_pos : forall t, In t ms -> 0 < t.

Lemma eqv_filter x y : eqv x y = true -> filter (eqv x) ms = filter (eqv y) ms.
Proof.
  destruct eqv_equiv as (Hr & Hs & Ht). intros H.
  apply filter_ext. intros z. apply eq_true_iff_eq. split; intros Hz.
  - apply Ht with x; auto.
  - apply Ht with y; auto.
Qed.

Lemma in_class x : In x ms -> In x (filter (eqv x) ms).
Proof.
  destruct eqv_equiv as (Hr & _). intros H. apply filter_In. auto.
Qed.

Lemma class_pos x t : In t (filter (eqv x) ms) -> 0 < t.
Proof. intros H. apply filter_In in H. apply ms_pos, H. Qed.

Variable v : array Z.
Hypothesis v_canon : Canon ms eqv v.

Lemma Canon_cls x : In x ms -> cls v x = croot (filter (eqv x) ms).
Proof.
  intros Hx. apply CanonAt_cls; [apply class_pos | now apply v_canon | now apply in_class].
Qed.

Lemma Canon_cls_in x : In x ms -> In (cls v x) ms /\ eqv x (cls v x) = true.
Proof.
  intros Hx. rewrite Canon_cls by assumption.
  assert (H : In (croot (filter (eqv x) ms)) (filter (eqv x) ms)).
  { apply croot_in. intros E. pose proof (in_class x Hx) as Hin.
    rewrite E in Hin. destruct Hin. }
  now apply filter_In in H.
Qed.

Lemma Canon_cls_iff x y :
  In x ms -> In y ms -> (cls v x = cls v y <-> eqv x y = true).
Proof.
  destruct eqv_equiv as (Hr & Hs & Ht). intros Hx Hy. split.
  - intros E. destruct (Canon_cls_in x Hx) as [_ H1].
    destruct (Canon_cls_in y Hy) as [_ H2]. rewrite <- E in H2.
    apply Ht with (cls v x); auto.
  - intros E. rewrite !Canon_cls by assumption. now rewrite (eqv_filter x y E).
Qed.

Lemma Canon_root_cell x : In x ms -> v (cls v x) <= 0.
Proof.
  intros Hx. rewrite Canon_cls by assumption.
  apply CanonAt_root_cell; [now apply v_canon |].
  intros E. pose proof (in_class x Hx) as Hin. rewrite E in Hin. destruct Hin.
Qed.

Lemma Canon_flat x : In x ms -> 0 < v x -> v (v x) <= 0.
Proof.
  intros Hx Hpos. pose proof (Canon_root_cell x Hx) as H.
  unfold cls in H. destruct (Z.gtb_spec (v x) 0); [assumption | lia].
Qed.

Lemma Canon_parent_in x : In x ms -> 0 < v x -> In (v x) ms.
Proof.
  intros Hx Hpos. destruct (Canon_cls_in x Hx) as [H _].
  unfold cls in H. destruct (Z.gtb_spec (v x) 0); [assumption | lia].
Qed.

Lemma Canon_cls_idem x : In x ms -> cls v (cls v x) = cls v x.
Proof.
  intros Hx. pose proof (Canon_root_cell x Hx) as H.
  unfold cls at 1. destruct (Z.gtb_spec (v (cls v x)) 0); [lia | reflexivity].
Qed.

(** A root whose cell is [0] is alone in its class. *)
Lemma Canon_zero_singleton x y :
  In x ms -> In y ms -> v (cls v x) = 0 -> eqv x y = true -> y = x.
Proof.
  intros Hx Hy Hz E.
  pose proof (v_canon x Hx) as Hc. rewrite Canon_cls in Hz by assumption.
  assert (Hin : In y (filter (eqv x) ms)) by (apply filter_In; auto).
  pose proof (in_class x Hx) as Hxin.
  destruct (filter (eqv x) ms) as [| a [| b tl]]; [destruct Hin | |].
  - destruct Hin as [<- | []]. destruct Hxin as [<- | []]. reflexivity.
  - cbn [CanonAt croot] in Hc, Hz. destruct Hc as (_ & Hb & _). lia.
Qed.

End Canonical.

(* ===================================================================== *)
(** ** partit.c: one group of a sweep *)
(* ===================================================================== *)

Section Group.

Variable fuel : nat.
Variable dfa : automaton_t.
Variable g : array Z.
Let n := nstates dfa.

Hypothesis fuel_ok : (2 <= fuel)%nat.
Hypothesis dfa_ok : trans_ok dfa.
Hypothesis g_flat : forall t, 1 <= t <= n -> 0 < g t -> g (g t) <= 0.

Lemma same_trans_equiv : Equiv (same_trans dfa g).
Proof.
  unfold same_trans. repeat split.
  - intros x. apply forallb_forall. intros j _. apply Z.eqb_refl.
  - intros x y H. rewrite forallb_forall in *. intros j Hj.
    specialize (H j Hj). apply Z.eqb_eq in H. apply Z.eqb_eq. auto.
  - intros x y z H1 H2. rewrite forallb_forall in *. intros j Hj.
    specialize (H1 j Hj). specialize (H2 j Hj).
    apply Z.eqb_eq in H1, H2. apply Z.eqb_eq. congruence.
Qed.

Lemma cls_find_flat t : 0 <= t <= n -> cls_find fuel t g = Some (cl0 g t, g).
Proof.
  intros Ht. unfold cls_find, cl0.
  destruct (Z.gtb_spec t 0); [| reflexivity].
  apply find_flat; [assumption |]. apply g_flat. lia.
Qed.

Lemma same_transitions_from_flat s1 s2 l :
  1 <= s1 <= n -> 1 <= s2 <= n ->
  (forall j, In j l -> 1 <= j <= nab dfa) ->
  same_transitions_from fuel l s1 s2 (mat dfa) g
  = Some (forallb (fun j => cl0 g (mat dfa s1 j) =? cl0 g (mat dfa s2 j)) l, g).
Proof.
  intros H1 H2. induction l as [| j l IH]; intros Hl; [reflexivity |].
  cbn [same_transitions_from forallb].
  rewrite cls_find_flat by (apply dfa_ok; auto; apply Hl; simpl; auto).
  cbn [bind].
  rewrite cls_find_flat by (apply dfa_ok; auto; apply Hl; simpl; auto).
  cbn [bind].
  destruct (cl0 g (mat dfa s1 j) =? cl0 g (mat dfa s2 j)); cbn [negb andb];
    [| reflexivity].
  apply IH. intros k Hk. apply Hl. simpl. auto.
Qed.

Lemma same_transitions_flat s1 s2 :
  1 <= s1 <= n -> 1 <= s2 <= n ->
  same_transitions fuel s1 s2 (mat dfa) (nab dfa) g
  = Some (same_trans dfa g s1 s2, g).
Proof.
  intros H1 H2. unfold same_transitions, same_trans.
  apply same_transitions_from_flat; try assumption.
  intros j. apply in_range.
Qed.

Let eqv := same_trans dfa g.

(** The [j] loop of [partition] for a leader [m] whose class so far is
    [m :: cd]. *)
Lemma unify_with_spec m : forall rest cd st,
  old_groups st = g ->
  CanonAt (new_groups st) (m :: cd) ->
  NoDup (m :: cd ++ rest) ->
  (forall t, In t (m :: cd ++ rest) -> 1 <= t <= n) ->
  (forall x, In x rest -> unified st x <> 0 -> eqv m x = false) ->
  (forall x, In x rest -> unified st x = 0 -> new_groups st x = 0) ->
  exists st',
    unify_with fuel dfa m rest st = Some st' /\
    old_groups st' = g /\
    CanonAt (new_groups st') (m :: cd ++ filter (eqv m) rest) /\
    (forall t, ~ In t (m :: cd ++ filter (eqv m) rest) ->
       new_groups st' t = new_groups st t) /\
    (forall t, In t (filter (eqv m) rest) -> unified st' t <> 0) /\
    (forall t, ~ In t (filter (eqv m) rest) -> unified st' t = unified st t).
Proof.
  induction rest as [| mj rest IH]; intros cd st Hog Hc Hnd Hrange Huf Hnew.
  - exists st. cbn [unify_with filter]. rewrite app_nil_r.
    repeat split; auto.
  - assert (Hnd' : NoDup (m :: cd ++ rest)).
    { change (m :: cd ++ mj :: rest) with ((m :: cd) ++ mj :: rest) in Hnd.
      apply NoDup_remove_1 in Hnd. exact Hnd. }
    assert (Hrange' : forall t, In t (m :: cd ++ rest) -> 1 <= t <= n).
    { intros t Ht. apply Hrange. cbn [In] in *. rewrite in_app_iff in *.
      cbn [In]. tauto. }
    assert (Hm : 1 <= m <= n) by (apply Hrange; simpl; auto).
    assert (Hmj : 1 <= mj <= n).
    { apply Hrange. cbn [In]. rewrite in_app_iff. cbn [In]. auto. }
    cbn [unify_with filter].
    destruct (Z.eqb_spec (unified st mj) 0) as [Eu | Eu]; cbn [negb].
    + rewrite Hog, same_transitions_flat by assumption. cbn [bind].
      fold eqv. destruct (eqv m mj) eqn:Em.
      * (* united with the leader *)
        assert (Hnd1 : NoDup (m :: cd ++ [mj])).
        { replace (m :: cd ++ mj :: rest) with ((m :: cd ++ [mj]) ++ rest) in Hnd
            by (cbn [app]; now rewrite <- app_assoc).
          now apply NoDup_app_remove_r in Hnd. }
        destruct (Union_canon_step fuel (new_groups st) m cd mj fuel_ok Hc)
          as (v' & Hun & Hc' & Hfr); [apply Hnew; simpl; auto | exact Hnd1 | |].
        { intros t Ht. assert (1 <= t <= n); [| lia]. apply Hrange.
          cbn [In] in *. rewrite in_app_iff in *. cbn [In] in *. tauto. }
        rewrite Hun. cbn [bind].
        assert (Hnotin : forall x, In x rest -> ~ In x (m :: cd ++ [mj])).
        { intros x Hx Hin.
          replace (m :: cd ++ mj :: rest) with ((m :: cd ++ [mj]) ++ rest) in Hnd
            by (cbn [app]; now rewrite <- app_assoc).
          exact (NoDup_app_disjoint _ _ x Hnd Hin Hx). }
        destruct (IH (cd ++ [mj]) (mk_sweep g v' (upd (unified st) mj TRUE)))
          as (st' & Hrun & Hog' & Hc'' & Hfr' & Hu1 & Hu2).
        -- reflexivity.
        -- exact Hc'.
        -- rewrite <- app_assoc. exact Hnd.
        -- intros t Ht. apply Hrange. rewrite <- app_assoc in Ht. exact Ht.
        -- cbn [unified]. intros x Hx Hux. apply Huf; [simpl; auto |].
           rewrite upd_neq in Hux; [assumption |].
           intros ->. apply (Hnotin mj Hx). cbn [In]. rewrite in_app_iff. simpl. auto.
        -- cbn [unified new_groups]. intros x Hx Hux.
           rewrite Hfr by (now apply Hnotin). apply Hnew; [simpl; auto |].
           rewrite upd_neq in Hux; [assumption |].
           intros ->. apply (Hnotin mj Hx). cbn [In]. rewrite in_app_iff. simpl. auto.
        -- exists st'. rewrite <- app_assoc in Hc'', Hfr'. cbn [app] in Hc'', Hfr'.
           cbn [new_groups unified] in *.
           split; [exact Hrun |]. split; [exact Hog' |]. split; [exact Hc'' |].
           split; [| split].
           ++ intros t Ht. rewrite Hfr' by exact Ht. apply Hfr.
              intros Hin. apply Ht. cbn [In] in *. rewrite in_app_iff in *.
              cbn [In] in *. tauto.
           ++ intros t [<- | Ht]; [| now apply Hu1].
              destruct (in_dec Z.eq_dec mj (filter (eqv m) rest)) as [Hin | Hin];
                [now apply Hu1 |].
              rewrite Hu2 by assumption. rewrite upd_eq. discriminate.
           ++ intros t Ht. cbn [In] in Ht.
              rewrite Hu2 by tauto. apply upd_neq. intros ->. tauto.
      * (* different transitions *)
        destruct (IH cd (mk_sweep g (new_groups st) (unified st)))
          as (st' & Hrun & Hog' & Hc'' & Hfr' & Hu1 & Hu2); cbn [new_groups unified];
          try assumption; try reflexivity.
        -- intros x Hx. apply Huf. simpl. auto.
        -- intros x Hx. apply Hnew. simpl. auto.
        -- exists st'. cbn [new_groups unified] in *. repeat split; assumption.
    + (* already unified with an earlier leader *)
      rewrite (Huf mj) by (simpl; auto).
      destruct (IH cd st) as (st' & Hrun & Hog' & Hc'' & Hfr' & Hu1 & Hu2);
        try assumption.
      * intros x Hx. apply Huf. simpl. auto.
      * intros x Hx. apply Hnew. simpl. auto.
      * exists st'. repeat split; assumption.
Qed.

Lemma cov_true pre x : cov eqv pre x = true -> exists y, In y pre /\ eqv y x = true.
Proof. apply existsb_exists. Qed.

Lemma cov_false pre x y : cov eqv pre x = false -> In y pre -> eqv y x = false.
Proof.
  intros H Hy. destruct (eqv y x) eqn:E; [| reflexivity].
  assert (cov eqv pre x = true) by (apply existsb_exists; eauto). congruence.
Qed.

Lemma cov_snoc pre m x : cov eqv (pre ++ [m]) x = cov eqv pre x || eqv m x.
Proof. unfold cov. rewrite existsb_app. cbn [existsb]. now rewrite orb_false_r. Qed.

Lemma filter_nil_iff (p : Z -> bool) l :
  (forall y, In y l -> p y = false) -> filter p l = [].
Proof.
  induction l as [| a l IH]; intros H; [reflexivity |]. cbn [filter].
  rewrite (H a) by (simpl; auto). apply IH. intros y Hy. apply H. simpl. auto.
Qed.

(** The [i] loop of [partition]: the scratch vector ends as the canonical
    encoding of the partition of the group by [same_trans]. *)
Lemma unify_pairs_spec ms :
  NoDup ms -> (forall t, In t ms -> 1 <= t <= n) ->
  forall suf pre st,
  ms = pre ++ suf ->
  old_groups st = g ->
  (forall x, In x ms ->
     if cov eqv pre x
     then unified st x <> 0 /\ CanonAt (new_groups st) (filter (eqv x) ms)
     else unified st x = 0 /\ new_groups st x = 0) ->
  exists st',
    unify_pairs fuel dfa suf st = Some st' /\
    old_groups st' = g /\ Canon ms eqv (new_groups st').
Proof.
  destruct same_trans_equiv as (Hrefl & Hsym & Htrans). fold eqv in Hrefl, Hsym, Htrans.
  intros Hnd Hrange.
  assert (Hsymf : forall x y, eqv x y = false -> eqv y x = false).
  { intros x y H. destruct (eqv y x) eqn:E; [| reflexivity].
    apply Hsym in E. congruence. }
  induction suf as [| m suf IH]; intros pre st Hms Hog Hinv.
  - exists st. cbn [unify_pairs]. split; [reflexivity |]. split; [assumption |].
    intros x Hx. specialize (Hinv x Hx).
    assert (Hc : cov eqv pre x = true).
    { apply existsb_exists. exists x. split; [| apply Hrefl].
      rewrite Hms, app_nil_r in Hx. exact Hx. }
    rewrite Hc in Hinv. apply Hinv.
  - assert (Hmin : In m ms) by (rewrite Hms; apply in_app_iff; simpl; auto).
    assert (Hmpre : ~ In m pre).
    { intros Hin. rewrite Hms in Hnd. apply NoDup_remove_2 in Hnd.
      apply Hnd. apply in_app_iff. auto. }
    assert (Hmsuf : ~ In m suf).
    { intros Hin. rewrite Hms in Hnd. apply NoDup_remove_2 in Hnd.
      apply Hnd. apply in_app_iff. auto. }
    destruct suf as [| m2 rest2].
    + (* the last member is never a leader *)
      exists st. cbn [unify_pairs]. split; [reflexivity |]. split; [assumption |].
      intros x Hx. pose proof (Hinv x Hx) as Hix.
      destruct (cov eqv pre x) eqn:Hc; [apply Hix |].
      assert (x = m).
      { rewrite Hms in Hx. apply in_app_iff in Hx.
        destruct Hx as [Hx | [E | []]]; [| auto].
        pose proof (cov_false pre x x Hc Hx). rewrite Hrefl in H. discriminate. }
      subst x. rewrite Hms, filter_app.
      rewrite (filter_nil_iff (eqv m) pre)
        by (intros y Hy; apply Hsymf; now apply (cov_false pre m y Hc)).
      cbn [filter app]. rewrite Hrefl. cbn [CanonAt]. apply Hix.
    + set (suf := m2 :: rest2) in *.
      assert (Hms' : ms = (pre ++ [m]) ++ suf)
        by (rewrite <- app_assoc; exact Hms).
      cbn [unify_pairs]. fold suf.
      change (match suf with [] => Some st | _ :: _ =>
                if negb (unified st m =? 0) then unify_pairs fuel dfa suf st
                else st' <- unify_with fuel dfa m suf
                       (mk_sweep (old_groups st) (new_groups st) (upd (unified st) m TRUE)) ;;
                     unify_pairs fuel dfa suf st' end)
        with (if negb (unified st m =? 0) then unify_pairs fuel dfa suf st
              else st' <- unify_with fuel dfa m suf
                     (mk_sweep (old_groups st) (new_groups st) (upd (unified st) m TRUE)) ;;
                   unify_pairs fuel dfa suf st').
      pose proof (Hinv m Hmin) as Him.
      destruct (Z.eqb_spec (unified st m) 0) as [Eu | Eu]; cbn [negb].
      * (* [m] becomes a leader *)
        destruct (cov eqv pre m) eqn:Hcm; [destruct Him; contradiction |].
        destruct Him as [_ Hnm].
        destruct (unify_with_spec m suf []
                    (mk_sweep (old_groups st) (new_groups st) (upd (unified st) m TRUE)))
          as (st1 & Hrun & Hog1 & Hc1 & Hfr1 & Hu1 & Hu2).
        -- exact Hog.
        -- cbn [new_groups CanonAt]. exact Hnm.
        -- cbn [app]. rewrite Hms in Hnd. now apply NoDup_app_remove_l in Hnd.
        -- cbn [app]. intros t Ht. apply Hrange. rewrite Hms. apply in_app_iff. auto.
        -- cbn [unified]. intros x Hx Hux.
           assert (Hxm : x <> m) by (intros ->; contradiction).
           rewrite upd_neq in Hux by assumption.
           assert (Hxin : In x ms) by (rewrite Hms; apply in_app_iff; simpl; auto).
           pose proof (Hinv x Hxin) as Hix.
           destruct (cov eqv pre x) eqn:Hcx; [| destruct Hix; contradiction].
           apply cov_true in Hcx. destruct Hcx as (y & Hy & Eyx).
           destruct (eqv m x) eqn:Emx; [| reflexivity].
           pose proof (cov_false pre m y Hcm Hy) as Hf.
           rewrite (Htrans y x m Eyx (Hsym _ _ Emx)) in Hf. discriminate.
        -- cbn [unified new_groups]. intros x Hx Hux.
           assert (Hxm : x <> m) by (intros ->; contradiction).
           rewrite upd_neq in Hux by assumption.
           assert (Hxin : In x ms) by (rewrite Hms; apply in_app_iff; simpl; auto).
           pose proof (Hinv x Hxin) as Hix.
           destruct (cov eqv pre x); [destruct Hix; contradiction | apply Hix].
        -- rewrite Hrun. cbn [bind]. cbn [app new_groups unified] in *.
           apply (IH (pre ++ [m]) st1 Hms' Hog1).
           intros x Hx. rewrite cov_snoc. pose proof (Hinv x Hx) as Hix.
           destruct (cov eqv pre x) eqn:Hcx; cbn [orb].
           ++ destruct Hix as [Hux Hcx'].
              apply cov_true in Hcx. destruct Hcx as (y & Hy & Eyx).
              assert (Emx : forall t, eqv x t = true -> eqv m t = false).
              { intros t Et. destruct (eqv m t) eqn:Emt; [| reflexivity].
                pose proof (cov_false pre m y Hcm Hy) as Hf.
                rewrite (Htrans y x m Eyx
                           (Htrans x t m Et (Hsym _ _ Emt))) in Hf. discriminate. }
              assert (Hout : forall t, eqv x t = true ->
                                       ~ In t (m :: filter (eqv m) suf)).
              { intros t Et [<- | Hin].
                - pose proof (Emx m Et) as Hf. rewrite Hrefl in Hf. discriminate.
                - apply filter_In in Hin. destruct Hin as [_ Hin].
                  rewrite (Emx t Et) in Hin. discriminate. }
              split.
              ** rewrite Hu2; [rewrite upd_neq; [assumption |] |].
                 --- intros ->. pose proof (cov_false pre m y Hcm Hy). congruence.
                 --- intros Hin. apply (Hout x (Hrefl x)). simpl. auto.
              ** apply CanonAt_ext with (v := new_groups st); [| assumption].
                 intros t Ht. apply filter_In in Ht. apply Hfr1, Hout, Ht.
           ++ destruct Hix as [Hux Hnx].
              destruct (eqv m x) eqn:Emx.
              ** assert (Hxpre : ~ In x pre).
                 { intros Hin. pose proof (cov_false pre x x Hcx Hin) as Hf.
                   rewrite Hrefl in Hf. discriminate. }
                 split.
                 --- rewrite Hms in Hx. apply in_app_iff in Hx.
                     destruct Hx as [Hx | [<- | Hx]]; [contradiction | |].
                     +++ rewrite Hu2; [rewrite upd_eq; discriminate |].
                         intros Hin. apply filter_In in Hin. tauto.
                     +++ apply Hu1. apply filter_In. auto.
                 --- rewrite <- (eqv_filter ms eqv same_trans_equiv m x Emx).
                     rewrite Hms at 1. rewrite filter_app.
                     rewrite (filter_nil_iff (eqv m) pre)
                       by (intros y Hy; apply Hsymf; now apply (cov_false pre m y Hcm)).
                     cbn [filter app]. rewrite Hrefl. exact Hc1.
              ** assert (Hout : ~ In x (m :: filter (eqv m) suf)).
                 { intros [<- | Hin]; [rewrite Hrefl in Emx; discriminate |].
                   apply filter_In in Hin. destruct Hin. congruence. }
                 split.
                 --- rewrite Hu2 by (intros Hin; apply Hout; simpl; auto).
                     rewrite upd_neq; [assumption |].
                     intros ->. rewrite Hrefl in Emx. discriminate.
                 --- rewrite Hfr1 by assumption. assumption.
      * (* [m] was unified with an earlier leader *)
        destruct (cov eqv pre m) eqn:Hcm; [| destruct Him; contradiction].
        apply cov_true in Hcm. destruct Hcm as (y & Hy & Eym).
        apply (IH (pre ++ [m]) st Hms' Hog).
        intros x Hx. rewrite cov_snoc. pose proof (Hinv x Hx) as Hix.
        destruct (cov eqv pre x) eqn:Hcx; cbn [orb]; [assumption |].
        destruct (eqv m x) eqn:Emx; [| assumption].
        pose proof (cov_false pre x y Hcx Hy) as Hf.
        rewrite (Htrans y m x Eym Emx) in Hf. discriminate.
Qed.

End Group.

(* ===================================================================== *)
(** ** Replacing one class by a finer partition of it *)
(* ===================================================================== *)

Section ListFacts.

Lemma filter_filter_andb (p q : Z -> bool) l :
  filter p (filter q l) = filter (fun x => q x && p x) l.
Proof.
  induction l as [| a l IH]; [reflexivity |]. cbn [filter].
  destruct (q a); cbn [andb filter]; [destruct (p a) |]; now rewrite IH.
Qed.

Lemma filter_all_true (p : Z -> bool) l :
  (forall y, In y l -> p y = true) -> filter p l = l.
Proof.
  induction l as [| a l IH]; intros H; [reflexivity |]. cbn [filter].
  rewrite (H a) by (simpl; auto). f_equal. apply IH. intros y Hy. apply H. simpl. auto.
Qed.

Lemma forallb_false_ex (p : Z -> bool) l :
  forallb p l = false -> exists x, In x l /\ p x = false.
Proof.
  induction l as [| a l IH]; cbn [forallb]; intros H; [discriminate |].
  destruct (p a) eqn:E.
  - destruct (IH H) as (x & Hx & Hp). exists x. simpl. auto.
  - exists a. simpl. auto.
Qed.

Lemma existsb_in l x : existsb (Z.eqb x) l = true <-> In x l.
Proof.
  rewrite existsb_exists. split.
  - intros (y & Hy & E). apply Z.eqb_eq in E. now subst.
  - intros H. exists x. split; [assumption | apply Z.eqb_refl].
Qed.

Lemma length_filter_split (p q : Z -> bool) l :
  length (filter p l)
  = (length (filter p (filter q l)) + length (filter p (filter (fun x => negb (q x)) l)))%nat.
Proof.
  induction l as [| a l IH]; [reflexivity |]. cbn [filter].
  destruct (q a); cbn [negb filter]; destruct (p a); cbn [length]; lia.
Qed.

Lemma two_in_length (l : list Z) a b :
  In a l -> In b l -> a <> b -> (2 <= length l)%nat.
Proof.
  destruct l as [| x [| y l]]; cbn [In length]; intros Ha Hb Hab; [tauto | | lia].
  destruct Ha as [<- | []], Hb as [<- | []]. congruence.
Qed.

Lemma all_equal_length (l : list Z) a :
  NoDup l -> (forall x, In x l -> x = a) -> (length l <= 1)%nat.
Proof.
  intros Hnd H. destruct l as [| x [| y l]]; cbn [length]; try lia.
  exfalso. apply NoDup_cons_iff in Hnd. destruct Hnd as [Hn _]. apply Hn.
  rewrite (H x), (H y) by (simpl; auto). simpl. auto.
Qed.

Lemma copy_members_at l : forall og ng s,
  copy_members l og ng s = if existsb (Z.eqb s) l then ng s else og s.
Proof.
  unfold copy_members.
  induction l as [| x l IH]; intros og ng s; cbn [fold_left existsb]; [reflexivity |].
  rewrite IH. destruct (existsb (Z.eqb s) l); [now rewrite orb_true_r |].
  rewrite orb_false_r. unfold upd.
  destruct (Z.eqb_spec s x) as [-> |]; reflexivity.
Qed.

End ListFacts.

Lemma same_equiv g : Equiv (same g).
Proof.
  unfold same. repeat split.
  - intros x. apply Z.eqb_refl.
  - intros x y H. apply Z.eqb_eq in H. apply Z.eqb_eq. auto.
  - intros x y z H1 H2. apply Z.eqb_eq in H1, H2. apply Z.eqb_eq. congruence.
Qed.

Lemma range_pos n t : In t (range 1 n) -> 0 < t.
Proof. intros H. apply in_range in H. lia. Qed.

Section Replace.

Variable n : Z.
Variable g : array Z.
Hypothesis g_inv : Inv n g.

Variable rep : Z.
Hypothesis rep_in : 1 <= rep <= n.
Hypothesis rep_root : g rep < 0.

Let R := range 1 n.
Let inG (i : Z) : bool := cls g i =? rep.
Let ms := filter inG R.

Variable eqv : Z -> Z -> bool.
Hypothesis eqv_equiv : Equiv eqv.
Variable ng : array Z.
Hypothesis ng_canon : Canon ms eqv ng.

Variable g' : array Z.
Hypothesis g'_in : forall x, In x ms -> g' x = ng x.
Hypothesis g'_out : forall x, ~ In x ms -> g' x = g x.

Lemma ms_in x : In x ms <-> 1 <= x <= n /\ cls g x = rep.
Proof.
  unfold ms. rewrite filter_In. unfold R, inG. rewrite in_range, Z.eqb_eq.
  reflexivity.
Qed.

Lemma ms_pos t : In t ms -> 0 < t.
Proof. intros H. apply ms_in in H. lia. Qed.

Lemma ms_NoDup : NoDup ms.
Proof. apply NoDup_filter, range_NoDup. Qed.

Lemma rep_in_ms : In rep ms.
Proof.
  apply ms_in. split; [assumption |]. unfold cls.
  destruct (Z.gtb_spec (g rep) 0); [lia | reflexivity].
Qed.

Lemma g_cls_in x : 1 <= x <= n -> 1 <= cls g x <= n.
Proof.
  intros Hx. apply in_range.
  apply (Canon_cls_in R (same g) (same_equiv g) (range_pos n) g g_inv).
  now apply in_range.
Qed.

Lemma g_cls_idem x : 1 <= x <= n -> cls g (cls g x) = cls g x.
Proof.
  intros Hx.
  apply (Canon_cls_idem R (same g) (same_equiv g) (range_pos n) g g_inv).
  now apply in_range.
Qed.

Lemma cls_g'_in x : In x ms -> cls g' x = cls ng x.
Proof. intros Hx. unfold cls. now rewrite g'_in. Qed.

Lemma cls_g'_out x : ~ In x ms -> cls g' x = cls g x.
Proof. intros Hx. unfold cls. now rewrite g'_out. Qed.

Lemma cls_out_not_in x : 1 <= x <= n -> ~ In x ms -> ~ In (cls g x) ms.
Proof.
  intros Hx Hn Hin. apply Hn. apply ms_in. split; [assumption |].
  apply ms_in in Hin. destruct Hin as [_ E]. now rewrite g_cls_idem in E.
Qed.

Lemma same_g'_in x y :
  In x ms -> In y ms -> same g' x y = eqv x y.
Proof.
  intros Hx Hy. unfold same. rewrite !cls_g'_in by assumption.
  apply eq_true_iff_eq. rewrite Z.eqb_eq.
  apply (Canon_cls_iff ms eqv eqv_equiv ms_pos ng ng_canon); assumption.
Qed.

Lemma same_g'_mixed x y :
  In x ms -> 1 <= y <= n -> ~ In y ms -> same g' x y = false.
Proof.
  intros Hx Hy Hny. unfold same.
  rewrite cls_g'_in, cls_g'_out by assumption.
  apply Z.eqb_neq. intros E.
  apply (cls_out_not_in y Hy Hny). rewrite <- E.
  apply (Canon_cls_in ms eqv eqv_equiv ms_pos ng ng_canon x Hx).
Qed.

Lemma same_g'_out x y :
  ~ In x ms -> ~ In y ms -> same g' x y = same g x y.
Proof. intros Hx Hy. unfold same. now rewrite !cls_g'_out. Qed.

Lemma same_g_mixed x y :
  In x ms -> 1 <= y <= n -> ~ In y ms -> same g x y = false.
Proof.
  intros Hx Hy Hny. unfold same. apply Z.eqb_neq. intros E.
  apply Hny. apply ms_in. split; [assumption |].
  apply ms_in in Hx. destruct Hx as [_ Hx]. congruence.
Qed.

Lemma same_sym_eq h x y : same h x y = same h y x.
Proof. unfold same. apply Z.eqb_sym. Qed.

Lemma replace_refines x y :
  1 <= x <= n -> 1 <= y <= n -> same g' x y = true -> same g x y = true.
Proof.
  intros Hx Hy H.
  destruct (in_dec Z.eq_dec x ms) as [Hxm | Hxm];
    destruct (in_dec Z.eq_dec y ms) as [Hym | Hym].
  - unfold same. apply Z.eqb_eq.
    apply ms_in in Hxm, Hym. destruct Hxm, Hym. congruence.
  - rewrite same_g'_mixed in H by assumption. discriminate.
  - rewrite same_sym_eq, same_g'_mixed in H by assumption. discriminate.
  - now rewrite same_g'_out in H.
Qed.

Lemma replace_Inv : Inv n g'.
Proof.
  intros x Hx. fold R in Hx.
  assert (Hxr : 1 <= x <= n) by (now apply in_range).
  destruct (in_dec Z.eq_dec x ms) as [Hxm | Hxm].
  - assert (E : filter (same g' x) R = filter (eqv x) ms).
    { unfold ms. rewrite filter_filter_andb. apply filter_ext_in.
      intros i Hi. apply in_range in Hi. destruct (inG i) eqn:Ei; cbn [andb].
      - apply same_g'_in; [assumption |]. apply filter_In. split; [now apply in_range | assumption].
      - apply same_g'_mixed; try assumption.
        intros Hin. apply filter_In in Hin. destruct Hin. congruence. }
    fold R. rewrite E.
    apply CanonAt_ext with (v := ng); [| now apply ng_canon].
    intros t Ht. apply filter_In in Ht. apply g'_in, Ht.
  - assert (E : filter (same g' x) R = filter (same g x) R).
    { apply filter_ext_in. intros i Hi. apply in_range in Hi.
      destruct (in_dec Z.eq_dec i ms) as [Him | Him].
      - rewrite same_sym_eq, same_g'_mixed by assumption.
        rewrite same_sym_eq, same_g_mixed by assumption. reflexivity.
      - now apply same_g'_out. }
    fold R. rewrite E.
    apply CanonAt_ext with (v := g); [| now apply g_inv].
    intros t Ht. apply filter_In in Ht. destruct Ht as [Ht Est].
    apply g'_out. intros Him. apply in_range in Ht.
    rewrite same_sym_eq, same_g_mixed in Est by assumption. discriminate.
Qed.

(** The class of [rep] has exactly one root in [g]. *)
Lemma roots_before : (length (filter (is_root g) ms) <= 1)%nat.
Proof.
  apply all_equal_length with (a := rep); [apply NoDup_filter, ms_NoDup |].
  intros x Hx. apply filter_In in Hx. destruct Hx as [Hx Hc].
  apply ms_in in Hx. destruct Hx as [_ Hx]. unfold is_root in Hc. apply Z.leb_le in Hc.
  unfold cls in Hx. destruct (Z.gtb_spec (g x) 0); [lia | assumption].
Qed.

(** When the finer partition has two classes it has two roots. *)
Lemma roots_after x y :
  In x ms -> In y ms -> eqv x y = false ->
  (2 <= length (filter (is_root g') ms))%nat.
Proof.
  intros Hx Hy Hxy.
  destruct (Canon_cls_in ms eqv eqv_equiv ms_pos ng ng_canon x Hx) as [Hx1 _].
  destruct (Canon_cls_in ms eqv eqv_equiv ms_pos ng ng_canon y Hy) as [Hy1 _].
  apply two_in_length with (a := cls ng x) (b := cls ng y).
  - apply filter_In. split; [assumption |]. unfold is_root.
    rewrite g'_in by assumption. apply Z.leb_le. now apply (Canon_root_cell ms eqv eqv_equiv ms_pos ng ng_canon).
  - apply filter_In. split; [assumption |]. unfold is_root.
    rewrite g'_in by assumption. apply Z.leb_le. now apply (Canon_root_cell ms eqv eqv_equiv ms_pos ng ng_canon).
  - intros E.
    apply (Canon_cls_iff ms eqv eqv_equiv ms_pos ng ng_canon x y Hx Hy) in E.
    congruence.
Qed.

Lemma replace_count x y :
  In x ms -> In y ms -> eqv x y = false ->
  (class_count n g < class_count n g')%nat.
Proof.
  intros Hx Hy Hxy. unfold class_count. fold R.
  rewrite (length_filter_split (is_root g) inG R).
  rewrite (length_filter_split (is_root g') inG R).
  fold ms.
  assert (E : filter (is_root g') (filter (fun x => negb (inG x)) R)
              = filter (is_root g) (filter (fun x => negb (inG x)) R)).
  { apply filter_ext_in. intros i Hi. apply filter_In in Hi. destruct Hi as [_ Hi].
    unfold is_root. rewrite g'_out; [reflexivity |]. intros Hin. apply filter_In in Hin.
    destruct Hin as [_ Hin]. rewrite Hin in Hi. discriminate. }
  rewrite E. pose proof roots_before. pose proof (roots_after x y Hx Hy Hxy). lia.
Qed.

(** If the finer partition has a single class, it is encoded exactly as
    [g] encodes the class of [rep]. *)
Lemma single_class_same_root s :
  In s ms -> (forall y, In y ms -> eqv s y = true) -> cls ng s = rep.
Proof.
  intros Hs Hall.
  assert (Hsr : 1 <= s <= n /\ cls g s = rep) by (now apply ms_in).
  destruct Hsr as [Hsr Hcs].
  rewrite (Canon_cls ms eqv eqv_equiv ms_pos ng ng_canon s Hs).
  rewrite (filter_all_true (eqv s) ms Hall).
  rewrite <- Hcs.
  rewrite (Canon_cls R (same g) (same_equiv g) (range_pos n) g g_inv s)
    by (now apply in_range).
  f_equal. unfold ms. apply filter_ext. intros i. unfold inG, same.
  rewrite Hcs. apply Z.eqb_sym.
Qed.

End Replace.

(* ===================================================================== *)
(** ** partit.c: [partition] *)
(* ===================================================================== *)

Lemma Inv_flat n g : Inv n g ->
  forall t, 1 <= t <= n -> 0 < g t -> g (g t) <= 0.
Proof.
  intros Hinv t Ht.
  apply (Canon_flat (range 1 n) (same g) (same_equiv g) (range_pos n) g Hinv).
  now apply in_range.
Qed.

Lemma class_count_le n g : (class_count n g <= Z.to_nat n)%nat.
Proof.
  unfold class_count. etransitivity; [apply filter_length_le |].
  rewrite range_length. lia.
Qed.

Lemma class_count_pos n g : 1 <= n -> Inv n g -> (1 <= class_count n g)%nat.
Proof.
  intros Hn Hinv. unfold class_count.
  assert (H1 : In 1 (range 1 n)) by (apply in_range; lia).
  destruct (Canon_cls_in _ _ (same_equiv g) (range_pos n) g Hinv 1 H1) as [Hin _].
  pose proof (Canon_root_cell _ _ (same_equiv g) (range_pos n) g Hinv 1 H1) as Hc.
  assert (Hf : In (cls g 1) (filter (is_root g) (range 1 n))).
  { apply filter_In. split; [assumption | now apply Z.leb_le]. }
  destruct (filter (is_root g) (range 1 n)); [destruct Hf | simpl; lia].
Qed.

Section Sweep.

Variable fuel : nat.
Variable dfa : automaton_t.
Let n := nstates dfa.

Hypothesis fuel_ok : (2 <= fuel)%nat.
Hypothesis dfa_ok : trans_ok dfa.

Lemma collect_members_fold g rep :
  (forall t, 1 <= t <= n -> 0 < g t -> g (g t) <= 0) ->
  forall l acc st,
  (forall i, In i l -> 1 <= i <= n) ->
  old_groups st = g ->
  (forall x, In x acc -> new_groups st x = 0 /\ unified st x = 0) ->
  exists st',
    for_each l
      (fun i '(member, st) =>
         '(r, og) <- find fuel i (old_groups st) ;;
         if r =? rep
         then Some (member ++ [i],
                    mk_sweep og (upd (new_groups st) i 0) (upd (unified st) i FALSE))
         else Some (member, mk_sweep og (new_groups st) (unified st)))
      (acc, st)
    = Some (acc ++ filter (fun i => cls g i =? rep) l, st') /\
    old_groups st' = g /\
    (forall x, In x (acc ++ filter (fun i => cls g i =? rep) l) ->
       new_groups st' x = 0 /\ unified st' x = 0).
Proof.
  intros Hflat. induction l as [| i l IH]; intros acc st Hl Hog Hacc.
  - exists st. cbn [for_each filter]. rewrite app_nil_r. auto.
  - cbn [for_each filter]. rewrite Hog.
    rewrite find_flat by (try assumption; apply Hflat, Hl; simpl; auto).
    cbn [bind]. destruct (cls g i =? rep).
    + destruct (IH (acc ++ [i])
                  (mk_sweep g (upd (new_groups st) i 0) (upd (unified st) i FALSE)))
        as (st' & Hrun & Hog' & Hz).
      * intros k Hk. apply Hl. simpl. auto.
      * reflexivity.
      * cbn [new_groups unified]. intros x Hx. unfold upd, FALSE.
        destruct (x =? i) eqn:E; [auto |].
        apply in_app_iff in Hx. destruct Hx as [Hx | [<- | []]]; [now apply Hacc |].
        rewrite Z.eqb_refl in E. discriminate.
      * exists st'. rewrite <- app_assoc in Hrun, Hz. cbn [app] in Hrun, Hz. auto.
    + destruct (IH acc (mk_sweep g (new_groups st) (unified st)))
        as (st' & Hrun & Hog' & Hz).
      * intros k Hk. apply Hl. simpl. auto.
      * reflexivity.
      * exact Hacc.
      * exists st'. auto.
Qed.

Lemma collect_members_spec g rep st :
  (forall t, 1 <= t <= n -> 0 < g t -> g (g t) <= 0) ->
  old_groups st = g ->
  exists st',
    collect_members fuel n rep st
    = Some (filter (fun i => cls g i =? rep) (range 1 n), st') /\
    old_groups st' = g /\
    (forall x, In x (filter (fun i => cls g i =? rep) (range 1 n)) ->
       new_groups st' x = 0 /\ unified st' x = 0).
Proof.
  intros Hflat Hog.
  destruct (collect_members_fold g rep Hflat (range 1 n) [] st) as (st' & H);
    [intros i; apply in_range | assumption | intros x [] |].
  exists st'. exact H.
Qed.

Lemma differs_flat l : forall g ng,
  (forall s, In s l -> (0 < g s -> g (g s) <= 0) /\ (0 < ng s -> ng (ng s) <= 0)) ->
  differs fuel l g ng
  = Some (existsb (fun s => negb (cls g s =? cls ng s)) l, g, ng).
Proof.
  induction l as [| s l IH]; intros g ng H; [reflexivity |].
  cbn [differs existsb].
  rewrite find_flat by (try assumption; apply H; simpl; auto). cbn [bind].
  rewrite find_flat by (try assumption; apply H; simpl; auto). cbn [bind].
  destruct (negb (cls g s =? cls ng s)); cbn [orb]; [reflexivity |].
  apply IH. intros t Ht. apply H. simpl. auto.
Qed.

Lemma partition_group_spec g rep st updated :
  Inv n g -> 1 <= rep <= n -> old_groups st = g ->
  exists st' updated',
    partition_group fuel dfa rep (st, updated) = Some (st', updated') /\
    group_result dfa g (old_groups st') rep updated updated'.
Proof.
  intros Hinv Hrep Hog.
  pose proof (Inv_flat n g Hinv) as Hflat.
  unfold partition_group. rewrite Hog.
  destruct (Z.geb_spec (g rep) 0) as [Hge | Hlt].
  - exists st, updated. split; [reflexivity |]. rewrite Hog.
    split; [assumption |]. split; [now intros x y _ _ H |].
    left. repeat split; auto. lia.
  - set (ms := filter (fun i => cls g i =? rep) (range 1 n)).
    destruct (collect_members_spec g rep st Hflat Hog) as (st1 & Hcol & Hog1 & Hz).
    fold n. rewrite Hcol. cbn [bind]. fold ms in Hz |- *.
    assert (Hms_range : forall t, In t ms -> 1 <= t <= n).
    { intros t Ht. apply filter_In in Ht. apply in_range, Ht. }
    assert (Hms_nd : NoDup ms) by (apply NoDup_filter, range_NoDup).
    assert (Hms_pos : forall t, In t ms -> 0 < t).
    { intros t Ht. apply Hms_range in Ht. lia. }
    destruct (unify_pairs_spec fuel dfa g fuel_ok dfa_ok Hflat ms Hms_nd Hms_range
                ms [] st1 eq_refl Hog1) as (st2 & Hup & Hog2 & Hcanon).
    { intros x Hx. cbn [cov existsb]. destruct (Hz x Hx). auto. }
    rewrite Hup. cbn [bind]. rewrite Hog2.
    pose proof (same_trans_equiv dfa g) as Heq.
    unfold update_partitions.
    rewrite differs_flat.
    2:{ intros s Hs. split; [apply Hflat; auto |].
        now apply (Canon_flat ms (same_trans dfa g) Heq Hms_pos (new_groups st2) Hcanon). }
    cbn [bind].
    assert (Hcg : forall s, In s ms -> cls g s = rep).
    { intros s Hs. apply filter_In in Hs. apply Z.eqb_eq, Hs. }
    destruct (existsb (fun s => negb (cls g s =? cls (new_groups st2) s)) ms) eqn:Hb.
    + (* the group is split *)
      set (g' := copy_members ms g (new_groups st2)).
      exists (mk_sweep g' (new_groups st2) (unified st2)), true.
      split; [reflexivity |]. cbn [old_groups].
      assert (Hin : forall x, In x ms -> g' x = new_groups st2 x).
      { intros x Hx. unfold g'. rewrite copy_members_at.
        apply existsb_in in Hx. now rewrite Hx. }
      assert (Hout : forall x, ~ In x ms -> g' x = g x).
      { intros x Hx. unfold g'. rewrite copy_members_at.
        destruct (existsb (Z.eqb x) ms) eqn:E; [| reflexivity].
        apply existsb_in in E. contradiction. }
      split; [| split].
      * exact (replace_Inv n g Hinv rep (same_trans dfa g) Heq (new_groups st2)
                 Hcanon g' Hin Hout).
      * intros x y. exact (replace_refines n g Hinv rep (same_trans dfa g) Heq
                             (new_groups st2) Hcanon g' Hin Hout x y).
      * right. split; [reflexivity |].
        apply existsb_exists in Hb. destruct Hb as (s & Hs & Hne).
        apply negb_true_iff, Z.eqb_neq in Hne. rewrite (Hcg s Hs) in Hne.
        destruct (forallb (same_trans dfa g s) ms) eqn:Hall.
        -- exfalso. apply Hne. symmetry.
           apply (single_class_same_root n g Hinv rep (same_trans dfa g) Heq
                    (new_groups st2) Hcanon s Hs).
           intros y Hy. rewrite forallb_forall in Hall. now apply Hall.
        -- apply forallb_false_ex in Hall. destruct Hall as (y & Hy & Hsy).
           exact (replace_count n g rep (same_trans dfa g) Heq (new_groups st2)
                    Hcanon g' Hin Hout s y Hs Hy Hsy).
    + (* the group stays *)
      exists (mk_sweep g (new_groups st2) (unified st2)), updated.
      split; [reflexivity |]. cbn [old_groups].
      split; [assumption |]. split; [now intros x y _ _ H |].
      left. repeat split; auto.
      intros _ x y Hx Hy Hcx Hcy.
      assert (Hxm : In x ms).
      { apply filter_In. split; [now apply in_range | now apply Z.eqb_eq]. }
      assert (Hym : In y ms).
      { apply filter_In. split; [now apply in_range | now apply Z.eqb_eq]. }
      assert (Hsame : forall s, In s ms -> cls (new_groups st2) s = rep).
      { intros s Hs. destruct (Z.eq_dec (cls (new_groups st2) s) rep) as [E | E];
          [assumption |].
        assert (existsb (fun s => negb (cls g s =? cls (new_groups st2) s)) ms = true).
        { apply existsb_exists. exists s. split; [assumption |].
          apply negb_true_iff, Z.eqb_neq. rewrite (Hcg s Hs). congruence. }
        congruence. }
      apply (Canon_cls_iff ms (same_trans dfa g) Heq Hms_pos (new_groups st2) Hcanon);
        try assumption.
      rewrite !Hsame by assumption. reflexivity.
Qed.

Lemma partition_spec g ng un :
  0 <= n -> Inv n g ->
  exists b g',
    partition fuel dfa (mk_sweep g ng un) = Some (b, g') /\
    Inv n g' /\ refines n g' g /\
    (b = true -> (class_count n g < class_count n g')%nat) /\
    (b = false -> g' = g /\ stable dfa g).
Proof.
  intros Hn Hinv.
  set (I := fun (m : Z) (s : sweep_state * bool) =>
              let '(st, updated) := s in
              Inv n (old_groups st) /\ refines n (old_groups st) g /\
              (class_count n g <= class_count n (old_groups st))%nat /\
              (updated = true -> (class_count n g < class_count n (old_groups st))%nat) /\
              (updated = false -> old_groups st = g /\
                 forall rep, 1 <= rep <= m -> g rep < 0 ->
                 forall x y, 1 <= x <= n -> 1 <= y <= n ->
                   cls g x = rep -> cls g y = rep -> same_trans dfa g x y = true)).
  destruct (for_each_range I (partition_group fuel dfa) 1 n (mk_sweep g ng un, false))
    as ([st b] & Hrun & HI).
  - lia.
  - cbn. repeat split; auto; try lia; try discriminate.
    now intros x y _ _ H.
  - intros i [st updated] Hi (Hinv1 & Href1 & Hle1 & Hlt1 & Hst1).
    destruct (partition_group_spec (old_groups st) i st updated Hinv1 Hi eq_refl)
      as (st' & updated' & Hrun & Hinv2 & Href2 & Hres).
    fold n in Hinv2, Href2, Hres.
    exists (st', updated'). split; [exact Hrun |]. cbn.
    split; [assumption |]. split.
    { intros x y Hx Hy H. apply Href1; auto. }
    destruct Hres as [(-> & Eg & Hgrp) | (-> & Hcnt)].
    + rewrite Eg. split; [assumption |]. split; [assumption |].
      intros Hu. destruct (Hst1 Hu) as [Eg1 Hprev]. split; [assumption |].
      intros rep Hrep Hneg. destruct (Z.eq_dec rep i) as [-> | Hne].
      * rewrite Eg1 in Hgrp. now apply Hgrp.
      * apply Hprev; [lia | assumption].
    + split; [lia |]. split; [intros _; lia | discriminate].
  - exists b, (old_groups st). unfold partition. fold n. rewrite Hrun. cbn [bind].
    split; [reflexivity |]. cbn in HI. destruct HI as (Hinv1 & Href1 & Hle1 & Hlt1 & Hst1).
    repeat split; try assumption.
    + now apply Hst1.
    + destruct (Hst1 H) as [Eg Hgrp].
      intros x y Hx Hy Hs. fold n in Hx, Hy.
      pose proof Hs as Hs'. unfold same in Hs'. apply Z.eqb_eq in Hs'.
      assert (Hxin : In x (range 1 n)) by (now apply in_range).
      assert (Hyin : In y (range 1 n)) by (now apply in_range).
      destruct (Canon_cls_in _ _ (same_equiv g) (range_pos n) g Hinv x Hxin) as [Hr _].
      apply in_range in Hr.
      pose proof (Canon_root_cell _ _ (same_equiv g) (range_pos n) g Hinv x Hxin) as Hc.
      destruct (Z.eq_dec (g (cls g x)) 0) as [Ez | Enz].
      * rewrite (Canon_zero_singleton _ _ (same_equiv g) (range_pos n) g Hinv
                   x y Hxin Hyin Ez Hs).
        destruct (same_trans_equiv dfa g) as [Hrefl _]. apply Hrefl.
      * apply (Hgrp (cls g x)); auto; lia.
Qed.

(** The loop [while (partition(old_dfa, groups) == TRUE) ;] of
    [minimize_dfa]. *)
Lemma refine_spec ng un : 0 <= n ->
  forall k g, Inv n g -> (Z.to_nat n - class_count n g < k)%nat ->
  exists g',
    refine k fuel dfa g ng un = Some g' /\
    Inv n g' /\ refines n g' g /\ stable dfa g'.
Proof.
  intros Hn. induction k as [| k IH]; intros g Hinv Hk; [lia |].
  cbn [refine].
  destruct (partition_spec g ng un Hn Hinv) as (b & g1 & Hrun & Hinv1 & Href1 & Hlt & Hst).
  rewrite Hrun. cbn [bind]. destruct b.
  - specialize (Hlt eq_refl). pose proof (class_count_le n g1) as Hle.
    destruct (IH g1 Hinv1) as (g2 & Hrun2 & Hinv2 & Href2 & Hst2); [lia |].
    exists g2. split; [assumption |]. split; [assumption |].
    split; [| assumption].
    intros x y Hx Hy Hxy. apply Href1; auto.
  - destruct (Hst eq_refl) as [-> Hstable].
    exists g. split; [reflexivity |]. split; [assumption |].
    split; [now intros x y _ _ Hxy | assumption].
Qed.

End Sweep.

(* ===================================================================== *)
(** ** partit.c: [init_partitions] *)
(* ===================================================================== *)

Lemma Canon_same ms eqv v :
  Equiv eqv -> (forall t, In t ms -> 0 < t) ->
  Canon ms eqv v -> Canon ms (same v) v.
Proof.
  intros Heq Hpos Hc x Hx.
  replace (filter (same v x) ms) with (filter (eqv x) ms); [now apply Hc |].
  apply filter_ext_in. intros y Hy. apply eq_true_iff_eq. unfold same.
  rewrite Z.eqb_eq. symmetry. now apply (Canon_cls_iff ms eqv Heq Hpos v Hc).
Qed.

Section Init.

Variable fuel : nat.
Hypothesis fuel_ok : (2 <= fuel)%nat.
Variable attribs : array ascii.

Lemma eqA_equiv : Equiv (eqA attribs).
Proof.
  unfold eqA, cat. repeat split.
  - intros x. apply eqb_reflx.
  - intros x y H. apply eqb_prop in H. rewrite H. apply eqb_reflx.
  - intros x y z H1 H2. apply eqb_prop in H1, H2. rewrite H2, H1. apply eqb_reflx.
Qed.

Lemma filter_snoc (p : Z -> bool) l i :
  filter p (l ++ [i]) = filter p l ++ (if p i then [i] else []).
Proof. rewrite filter_app. reflexivity. Qed.

Lemma hd_filter_zero (p : Z -> bool) l :
  (forall t, In t l -> 0 < t) -> hd 0 (filter p l) = 0 -> filter p l = [].
Proof.
  intros Hpos H. destruct (filter p l) as [| a tl] eqn:E; [reflexivity |].
  cbn [hd] in H. assert (In a (filter p l)) by (rewrite E; simpl; auto).
  apply filter_In in H0. destruct H0 as [H0 _]. apply Hpos in H0. lia.
Qed.

(** One iteration of the second loop of [init_partitions], for the
    category [b] of the state [i]. *)
Lemma init_step P i b g rb :
  NoDup (P ++ [i]) -> (forall t, In t (P ++ [i]) -> 0 < t) ->
  isA attribs i = b -> Canon P (eqA attribs) g -> g i = 0 ->
  rb = hd 0 (filter (cat attribs b) P) ->
  exists g',
    (if rb =? 0 then Some g else Union fuel rb i g) = Some g' /\
    Canon (P ++ [i]) (eqA attribs) g' /\
    (forall t, ~ In t (P ++ [i]) -> g' t = g t) /\
    (if rb =? 0 then i else rb) = hd 0 (filter (cat attribs b) (P ++ [i])) /\
    filter (cat attribs (negb b)) (P ++ [i]) = filter (cat attribs (negb b)) P.
Proof.
  intros Hnd Hpos Hb Hc Hgi Hrb.
  assert (HposP : forall t, In t P -> 0 < t).
  { intros t Ht. apply Hpos. apply in_app_iff. auto. }
  assert (HiP : ~ In i P).
  { apply NoDup_remove_2 in Hnd. now rewrite app_nil_r in Hnd. }
  assert (Hcati : cat attribs b i = true) by (unfold cat; rewrite Hb; apply eqb_reflx).
  assert (Hcatn : cat attribs (negb b) i = false).
  { unfold cat. rewrite Hb. now destruct b. }
  assert (Hother : filter (cat attribs (negb b)) (P ++ [i]) = filter (cat attribs (negb b)) P).
  { rewrite filter_snoc, Hcatn. apply app_nil_r. }
  assert (Hmine : filter (cat attribs b) (P ++ [i]) = filter (cat attribs b) P ++ [i]).
  { rewrite filter_snoc, Hcati. reflexivity. }
  assert (Hcls : forall x, filter ((eqA attribs) x) (P ++ [i]) = filter (cat attribs (isA attribs x)) (P ++ [i]))
    by reflexivity.
  assert (Hcat_cases : forall x, isA attribs x = b \/ isA attribs x = negb b).
  { intros x. destruct (isA attribs x), b; auto. }
  destruct (Z.eqb_spec rb 0) as [Erb | Erb].
  - (* first state of its category *)
    rewrite Erb in Hrb. symmetry in Hrb. apply hd_filter_zero in Hrb; [| assumption].
    exists g. split; [reflexivity |]. split; [| split; [auto | split; [| assumption]]].
    + intros x Hx. rewrite Hcls. destruct (Hcat_cases x) as [E | E]; rewrite E.
      * rewrite Hmine, Hrb. cbn [app CanonAt]. assumption.
      * rewrite Hother. apply in_app_iff in Hx. destruct Hx as [Hx | [<- | []]].
        -- rewrite <- E. now apply Hc.
        -- rewrite Hb in E. now destruct b.
    + rewrite Hmine, Hrb. reflexivity.
  - (* united with the first state of its category *)
    destruct (filter (cat attribs b) P) as [| a cd] eqn:Ef; cbn [hd] in Hrb; [contradiction |].
    subst rb.
    assert (Hmine' : filter (cat attribs b) (P ++ [i]) = (a :: cd) ++ [i]).
    { rewrite filter_snoc, Hcati, Ef. reflexivity. }
    assert (Ha : In a P).
    { assert (In a (filter (cat attribs b) P)) by (rewrite Ef; simpl; auto).
      now apply filter_In in H. }
    assert (Hca : cat attribs b a = true).
    { assert (In a (filter (cat attribs b) P)) by (rewrite Ef; simpl; auto).
      now apply filter_In in H. }
    assert (Eab : isA attribs a = b) by (unfold cat in Hca; now apply eqb_prop in Hca).
    assert (Hcanon_a : CanonAt g (a :: cd)).
    { rewrite <- Ef, <- Eab. now apply Hc. }
    assert (Hnd1 : NoDup (a :: cd ++ [i])).
    { change (a :: cd ++ [i]) with ((a :: cd) ++ [i]). rewrite <- Hmine'.
      now apply NoDup_filter. }
    assert (Hsub : forall t, In t (a :: cd ++ [i]) -> In t (P ++ [i])).
    { intros t Ht. change (a :: cd ++ [i]) with ((a :: cd) ++ [i]) in Ht.
      rewrite <- Hmine' in Ht. now apply filter_In in Ht. }
    destruct (Union_canon_step fuel g a cd i fuel_ok Hcanon_a Hgi Hnd1)
      as (g' & Hun & Hc' & Hfr); [intros t Ht; apply Hpos, Hsub, Ht |].
    exists g'. split; [exact Hun |]. split; [| split; [| split; [| assumption]]].
    + intros x Hx. rewrite Hcls. destruct (Hcat_cases x) as [E | E]; rewrite E.
      * rewrite Hmine'. exact Hc'.
      * rewrite Hother.
        assert (HxP : In x P).
        { apply in_app_iff in Hx. destruct Hx as [Hx | [<- | []]]; [assumption |].
          rewrite Hb in E. now destruct b. }
        apply CanonAt_ext with (v := g); [| rewrite <- E; now apply Hc].
        intros t Ht. apply Hfr. intros Hin.
        change (a :: cd ++ [i]) with ((a :: cd) ++ [i]) in Hin.
        rewrite <- Hmine' in Hin.
        apply filter_In in Ht, Hin. destruct Ht as [_ Ht], Hin as [_ Hin].
        unfold cat in Ht, Hin. apply eqb_prop in Ht, Hin.
        rewrite Ht in Hin. now destruct b.
    + intros t Ht. apply Hfr. intros Hin. apply Ht, Hsub, Hin.
    + rewrite Hmine'. reflexivity.
Qed.

Lemma clear_groups l : forall g x,
  fold_left (fun g i => upd g i 0) l g x = if existsb (Z.eqb x) l then 0 else g x.
Proof.
  induction l as [| i l IH]; intros g x; cbn [fold_left existsb]; [reflexivity |].
  rewrite IH. destruct (existsb (Z.eqb x) l); [now rewrite orb_true_r |].
  rewrite orb_false_r. unfold upd. reflexivity.
Qed.

Lemma init_partitions_spec n groups : 0 <= n ->
  exists g,
    init_partitions fuel n attribs groups = Some g /\
    Inv n g /\
    (forall x y, 1 <= x <= n -> 1 <= y <= n ->
       (same g x y = true <-> isA attribs x = isA attribs y)).
Proof.
  intros Hn. unfold init_partitions.
  set (g0 := fold_left (fun g i => upd g i 0) (range 1 n) groups).
  assert (Hg0 : forall x, 1 <= x <= n -> g0 x = 0).
  { intros x Hx. unfold g0. rewrite clear_groups.
    apply in_range, existsb_in in Hx. now rewrite Hx. }
  set (I := fun (m : Z) (s : Z * Z * array Z) =>
              let '(accept_rep, others_rep, g) := s in
              Canon (range 1 m) (eqA attribs) g /\
              (forall x, m < x <= n -> g x = 0) /\
              accept_rep = hd 0 (filter (cat attribs true) (range 1 m)) /\
              others_rep = hd 0 (filter (cat attribs false) (range 1 m))).
  match goal with
  | |- context [for_each _ ?body _] =>
      destruct (for_each_range I body 1 n (0, 0, g0)) as ([[ar orr] g] & Hrun & HI)
  end.
  - lia.
  - unfold I. change (1 - 1) with 0. rewrite (range_empty 1 0) by lia.
    cbn [filter hd]. split; [intros x [] |].
    split; [intros x Hx; apply Hg0; lia |]. split; reflexivity.
  - intros i [[ar orr] g] Hi (Hc & Hz & Har & Hor).
    assert (Hr : range 1 i = range 1 (i - 1) ++ [i]) by (apply range_snoc; lia).
    assert (Hnd : NoDup (range 1 (i - 1) ++ [i])) by (rewrite <- Hr; apply range_NoDup).
    assert (Hpos : forall t, In t (range 1 (i - 1) ++ [i]) -> 0 < t).
    { intros t Ht. rewrite <- Hr in Ht. now apply range_pos in Ht. }
    assert (Hgi : g i = 0) by (apply Hz; lia).
    assert (Hframe : forall g', (forall t, ~ In t (range 1 (i - 1) ++ [i]) -> g' t = g t) ->
                                forall x, i < x <= n -> g' x = 0).
    { intros g' Hfr x Hx. rewrite Hfr; [apply Hz; lia |].
      rewrite <- Hr. rewrite in_range. lia. }
    fold (isA attribs i). destruct (isA attribs i) eqn:EA.
    + destruct (init_step (range 1 (i - 1)) i true g ar Hnd Hpos EA Hc Hgi Har)
        as (g' & Hrun & Hc' & Hfr & Hrb & Hoth).
      cbn [negb] in Hoth. rewrite <- Hr in Hc', Hrb, Hoth.
      destruct (ar =? 0).
      * injection Hrun as <-. eexists. split; [reflexivity |]. cbn.
        repeat split; auto. now rewrite Hoth.
      * rewrite Hrun. cbn [bind]. eexists. split; [reflexivity |]. cbn.
        repeat split; auto. now rewrite Hoth.
    + destruct (init_step (range 1 (i - 1)) i false g orr Hnd Hpos EA Hc Hgi Hor)
        as (g' & Hrun & Hc' & Hfr & Hrb & Hoth).
      cbn [negb] in Hoth. rewrite <- Hr in Hc', Hrb, Hoth.
      destruct (orr =? 0).
      * injection Hrun as <-. eexists. split; [reflexivity |]. cbn.
        repeat split; auto. now rewrite Hoth.
      * rewrite Hrun. cbn [bind]. eexists. split; [reflexivity |]. cbn.
        repeat split; auto. now rewrite Hoth.
  - cbn in HI. destruct HI as (Hc & _).
    exists g. rewrite Hrun. cbn [bind]. split; [reflexivity |].
    split; [exact (Canon_same _ _ _ eqA_equiv (range_pos n) Hc) |].
    intros x y Hx Hy. unfold same. rewrite Z.eqb_eq.
    rewrite (Canon_cls_iff _ _ eqA_equiv (range_pos n) g Hc x y)
      by (now apply in_range).
    unfold eqA, cat. split; intros H.
    + apply eqb_prop in H. auto.
    + rewrite H. apply eqb_reflx.
Qed.

End Init.

(* ===================================================================== *)
(** ** main.c: [compress_dfa] *)
(* ===================================================================== *)

Lemma root_self g r : g r <= 0 -> root g r r.
Proof. intros H. exists O. now constructor. Qed.

Lemma root_cell g e r : root g e r -> g r <= 0.
Proof. intros [d H]. eapply chain_root_cell; eauto. Qed.

Section Compress.

Variable fuel : nat.
Variable n : Z.
Variable g : array Z.
Hypothesis n_nonneg : 0 <= n.
Hypothesis fuel_ok : (Z.to_nat n <= fuel)%nat.
Hypothesis g_wf : wf n g.

Lemma compress_scan_spec map0 pam0 rep0 :
  map0 0 = 0 -> rep0 0 = 0 ->
  exists sc,
    compress_scan fuel n (mk_scan g map0 pam0 rep0 0) = Some sc /\ scan_inv n g n sc.
Proof.
  intros Hm0 Hr0. unfold compress_scan.
  apply (for_each_range (scan_inv n g)); [lia | |].
  - unfold scan_inv. cbn [sc_groups sc_map sc_pam sc_rep rep_count].
    split; [assumption |]. split; [reflexivity |].
    split; [assumption |]. split; [assumption |]. split; [lia |].
    split; [intros x Hx; lia |]. split; [intros r Hr; lia | intros t Ht; lia].
  - intros i sc Hi (Hwf & Hroots & Hrep0 & Hmap0 & Hrc & Hrep & Hmap & Hpam).
    destruct (find_spec n (sc_groups sc) i fuel Hwf ltac:(lia) fuel_ok)
      as (r & g1 & Hf & Hri & Hr & Hwf1 & Hroots1 & _).
    rewrite Hf. cbn [bind]. rewrite upd_eq.
    assert (Hri' : root g i r) by (apply Hroots; [lia | assumption]).
    assert (Hroots' : forall x rx, 1 <= x <= n -> (root g1 x rx <-> root g x rx)).
    { intros x rx Hx. rewrite Hroots1 by assumption. now apply Hroots. }
    assert (Hrep' : forall x, 1 <= x <= i -> root g x (upd (sc_rep sc) i r x)).
    { intros x Hx. destruct (Z.eq_dec x i) as [-> | Hne];
        [now rewrite upd_eq | rewrite upd_neq by assumption; apply Hrep; lia]. }
    destruct (Z.eqb_spec i r) as [E | E].
    + subst r. eexists. split; [reflexivity |].
      unfold scan_inv. cbn [sc_groups sc_map sc_pam sc_rep rep_count].
      split; [assumption |]. split; [assumption |].
      split; [rewrite upd_neq by lia; assumption |].
      split; [rewrite upd_neq by lia; assumption |].
      split; [lia |]. split; [assumption |]. split.
      * intros r Hr' Hrr. destruct (Z.eq_dec r i) as [-> | Hne].
        -- rewrite !upd_eq. split; [lia | reflexivity].
        -- rewrite (upd_neq (sc_map sc)) by assumption.
           destruct (Hmap r) as [H1 H2]; [lia | assumption |].
           rewrite upd_neq by lia. split; [lia | assumption].
      * intros t Ht. destruct (Z.eq_dec t (rep_count sc + 1)) as [-> | Hne].
        -- rewrite !upd_eq. split; [lia |]. split; [assumption | reflexivity].
        -- rewrite (upd_neq (sc_pam sc)) by assumption.
           destruct (Hpam t) as (H1 & H2 & H3); [lia |].
           rewrite upd_neq by lia. split; [lia |]. split; assumption.
    + eexists. split; [reflexivity |].
      unfold scan_inv. cbn [sc_groups sc_map sc_pam sc_rep rep_count].
      split; [assumption |]. split; [assumption |].
      split; [rewrite upd_neq by lia; assumption |].
      split; [assumption |].
      split; [lia |]. split; [assumption |]. split.
      * intros r' Hr' Hrr. destruct (Z.eq_dec r' i) as [-> | Hne].
        -- exfalso. apply E. exact (root_fun _ _ _ _ Hrr Hri').
        -- apply Hmap; [lia | assumption].
      * intros t Ht. destruct (Hpam t Ht) as (H1 & H2 & H3).
        split; [lia |]. split; assumption.
Qed.

End Compress.

Section Fill.

Variable old_dfa : automaton_t.
Variable sc : scan_state.

Lemma fill_row_at (i : Z) (F : Z -> Z) l : forall (m : Z -> Z -> Z) a b,
  fold_left (fun m j => upd2 m i j (F j)) l m a b
  = if (a =? i) && existsb (Z.eqb b) l then F b else m a b.
Proof.
  induction l as [| j l IH]; intros m a b; cbn [fold_left existsb].
  - now rewrite andb_false_r.
  - rewrite IH. destruct (Z.eqb_spec a i) as [-> | Ha]; cbn [andb].
    + destruct (existsb (Z.eqb b) l); [now rewrite orb_true_r |].
      rewrite orb_false_r. unfold upd2. rewrite Z.eqb_refl. cbn [andb].
      destruct (Z.eqb_spec b j) as [-> |]; reflexivity.
    + apply upd2_neq. auto.
Qed.

Lemma compress_fill_spec fs0 :
  0 <= rep_count sc ->
  fill_inv old_dfa sc fs0 (rep_count sc) (compress_fill old_dfa sc fs0).
Proof.
  intros Hrc. unfold compress_fill.
  apply (fold_left_range (fill_inv old_dfa sc fs0)); [lia | |].
  - unfold fill_inv. repeat split; intros; try lia; try reflexivity.
  - intros i fs Hi (Hmat & Hmat' & Hat & Hat' & Hac & Hacc & Hacc' & Hall).
    set (m' := fold_left _ (range 1 (nab old_dfa)) (f_mat fs)).
    assert (Hm' : forall a b, m' a b =
              if (a =? i) && ((1 <=? b) && (b <=? nab old_dfa))
              then sc_map sc (sc_rep sc (mat old_dfa (sc_pam sc i) b))
              else f_mat fs a b).
    { intros a b. unfold m'.
      rewrite (fill_row_at i
                 (fun j => sc_map sc (sc_rep sc (mat old_dfa (sc_pam sc i) j)))).
      now rewrite existsb_range. }
    assert (Hmat1 : forall a b, 1 <= a <= i -> 1 <= b <= nab old_dfa ->
              m' a b = sc_map sc (sc_rep sc (mat old_dfa (sc_pam sc a) b))).
    { intros a b Ha Hb. rewrite Hm'. destruct (Z.eqb_spec a i) as [-> | Hne]; cbn [andb].
      - destruct (Z.leb_spec 1 b); [| lia]. destruct (Z.leb_spec b (nab old_dfa)); [| lia].
        reflexivity.
      - apply Hmat; lia. }
    assert (Hmat2 : forall a b, ~ (1 <= a <= i /\ 1 <= b <= nab old_dfa) ->
              m' a b = f_mat fs0 a b).
    { intros a b Hab. rewrite Hm'. destruct (Z.eqb_spec a i) as [-> | Hne]; cbn [andb].
      - destruct (Z.leb_spec 1 b); cbn [andb]; [| apply Hmat'; lia].
        destruct (Z.leb_spec b (nab old_dfa)); [lia | apply Hmat'; lia].
      - apply Hmat'. lia. }
    set (at' := upd (f_attrib fs) i (state_attrib old_dfa (sc_pam sc i))).
    assert (Hat1 : forall a, 1 <= a <= i -> at' a = state_attrib old_dfa (sc_pam sc a)).
    { intros a Ha. unfold at'. destruct (Z.eq_dec a i) as [-> | Hne];
        [apply upd_eq | rewrite upd_neq by assumption; apply Hat; lia]. }
    assert (Hat2 : forall a, ~ 1 <= a <= i -> at' a = f_attrib fs0 a).
    { intros a Ha. unfold at'. rewrite upd_neq by lia. apply Hat'. lia. }
    destruct (Ascii.eqb_spec (at' i) attr_A) as [EA | EA].
    + unfold fill_inv. cbn [f_mat f_attrib f_accept a_count].
      split; [assumption |]. split; [assumption |]. split; [assumption |].
      split; [assumption |]. split; [lia |]. split; [| split].
      * intros k Hk. destruct (Z.eq_dec k (a_count fs)) as [-> | Hne].
        -- rewrite upd_eq. split; [lia | assumption].
        -- rewrite upd_neq by assumption.
           destruct (Hacc k) as [H1 H2]; [lia |]. split; [lia |].
           unfold at'. rewrite upd_neq by lia. assumption.
      * intros k Hk. rewrite upd_neq by lia. apply Hacc'. lia.
      * intros a Ha HaA. destruct (Z.eq_dec a i) as [-> | Hne].
        -- exists (a_count fs). split; [lia | apply upd_eq].
        -- unfold at' in HaA. rewrite upd_neq in HaA by assumption.
           destruct (Hall a) as (k & Hk & Ek); [lia | assumption |].
           exists k. split; [lia |]. rewrite upd_neq by lia. assumption.
    + unfold fill_inv. cbn [f_mat f_attrib f_accept a_count].
      split; [assumption |]. split; [assumption |]. split; [assumption |].
      split; [assumption |]. split; [lia |]. split; [| split].
      * intros k Hk. destruct (Hacc k Hk) as [H1 H2]. split; [lia |].
        unfold at'. rewrite upd_neq by lia. assumption.
      * assumption.
      * intros a Ha HaA. destruct (Z.eq_dec a i) as [-> | Hne]; [contradiction |].
        unfold at' in HaA. rewrite upd_neq in HaA by assumption.
        apply Hall; [lia | assumption].
Qed.

End Fill.

Lemma Inv_root n g x : Inv n g -> 1 <= x <= n -> root g x (cls g x).
Proof.
  intros Hinv Hx. unfold cls. destruct (Z.gtb_spec (g x) 0) as [Hpos | Hneg].
  - exists 1%nat. apply chain_step; [lia |]. constructor.
    now apply (Inv_flat n g Hinv x).
  - exists O. now constructor.
Qed.

Lemma Inv_wf n g : Inv n g -> wf n g.
Proof.
  intros Hinv x Hx. split.
  - intros Hpos. apply in_range.
    apply (Canon_parent_in _ _ (same_equiv g) (range_pos n) g Hinv);
      [now apply in_range | assumption].
  - exists (cls g x). now apply Inv_root with n.
Qed.

Lemma Inv_cls_in n g x : Inv n g -> 1 <= x <= n -> 1 <= cls g x <= n.
Proof.
  intros Hinv Hx. apply in_range.
  apply (Canon_cls_in _ _ (same_equiv g) (range_pos n) g Hinv).
  now apply in_range.
Qed.

Section CompressDfa.

Variable fuel : nat.
Variables old_dfa new_dfa : automaton_t.
Variable g : array Z.
Variables map0 pam0 rep0 : array Z.
Let n := nstates old_dfa.

Hypothesis n_nonneg : 0 <= n.
Hypothesis fuel_ok : (Z.to_nat n <= fuel)%nat.
Hypothesis g_wf : wf n g.

Lemma compress_dfa_spec :
  exists out sc ac,
    compress_dfa fuel old_dfa new_dfa g map0 pam0 rep0 = Some (out, sc, ac) /\
    scan_inv n g n sc /\
    fill_inv old_dfa sc
      (mk_fill (mat new_dfa) (state_attrib new_dfa) (accept new_dfa) 0)
      (rep_count sc)
      (mk_fill (mat out) (state_attrib out) (accept out) ac) /\
    nstates out = rep_count sc /\ nab out = nab old_dfa /\
    init_state out = sc_map sc (sc_rep sc (init_state old_dfa)).
Proof.
  destruct (compress_scan_spec fuel n g n_nonneg fuel_ok g_wf
              (upd map0 0 0) (upd pam0 0 0) (upd rep0 0 0))
    as (sc & Hscan & Hinv); [apply upd_eq | apply upd_eq |].
  unfold compress_dfa. fold n. rewrite Hscan. cbn [bind].
  eexists. exists sc. eexists. split; [reflexivity |].
  split; [assumption |].
  cbn [mat state_attrib accept nstates nab init_state].
  split; [| auto].
  pose proof (compress_fill_spec old_dfa sc
                (mk_fill (mat new_dfa) (state_attrib new_dfa) (accept new_dfa) 0)) as H.
  destruct (compress_fill old_dfa sc _) as [fm fa fc ac].
  apply H. destruct Hinv as (_ & _ & _ & _ & Hrc & _). lia.
Qed.

(** The composite [map[rep[.]]] sends an old state to the new id of its
    class, and the sink to the sink. *)
Lemma scan_map_rep sc x :
  scan_inv n g n sc -> 1 <= x <= n ->
  exists r, root g x r /\ sc_rep sc x = r /\ 1 <= r <= n /\
            1 <= sc_map sc r <= rep_count sc /\ sc_pam sc (sc_map sc r) = r.
Proof.
  intros (_ & _ & _ & _ & _ & Hrep & Hmap & _) Hx.
  exists (sc_rep sc x). pose proof (Hrep x Hx) as Hr.
  assert (Hrr : 1 <= sc_rep sc x <= n) by (eapply root_in_range; eauto).
  split; [assumption |]. split; [reflexivity |]. split; [assumption |].
  apply Hmap; [assumption |]. apply root_self. eapply root_cell; eauto.
Qed.

Lemma scan_map_rep_range sc t :
  scan_inv n g n sc -> 0 <= t <= n ->
  0 <= sc_map sc (sc_rep sc t) <= rep_count sc.
Proof.
  clear fuel_ok n_nonneg.
  intros Hinv Ht. destruct (Z.eq_dec t 0) as [-> | Hne].
  - destruct Hinv as (_ & _ & Hr0 & Hm0 & Hrc & _). rewrite Hr0, Hm0. lia.
  - destruct (scan_map_rep sc t Hinv) as (r & _ & -> & _ & H & _); lia.
Qed.

End CompressDfa.

(* ===================================================================== *)
(** ** Runs of a DFA *)
(* ===================================================================== *)

Section Runs.

Variable dfa : automaton_t.
Hypothesis dfa_ok : trans_ok dfa.

Lemma delta_range s j :
  0 <= s <= nstates dfa -> 1 <= j <= nab dfa -> 0 <= delta dfa s j <= nstates dfa.
Proof.
  intros Hs Hj. unfold delta. destruct (Z.eqb_spec s 0); [lia |].
  apply dfa_ok; lia.
Qed.

Lemma run_sink w : run dfa 0 w = 0.
Proof. induction w as [| j w IH]; [reflexivity | exact IH]. Qed.

Lemma run_range w : forall s,
  0 <= s <= nstates dfa -> word_ok dfa w -> 0 <= run dfa s w <= nstates dfa.
Proof.
  induction w as [| j w IH]; intros s Hs Hw; [exact Hs |].
  cbn [run]. apply IH.
  - apply delta_range; [assumption | apply Hw; simpl; auto].
  - intros k Hk. apply Hw. simpl. auto.
Qed.

Lemma run_reach w : forall s,
  0 <= s <= nstates dfa -> word_ok dfa w -> 0 < run dfa s w ->
  reach dfa s (run dfa s w).
Proof.
  induction w as [| j w IH]; intros s Hs Hw Hpos; [apply rt_refl |].
  cbn [run] in *.
  assert (Hj : 1 <= j <= nab dfa) by (apply Hw; simpl; auto).
  assert (Hw' : word_ok dfa w) by (intros k Hk; apply Hw; simpl; auto).
  pose proof (delta_range s j Hs Hj) as Hd.
  destruct (Z.eq_dec (delta dfa s j) 0) as [E | E].
  - rewrite E, run_sink in Hpos. lia.
  - apply rt_trans with (delta dfa s j); [| now apply IH].
    apply rt_step. exists j. split; [assumption |]. split; [| lia].
    unfold delta in *. destruct (Z.eqb_spec s 0); [contradiction | reflexivity].
Qed.

End Runs.

(* ===================================================================== *)
(** ** The compressed automaton simulates the input automaton *)
(* ===================================================================== *)

Section Simulation.

Variable D : automaton_t.
Variable g : array Z.
Variable sc : scan_state.
Variable out : automaton_t.
Variable fs0 : fill_state.
Variable ac : Z.
Let n := nstates D.

Hypothesis D_ok : trans_ok D.
Hypothesis g_inv : Inv n g.
Hypothesis g_stable : stable D g.
Hypothesis g_attr : forall x y, 1 <= x <= n -> 1 <= y <= n ->
  same g x y = true -> isA (state_attrib D) x = isA (state_attrib D) y.
Hypothesis sc_ok : scan_inv n g n sc.
Hypothesis fill_ok :
  fill_inv D sc fs0 (rep_count sc)
    (mk_fill (mat out) (state_attrib out) (accept out) ac).
Hypothesis out_nstates : nstates out = rep_count sc.
Hypothesis out_nab : nab out = nab D.
Hypothesis out_init : init_state out = sc_map sc (sc_rep sc (init_state D)).

Lemma newid_zero : newid sc 0 = 0.
Proof.
  unfold newid. destruct sc_ok as (_ & _ & Hr0 & Hm0 & _). now rewrite Hr0.
Qed.

Lemma newid_pos x : 1 <= x <= n ->
  sc_rep sc x = cls g x /\ 1 <= newid sc x <= rep_count sc /\
  sc_pam sc (newid sc x) = cls g x.
Proof.
  intros Hx. unfold newid.
  destruct (scan_map_rep D g (Inv_wf n g g_inv) sc x sc_ok Hx) as (r & Hroot & Hrep & Hr & Hmap & Hpam).
  assert (E : r = cls g x) by (eapply root_fun; eauto using Inv_root).
  rewrite Hrep, <- E. auto.
Qed.

Lemma rep_cl0 t : 0 <= t <= n -> sc_rep sc t = cl0 g t.
Proof.
  intros Ht. unfold cl0. destruct (Z.gtb_spec t 0).
  - apply newid_pos. lia.
  - assert (t = 0) by lia. subst. apply sc_ok.
Qed.

Lemma out_mat x j : 1 <= x <= n -> 1 <= j <= nab D ->
  mat out (newid sc x) j = newid sc (mat D x j).
Proof.
  intros Hx Hj. destruct (newid_pos x Hx) as (_ & Hid & Hpam).
  destruct fill_ok as (Hmat & _). cbn [f_mat] in Hmat.
  rewrite Hmat by assumption. rewrite Hpam. unfold newid. f_equal.
  pose proof (Inv_cls_in n g x g_inv Hx) as Hc.
  rewrite !rep_cl0 by (apply D_ok; assumption).
  assert (Hs : same g (cls g x) x = true).
  { unfold same. apply Z.eqb_eq.
    apply (Canon_cls_idem _ _ (same_equiv g) (range_pos n) g g_inv).
    now apply in_range. }
  apply g_stable in Hs; try assumption.
  unfold same_trans in Hs. rewrite forallb_forall in Hs.
  apply Z.eqb_eq, Hs. now apply in_range.
Qed.

Lemma out_attr x : 1 <= x <= n ->
  Ascii.eqb (state_attrib out (newid sc x)) attr_A = Ascii.eqb (state_attrib D x) attr_A.
Proof.
  intros Hx. destruct (newid_pos x Hx) as (_ & Hid & Hpam).
  destruct fill_ok as (_ & _ & Hat & _). cbn [f_attrib] in Hat.
  rewrite Hat by assumption. rewrite Hpam.
  pose proof (Inv_cls_in n g x g_inv Hx) as Hc.
  apply (g_attr (cls g x) x Hc Hx).
  unfold same. apply Z.eqb_eq.
  apply (Canon_cls_idem _ _ (same_equiv g) (range_pos n) g g_inv).
  now apply in_range.
Qed.

Lemma out_trans_ok : trans_ok out.
Proof.
  intros s j Hs Hj. rewrite out_nstates in *. rewrite out_nab in Hj.
  destruct fill_ok as (Hmat & _). cbn [f_mat] in Hmat.
  rewrite Hmat by assumption.
  destruct sc_ok as (_ & _ & _ & _ & _ & _ & _ & Hpam).
  destruct (Hpam s Hs) as (Hp & _).
  apply (scan_map_rep_range D g (Inv_wf n g g_inv) sc _ sc_ok). apply D_ok; assumption.
Qed.

Lemma delta_sim s j : 0 <= s <= n -> 1 <= j <= nab D ->
  delta out (newid sc s) j = newid sc (delta D s j).
Proof.
  intros Hs Hj. unfold delta. destruct (Z.eqb_spec s 0) as [-> | Hne].
  - now rewrite newid_zero.
  - destruct (newid_pos s) as (_ & Hid & _); [lia |].
    destruct (Z.eqb_spec (newid sc s) 0); [lia |]. apply out_mat; [lia | assumption].
Qed.

Lemma run_sim w : forall s, 0 <= s <= n -> word_ok D w ->
  run out (newid sc s) w = newid sc (run D s w).
Proof.
  induction w as [| j w IH]; intros s Hs Hw; [reflexivity |].
  cbn [run].
  assert (Hj : 1 <= j <= nab D) by (apply Hw; simpl; auto).
  rewrite delta_sim by assumption. apply IH.
  - now apply delta_range.
  - intros k Hk. apply Hw. simpl. auto.
Qed.

End Simulation.

(* ===================================================================== *)
(** ** Soundness of the executable checks *)
(* ===================================================================== *)

Lemma trans_okb_sound dfa : trans_okb dfa = true -> trans_ok dfa.
Proof.
  unfold trans_okb. intros H s j Hs Hj.
  rewrite forallb_forall in H. specialize (H s ltac:(now apply in_range)).
  rewrite forallb_forall in H. specialize (H j ltac:(now apply in_range)).
  apply andb_true_iff in H. destruct H as [H1 H2].
  apply Z.leb_le in H1, H2. lia.
Qed.

Lemma accept_list_okb_sound dfa : accept_list_okb dfa = true -> accept_list_ok dfa.
Proof.
  unfold accept_list_okb. intros H. apply existsb_exists in H.
  destruct H as (k & Hk & H). apply in_range in Hk.
  apply andb_true_iff in H. destruct H as [Hz Hall]. apply Z.eqb_eq in Hz.
  exists k. split; [assumption |]. split; [assumption |].
  intros j Hj. rewrite forallb_forall in Hall.
  specialize (Hall j ltac:(apply in_range; lia)).
  apply andb_true_iff in Hall. destruct Hall as [Hr Ha].
  apply andb_true_iff in Hr. destruct Hr as [H1 H2].
  apply Z.leb_le in H1, H2. apply Ascii.eqb_eq in Ha. auto.
Qed.

Lemma valid_dfab_sound dfa : valid_dfab dfa = true -> valid_dfa dfa.
Proof.
  unfold valid_dfab. intros H.
  repeat (apply andb_true_iff in H; destruct H as [H ?]).
  repeat match goal with
         | X : (_ <=? _) = true |- _ => apply Z.leb_le in X
         | X : (_ =? _) = true |- _ => apply Z.eqb_eq in X
         end.
  unfold valid_dfa.
  split; [lia |]. split; [lia |].
  split; [now apply trans_okb_sound |].
  split; [assumption |]. split; [now apply accept_list_okb_sound |].
  intros s Hs E.
  match goal with
  | X : forallb _ _ = true |- _ =>
      rewrite forallb_forall in X; specialize (X s ltac:(now apply in_range));
      rewrite E in X; discriminate X
  end.
Qed.

Lemma find_root_sound rep : forall fuel e r,
  find_root fuel rep e = Some r -> root rep e r.
Proof.
  induction fuel as [| f IH]; intros e r H; [discriminate |].
  cbn [find_root] in H. destruct (Z.gtb_spec (rep e) 0) as [Hpos | Hneg].
  - destruct (IH _ _ H) as [d Hd]. exists (S d). now apply chain_step.
  - injection H as <-. exists O. now constructor.
Qed.

Lemma wfb_sound n rep : wfb n rep = true -> wf n rep.
Proof.
  unfold wfb. intros H e He. rewrite forallb_forall in H.
  specialize (H e ltac:(now apply in_range)).
  apply andb_true_iff in H. destruct H as [Hr Hf]. split.
  - intros Hpos. apply orb_true_iff in Hr. destruct Hr as [Hr | Hr].
    + apply Z.leb_le in Hr. lia.
    + apply andb_true_iff in Hr. destruct Hr as [H1 H2].
      apply Z.leb_le in H1, H2. lia.
  - destruct (find_root (S (Z.to_nat n)) rep e) as [r |] eqn:E; [| discriminate].
    exists r. eapply find_root_sound; eauto.
Qed.

(* ===================================================================== *)
(** ** The refinement loop as a whole *)
(* ===================================================================== *)

Lemma final_partition_spec fuel D groups w :
  (2 <= fuel)%nat -> (Z.to_nat (nstates D) <= fuel)%nat ->
  trans_ok D -> 1 <= nstates D ->
  exists g,
    final_partition fuel D groups w = Some g /\
    Inv (nstates D) g /\ stable D g /\
    (forall x y, 1 <= x <= nstates D -> 1 <= y <= nstates D ->
       same g x y = true -> isA (state_attrib D) x = isA (state_attrib D) y).
Proof.
  intros Hf2 Hfn Hok Hn.
  destruct (init_partitions_spec fuel Hf2 (state_attrib D) (nstates D) groups)
    as (g0 & Hinit & Hinv0 & Hsame0); [lia |].
  pose proof (class_count_pos (nstates D) g0 Hn Hinv0) as Hpos.
  destruct (refine_spec fuel D Hf2 Hok (w_new_groups w) (w_unified w) ltac:(lia)
              fuel g0 Hinv0 ltac:(lia)) as (g & Hrun & Hinv & Href & Hst).
  exists g. unfold final_partition. rewrite Hinit. cbn [bind].
  split; [assumption |]. split; [assumption |]. split; [assumption |].
  intros x y Hx Hy H. apply Hsame0; auto.
Qed.

Lemma reached_Inv fuel D g0 g :
  (2 <= fuel)%nat -> trans_ok D -> 0 <= nstates D ->
  Inv (nstates D) g0 -> reached fuel D g0 g -> Inv (nstates D) g.
Proof.
  intros Hf Hok Hn H0 Hr. induction Hr as [| g ng un g' Hr IH Hp]; [assumption |].
  destruct (partition_spec fuel D Hf Hok g ng un Hn IH) as (b & g1 & Hrun & Hinv & _).
  rewrite Hrun in Hp. injection Hp as _ <-. assumption.
Qed.

Lemma run_same_mat d1 d2 :
  mat d1 = mat d2 -> forall w s, run d1 s w = run d2 s w.
Proof.
  intros E. induction w as [| j w IH]; intros s; [reflexivity |].
  cbn [run]. unfold delta. rewrite E. apply IH.
Qed.

(* ===================================================================== *)
(** ** Runs that avoid dead states *)
(* ===================================================================== *)

Section LiveRuns.

Variable dfa : automaton_t.
Hypothesis dfa_ok : trans_ok dfa.

Lemma run_live_sink w : run_live dfa 0 w = 0.
Proof. induction w as [| j w IH]; [reflexivity | exact IH]. Qed.

(** A run that avoids dead states and ends in a state is the plain run. *)
Lemma run_live_pos w : forall s,
  0 < run_live dfa s w -> run_live dfa s w = run dfa s w.
Proof.
  induction w as [| j w IH]; intros s Hpos; [reflexivity |].
  cbn [run_live run] in *.
  assert (E : delta_live dfa s j = delta dfa s j).
  { unfold delta_live, delta in *. destruct (s =? 0); [reflexivity |].
    cbv zeta in *. destruct ((mat dfa s j <=? 0) || dead dfa (mat dfa s j));
      [| reflexivity].
    rewrite run_live_sink in Hpos. lia. }
  rewrite E in *. now apply IH.
Qed.

(** If no state between [init] and the state [a] is dead, the plain run to
    [a] avoids dead states. *)
Lemma run_live_to init a :
  (forall t, 1 <= t <= nstates dfa -> reach dfa init t -> reach dfa t a ->
     dead dfa t = false) ->
  0 < a ->
  forall w s, 1 <= s <= nstates dfa -> word_ok dfa w -> reach dfa init s ->
    run dfa s w = a -> run_live dfa s w = a.
Proof.
  intros Hlive Ha. induction w as [| j w IH]; intros s Hs Hw Hreach Hrun;
    [exact Hrun |].
  cbn [run run_live] in *.
  assert (Hj : 1 <= j <= nab dfa) by (apply Hw; simpl; auto).
  assert (Hw' : word_ok dfa w) by (intros k Hk; apply Hw; simpl; auto).
  pose proof (delta_range dfa dfa_ok s j ltac:(lia) Hj) as Hd.
  assert (Hne : delta dfa s j <> 0).
  { intros E. rewrite E, run_sink in Hrun. lia. }
  assert (Hstep : step dfa s (delta dfa s j)).
  { exists j. split; [assumption |]. split; [| lia].
    unfold delta. destruct (Z.eqb_spec s 0); [lia | reflexivity]. }
  assert (Hreach' : reach dfa init (delta dfa s j)).
  { apply rt_trans with s; [assumption | now apply rt_step]. }
  assert (Hto : reach dfa (delta dfa s j) a).
  { rewrite <- Hrun. apply run_reach; try assumption; lia. }
  assert (E : delta_live dfa s j = delta dfa s j).
  { unfold delta_live, delta in *. destruct (Z.eqb_spec s 0); [lia |].
    cbv zeta. destruct (Z.leb_spec (mat dfa s j) 0); [lia |]. cbn [orb].
    rewrite (Hlive (mat dfa s j)); [reflexivity | lia | assumption | assumption]. }
  rewrite E. apply IH; try assumption. lia.
Qed.

End LiveRuns.

(* ===================================================================== *)
(** * The properties *)
(* ===================================================================== *)

(** ** Union-Find *)

(** C9.  For a well-formed partition vector over [1..n] and an element [e]
    in range, [find] returns the root of [e]'s parent chain.  Its path
    compression keeps the vector well formed, every element keeps the root
    it had, and every cell that is not a parent pointer (in particular the
    weight cell of every root) is unchanged. *)
Theorem find_returns_root_and_preserves_partition n rep e fuel :
  wf n rep -> 1 <= e <= n -> (Z.to_nat n <= fuel)%nat ->
  exists r rep',
    find fuel e rep = Some (r, rep') /\
    root rep e r /\
    wf n rep' /\
    (forall x rx, 1 <= x <= n -> (root rep' x rx <-> root rep x rx)) /\
    (forall x, rep x <= 0 -> rep' x = rep x).
Proof.
  intros Hwf He Hfuel.
  destruct (find_spec n rep e fuel Hwf He Hfuel)
    as (r & rep' & Hf & Hr & _ & Hwf' & Hroots & Hcells & _).
  exists r, rep'. auto.
Qed.

Lemma find_returns_root_and_preserves_partition_witness :
  exists r rep',
    find 3 1 path_rep = Some (r, rep') /\
    root path_rep 1 r /\
    wf 3 rep' /\
    (forall x rx, 1 <= x <= 3 -> (root rep' x rx <-> root path_rep x rx)) /\
    (forall x, path_rep x <= 0 -> rep' x = path_rep x).
Proof.
  apply (find_returns_root_and_preserves_partition 3 path_rep 1 3).
  - apply wfb_sound. reflexivity.
  - lia.
  - simpl. lia.
Defined.

(** C4 (as the code has it).  For elements [a], [b] whose classes have the
    distinct roots [i], [j]: when [j]'s stored weight is strictly smaller
    ([rep[j] > rep[i]]) [Union] attaches [j] under [i]; otherwise, and in
    particular when the stored weights are equal, it attaches the root [i]
    of the first argument under the root [j] of the second.  The surviving
    root's cell becomes the sum of both cells minus one, and the members of
    both classes end under the surviving root while every other element
    keeps its root. *)
Theorem Union_attaches_by_weight n rep a b i j fuel :
  wf n rep -> 1 <= a <= n -> 1 <= b <= n -> (Z.to_nat n <= fuel)%nat ->
  root rep a i -> root rep b j -> i <> j ->
  exists rep',
    Union fuel a b rep = Some rep' /\
    (rep j > rep i -> rep' j = i /\ rep' i = rep i + rep j - 1) /\
    (rep j <= rep i -> rep' i = j /\ rep' j = rep j + rep i - 1) /\
    (forall x rx, 1 <= x <= n -> root rep x rx ->
       root rep' x
         (if rep j >? rep i
          then (if rx =? j then i else rx)
          else (if rx =? i then j else rx))).
Proof.
  intros Hwf Ha Hb Hfuel Hi Hj Hij.
  destruct (Union_spec n rep a b fuel Hwf Ha Hb Hfuel)
    as (i' & j' & g & Hi' & Hj' & Hir & Hjr & Hwfg & Hroots & Hcells & Hrun).
  assert (i' = i) by (eapply root_fun; eauto).
  assert (j' = j) by (eapply root_fun; eauto). subst i' j'.
  pose proof (root_cell _ _ _ Hi) as Hci. pose proof (root_cell _ _ _ Hj) as Hcj.
  destruct (Z.eqb_spec i j) as [| _]; [contradiction |].
  eexists. split; [exact Hrun |].
  destruct (Z.gtb_spec (rep j) (rep i)) as [Hlt | Hge].
  - split; [| split; [intros; lia |]].
    + intros _. rewrite upd_eq, upd_neq, upd_eq by auto. split; [reflexivity | lia].
    + intros x rx Hx Hrx. apply Hroots in Hrx; [| assumption].
      destruct Hrx as [d Hd].
      apply (chain_attach g i j (rep i + (rep j - 1))) with (d := d);
        try assumption; try lia; rewrite Hcells; assumption.
  - split; [intros; lia | split].
    + intros _. rewrite upd_eq, upd_neq, upd_eq by auto. split; [reflexivity | lia].
    + intros x rx Hx Hrx. apply Hroots in Hrx; [| assumption].
      destruct Hrx as [d Hd].
      apply (chain_attach g j i (rep j + (rep i - 1))) with (d := d);
        try assumption; try lia; try (rewrite Hcells; assumption); auto.
Qed.

Lemma Union_attaches_by_weight_witness :
  exists rep',
    Union 3 1 2 zeros = Some rep' /\
    (zeros 2 > zeros 1 -> rep' 2 = 1 /\ rep' 1 = zeros 1 + zeros 2 - 1) /\
    (zeros 2 <= zeros 1 -> rep' 1 = 2 /\ rep' 2 = zeros 2 + zeros 1 - 1) /\
    (forall x rx, 1 <= x <= 3 -> root zeros x rx ->
       root rep' x
         (if zeros 2 >? zeros 1
          then (if rx =? 2 then 1 else rx)
          else (if rx =? 1 then 2 else rx))).
Proof.
  apply (Union_attaches_by_weight 3 zeros 1 2 1 2 3).
  - apply wfb_sound. reflexivity.
  - lia.
  - lia.
  - simpl. lia.
  - apply root_self. unfold zeros. lia.
  - apply root_self. unfold zeros. lia.
  - lia.
Defined.

(** C4 as the specification words it fails on a tie: with two singletons of
    equal stored weight, the root of the second argument is not attached
    under the root of the first; it is the other way round. *)
Lemma Union_tie_attaches_first_under_second :
  match Union 3 1 2 zeros with
  | Some rep' => zeros 1 = zeros 2 /\ rep' 2 <> 1 /\ rep' 1 = 2 /\ rep' 2 = -1
  | None => False
  end.
Proof. vm_compute. repeat split; discriminate. Qed.

(** ** Dead states *)

(** C7.  After [init_connections] and [t_closure], for all states [i], [j]
    in [1..nstates], [connected[i][j]] is true exactly when [j] is
    reachable from [i] by zero or more transitions. *)
Theorem t_closure_is_reflexive_transitive_closure dfa connected i j :
  trans_ok dfa -> 1 <= i <= nstates dfa -> 1 <= j <= nstates dfa ->
  (t_closure (nstates dfa)
     (init_connections (mat dfa) (nstates dfa) (nab dfa) connected) i j <> 0
   <-> reach dfa i j).
Proof. intros Hok Hi Hj. now apply t_closure_spec. Qed.

Lemma t_closure_is_reflexive_transitive_closure_witness :
  t_closure (nstates chain_dfa)
    (init_connections (mat chain_dfa) (nstates chain_dfa) (nab chain_dfa)
       (fun _ _ => 7)) 1 3 <> 0
  <-> reach chain_dfa 1 3.
Proof.
  apply (t_closure_is_reflexive_transitive_closure chain_dfa (fun _ _ => 7) 1 3).
  - apply trans_okb_sound. reflexivity.
  - simpl. lia.
  - simpl. lia.
Defined.

(** C6 (as the code has it).  [find_dead_states] never changes a ['D'].  A
    state with attribute ['A'] keeps it exactly when it is reachable from
    the initial state; an accepting state that is not reachable is marked
    ['D'] by the first pass. *)
Theorem find_dead_states_attribute_frame fuel dfa connected k :
  trans_ok dfa -> 1 <= init_state dfa <= nstates dfa ->
  0 <= k -> accept dfa k = 0 -> (Z.to_nat k < fuel)%nat ->
  exists dfa' connected',
    find_dead_states fuel dfa connected = Some (dfa', connected') /\
    (forall s, state_attrib dfa s = attr_D -> state_attrib dfa' s = attr_D) /\
    (forall s, 1 <= s <= nstates dfa -> state_attrib dfa s = attr_A ->
       reach dfa (init_state dfa) s -> state_attrib dfa' s = attr_A) /\
    (forall s, 1 <= s <= nstates dfa -> state_attrib dfa s = attr_A ->
       ~ reach dfa (init_state dfa) s -> state_attrib dfa' s = attr_D).
Proof.
  intros Hok Hinit Hk Hz Hf.
  destruct (find_dead_states_spec fuel dfa connected k Hk Hz Hf)
    as (attrib' & Hrun & HA & HD & Hun & _).
  eexists. eexists. split; [exact Hrun |]. cbn [state_attrib].
  split; [assumption |]. split.
  - intros s Hs HsA Hreach. apply HA. split; [assumption |].
    intros [_ Hc]. apply (t_closure_spec dfa connected _ _ Hok Hinit Hs) in Hreach.
    contradiction.
  - intros s Hs HsA Hreach. apply Hun; [assumption |].
    destruct (Z.eq_dec
                (t_closure (nstates dfa)
                   (init_connections (mat dfa) (nstates dfa) (nab dfa) connected)
                   (init_state dfa) s) 0) as [E | E]; [assumption |].
    exfalso. apply Hreach. now apply (t_closure_spec dfa connected _ _ Hok Hinit Hs).
Qed.

Lemma find_dead_states_attribute_frame_witness :
  exists dfa' connected',
    find_dead_states 3 island_dfa (fun _ _ => 0) = Some (dfa', connected') /\
    (forall s, state_attrib island_dfa s = attr_D -> state_attrib dfa' s = attr_D) /\
    (forall s, 1 <= s <= nstates island_dfa -> state_attrib island_dfa s = attr_A ->
       reach island_dfa (init_state island_dfa) s -> state_attrib dfa' s = attr_A) /\
    (forall s, 1 <= s <= nstates island_dfa -> state_attrib island_dfa s = attr_A ->
       ~ reach island_dfa (init_state island_dfa) s -> state_attrib dfa' s = attr_D).
Proof.
  apply (find_dead_states_attribute_frame 3 island_dfa (fun _ _ => 0) 1).
  - apply trans_okb_sound. reflexivity.
  - simpl. lia.
  - lia.
  - reflexivity.
  - simpl. lia.
Defined.

(** C6 as the specification words it fails: the accepting state 2 of
    [island_dfa] is not reachable from the initial state and leaves
    [find_dead_states] with attribute ['D']. *)
Lemma find_dead_states_reclassifies_unreachable_accept :
  match find_dead_states 3 island_dfa (fun _ _ => 0) with
  | Some (dfa', _) =>
      state_attrib island_dfa 2 = attr_A /\ state_attrib dfa' 2 <> attr_A /\
      state_attrib dfa' 2 = attr_D
  | None => False
  end.
Proof. vm_compute. repeat split; discriminate. Qed.

(** ** Compression *)

(** C2 (as the code has it).  For a DFA with transitions in range and a
    well-formed partition vector, the automaton [compress_dfa] produces has
    every transition entry in [{0} + [1, out.nstates]], every id it writes
    to the accept list is a state of the output with attribute ['A'], and
    its initial state is the new id of the class of the old initial state,
    a state in [1, out.nstates] (not necessarily 1). *)
Theorem compress_dfa_output_valid fuel old_dfa new_dfa g map0 pam0 rep0 :
  trans_ok old_dfa ->
  1 <= init_state old_dfa <= nstates old_dfa ->
  wf (nstates old_dfa) g ->
  (Z.to_nat (nstates old_dfa) <= fuel)%nat ->
  exists out sc written,
    compress_dfa fuel old_dfa new_dfa g map0 pam0 rep0 = Some (out, sc, written) /\
    trans_ok out /\
    (forall k, 0 <= k < written ->
       1 <= accept out k <= nstates out /\
       state_attrib out (accept out k) = attr_A) /\
    1 <= init_state out <= nstates out /\
    root g (init_state old_dfa) (sc_pam sc (init_state out)).
Proof.
  intros Hok Hinit Hwf Hfuel.
  destruct (compress_dfa_spec fuel old_dfa new_dfa g map0 pam0 rep0
              ltac:(lia) Hfuel Hwf)
    as (out & sc & ac & Hrun & Hscan & Hfill & Hns & Hnab & Hin).
  exists out, sc, ac. split; [exact Hrun |].
  destruct Hfill as (Hmat & _ & _ & _ & _ & Hacc & _). cbn in Hmat, Hacc.
  split; [| split; [| split]].
  - intros s j Hs Hj. rewrite Hns in *. rewrite Hnab in Hj.
    rewrite Hmat by assumption.
    pose proof Hscan as (_ & _ & _ & _ & _ & _ & _ & Hpam).
    destruct (Hpam s Hs) as (Hp & _).
    apply (scan_map_rep_range old_dfa g Hwf sc);
      [exact Hscan | apply Hok; assumption].
  - intros k Hk. rewrite Hns. apply Hacc. lia.
  - rewrite Hin, Hns.
    destruct (scan_map_rep old_dfa g Hwf sc _ Hscan Hinit)
      as (r & _ & -> & _ & H & _). exact H.
  - rewrite Hin.
    destruct (scan_map_rep old_dfa g Hwf sc _ Hscan Hinit)
      as (r & Hr & -> & _ & _ & ->). exact Hr.
Qed.

Lemma compress_dfa_output_valid_witness :
  exists out sc written,
    compress_dfa 3 fork_dfa blank_dfa fork_rep zeros zeros zeros
      = Some (out, sc, written) /\
    trans_ok out /\
    (forall k, 0 <= k < written ->
       1 <= accept out k <= nstates out /\
       state_attrib out (accept out k) = attr_A) /\
    1 <= init_state out <= nstates out /\
    root fork_rep (init_state fork_dfa) (sc_pam sc (init_state out)).
Proof.
  apply (compress_dfa_output_valid 3 fork_dfa blank_dfa fork_rep zeros zeros zeros).
  - apply trans_okb_sound. reflexivity.
  - simpl. lia.
  - apply wfb_sound. reflexivity.
  - simpl. lia.
Defined.

(** C2 as the specification words it fails in its last part: for the valid
    input [fork_dfa] and the partition the refinement loop ends with, the
    initial state of the output of [compress_dfa] is 2. *)
Lemma compress_dfa_initial_state_not_1 :
  valid_dfab fork_dfa = true /\
  match final_partition 60 fork_dfa zeros blank_workspace with
  | Some g =>
      match compress_dfa 60 fork_dfa blank_dfa g zeros zeros zeros with
      | Some (out, _, _) => init_state out <> 1 /\ init_state out = 2
      | None => False
      end
  | None => False
  end.
Proof. vm_compute. repeat split; discriminate. Qed.

(** C3 (as the code has it).  The representative [compress_dfa] keeps for a
    class, i.e. the old state [pam[t]] behind a new id [t], is the root of
    that class in the partition vector: its cell is not a parent pointer,
    [map] sends it back to [t], and every state of [1..nstates] has its
    root among the kept representatives. *)
Theorem compress_dfa_keeps_roots fuel old_dfa new_dfa g map0 pam0 rep0 :
  0 <= nstates old_dfa ->
  wf (nstates old_dfa) g ->
  (Z.to_nat (nstates old_dfa) <= fuel)%nat ->
  exists out sc written,
    compress_dfa fuel old_dfa new_dfa g map0 pam0 rep0 = Some (out, sc, written) /\
    (forall t, 1 <= t <= rep_count sc ->
       1 <= sc_pam sc t <= nstates old_dfa /\
       g (sc_pam sc t) <= 0 /\ root g (sc_pam sc t) (sc_pam sc t) /\
       sc_map sc (sc_pam sc t) = t) /\
    (forall x, 1 <= x <= nstates old_dfa ->
       exists r, root g x r /\
         1 <= sc_map sc r <= rep_count sc /\ sc_pam sc (sc_map sc r) = r).
Proof.
  intros Hn Hwf Hfuel.
  destruct (compress_dfa_spec fuel old_dfa new_dfa g map0 pam0 rep0 Hn Hfuel Hwf)
    as (out & sc & ac & Hrun & Hscan & _).
  exists out, sc, ac. split; [exact Hrun |]. split.
  - intros t Ht. destruct Hscan as (_ & _ & _ & _ & _ & _ & _ & Hpam).
    destruct (Hpam t Ht) as (H1 & H2 & H3).
    split; [assumption |]. split; [eapply root_cell; eauto |]. split; assumption.
  - intros x Hx. destruct (scan_map_rep old_dfa g Hwf sc x Hscan Hx)
      as (r & Hr & _ & _ & H1 & H2).
    exists r. auto.
Qed.

Lemma compress_dfa_keeps_roots_witness :
  exists out sc written,
    compress_dfa 3 fork_dfa blank_dfa fork_rep zeros zeros zeros
      = Some (out, sc, written) /\
    (forall t, 1 <= t <= rep_count sc ->
       1 <= sc_pam sc t <= nstates fork_dfa /\
       fork_rep (sc_pam sc t) <= 0 /\ root fork_rep (sc_pam sc t) (sc_pam sc t) /\
       sc_map sc (sc_pam sc t) = t) /\
    (forall x, 1 <= x <= nstates fork_dfa ->
       exists r, root fork_rep x r /\
         1 <= sc_map sc r <= rep_count sc /\ sc_pam sc (sc_map sc r) = r).
Proof.
  apply (compress_dfa_keeps_roots 3 fork_dfa blank_dfa fork_rep zeros zeros zeros).
  - simpl. lia.
  - apply wfb_sound. reflexivity.
  - simpl. lia.
Defined.

(** C3 as the specification words it fails: in the partition the refinement
    loop ends with for [pair_dfa], the states 1 and 2 form one class
    ([find] of 1 is 2), and the representative that receives the new id 1
    is state 2, not the smallest member 1. *)
Lemma compress_dfa_representative_not_smallest :
  valid_dfab pair_dfa = true /\
  match final_partition 60 pair_dfa zeros blank_workspace with
  | Some g =>
      match compress_dfa 60 pair_dfa blank_dfa g zeros zeros zeros,
            find 60 1 g with
      | Some (_, sc, _), Some (r, _) =>
          rep_count sc = 1 /\ sc_pam sc 1 = r /\ sc_map sc r = 1 /\
          ~ (sc_pam sc 1 <= 1)
      | _, _ => False
      end
  | None => False
  end.
Proof. vm_compute. repeat split; intros H; now apply H. Qed.

(** The second loop of [compress_dfa] writes [accept[0 .. written-1]] and
    nothing else of the accept list: the cell after the last id keeps
    whatever the output structure held before the call. *)
Lemma compress_dfa_accept_frame fuel old_dfa new_dfa g map0 pam0 rep0 out sc written :
  0 <= nstates old_dfa ->
  wf (nstates old_dfa) g ->
  (Z.to_nat (nstates old_dfa) <= fuel)%nat ->
  compress_dfa fuel old_dfa new_dfa g map0 pam0 rep0 = Some (out, sc, written) ->
  0 <= written <= nstates out /\
  forall k, ~ 0 <= k < written -> accept out k = accept new_dfa k.
Proof.
  intros Hn Hwf Hfuel Hrun.
  destruct (compress_dfa_spec fuel old_dfa new_dfa g map0 pam0 rep0 Hn Hfuel Hwf)
    as (out' & sc' & ac & Hrun' & _ & Hfill & Hns & _).
  rewrite Hrun in Hrun'. injection Hrun' as <- <- <-.
  destruct Hfill as (_ & _ & _ & _ & Hac & _ & Hfr & _). cbn in Hac, Hfr.
  split; [lia | exact Hfr].
Qed.

(** C5: the sentinel is missing.  [two_accept_dfa] is minimized first and
    leaves the accept list [1, 2, 0] in the output structure; compressing
    [loop_dfa] into the same structure then writes one id and leaves
    [accept[1] = 2] where the sentinel should be. *)
Theorem compress_dfa_writes_no_sentinel :
  match minimize_dfa 60 two_accept_dfa blank_dfa zeros blank_workspace with
  | Some previous =>
      match final_partition 60 loop_dfa zeros blank_workspace with
      | Some g =>
          match compress_dfa 60 loop_dfa previous g zeros zeros zeros with
          | Some (out, _, written) =>
              written = 1 /\ accept out 0 = 1 /\
              accept out written = 2 /\ accept out written <> 0
          | None => False
          end
      | None => False
      end
  | None => False
  end.
Proof. vm_compute. repeat split; discriminate. Qed.

(** A consequence: minimizing [trap_dfa] into a fresh output structure marks
    its trap state dead; minimizing it after [two_accept_dfa] does not,
    because the dead-state pass then also reads the stale accept id 2. *)
Lemma stale_accept_entry_hides_dead_state :
  match minimize_dfa 60 trap_dfa blank_dfa zeros blank_workspace,
        minimize_dfa 60 two_accept_dfa blank_dfa zeros blank_workspace with
  | Some fresh, Some previous =>
      match minimize_dfa 60 trap_dfa previous zeros blank_workspace with
      | Some reused =>
          state_attrib fresh 2 = attr_D /\ state_attrib reused 2 <> attr_D
      | None => False
      end
  | _, _ => False
  end.
Proof. vm_compute. repeat split; discriminate. Qed.

(** ** Refinement *)

(** C8.  In the refinement loop of [minimize_dfa] (the partition vector
    starts as [init_partitions] leaves it and is replaced by the result of
    every call that returned TRUE), every call of [partition] returns, and
    when it returns TRUE the number of classes has strictly increased.  The
    number of classes never exceeds [nstates], and the loop ends within
    [nstates] calls. *)
Theorem partition_progress_and_termination fuel dfa groups :
  (2 <= fuel)%nat -> trans_ok dfa -> 1 <= nstates dfa ->
  exists g0,
    init_partitions fuel (nstates dfa) (state_attrib dfa) groups = Some g0 /\
    (forall g ng un, reached fuel dfa g0 g ->
       exists changed g',
         partition fuel dfa (mk_sweep g ng un) = Some (changed, g') /\
         (class_count (nstates dfa) g' <= Z.to_nat (nstates dfa))%nat /\
         (changed = true ->
            (class_count (nstates dfa) g < class_count (nstates dfa) g')%nat)) /\
    (forall ng un, exists g,
       refine (Z.to_nat (nstates dfa)) fuel dfa g0 ng un = Some g).
Proof.
  intros Hf Hok Hn.
  destruct (init_partitions_spec fuel Hf (state_attrib dfa) (nstates dfa) groups)
    as (g0 & Hinit & Hinv0 & _); [lia |].
  exists g0. split; [exact Hinit |]. split.
  - intros g ng un Hr.
    pose proof (reached_Inv fuel dfa g0 g Hf Hok ltac:(lia) Hinv0 Hr) as Hinv.
    destruct (partition_spec fuel dfa Hf Hok g ng un ltac:(lia) Hinv)
      as (b & g' & Hrun & _ & _ & Hlt & _).
    exists b, g'. split; [exact Hrun |]. split; [apply class_count_le | exact Hlt].
  - intros ng un.
    pose proof (class_count_pos (nstates dfa) g0 Hn Hinv0) as Hpos.
    destruct (refine_spec fuel dfa Hf Hok ng un ltac:(lia)
                (Z.to_nat (nstates dfa)) g0 Hinv0 ltac:(lia)) as (g & Hrun & _).
    exists g. exact Hrun.
Qed.

Lemma partition_progress_and_termination_witness :
  exists g0,
    init_partitions 2 (nstates chain_dfa) (state_attrib chain_dfa) zeros = Some g0 /\
    (forall g ng un, reached 2 chain_dfa g0 g ->
       exists changed g',
         partition 2 chain_dfa (mk_sweep g ng un) = Some (changed, g') /\
         (class_count (nstates chain_dfa) g' <= Z.to_nat (nstates chain_dfa))%nat /\
         (changed = true ->
            (class_count (nstates chain_dfa) g
             < class_count (nstates chain_dfa) g')%nat)) /\
    (forall ng un, exists g,
       refine (Z.to_nat (nstates chain_dfa)) 2 chain_dfa g0 ng un = Some g).
Proof.
  apply (partition_progress_and_termination 2 chain_dfa zeros).
  - lia.
  - apply trans_okb_sound. reflexivity.
  - simpl. lia.
Defined.

(** ** The orchestrator *)

(** C1.  For every valid input DFA, [minimize_dfa] returns an automaton that
    accepts exactly the words over the alphabet that the input accepts;
    this holds for the automaton as stored and also for the automaton as it
    is printed, with the states marked dead left out.
    (The output structure must hold a 0 in the last cell of its accept
    array, as the program's static [out_dfa] always does: [compress_dfa]
    writes no sentinel, and the dead-state pass stops at the first 0.) *)
Theorem minimize_dfa_preserves_language fuel D out0 groups w :
  valid_dfa D ->
  accept out0 MAX_STATES = 0 ->
  (Z.to_nat MAX_STATES < fuel)%nat ->
  exists M,
    minimize_dfa fuel D out0 groups w = Some M /\
    forall word, word_ok D word ->
      accepts M word = accepts D word /\
      accepts_live M word = accepts D word.
Proof.
  intros (Hn & _ & Hok & Hinit & _ & HnoD) Hsent Hfuel.
  assert (Hf2 : (2 <= fuel)%nat) by (unfold MAX_STATES in Hfuel; lia).
  assert (Hfn : (Z.to_nat (nstates D) <= fuel)%nat) by lia.
  destruct (final_partition_spec fuel D groups w Hf2 Hfn Hok ltac:(lia))
    as (g & Hpart & Hinv & Hstable & Hattr).
  pose proof (Inv_wf _ _ Hinv) as Hwf.
  destruct (compress_dfa_spec fuel D out0 g (w_map w) (w_pam w) (w_rep w)
              ltac:(lia) Hfn Hwf)
    as (out & sc & ac & Hcomp & Hscan & Hfill & Hns & Hnab & Hin).
  pose proof (out_trans_ok D g sc out _ ac Hok Hinv Hscan Hfill Hns Hnab) as Hokout.
  assert (Hrc : 0 <= rep_count sc <= nstates D) by apply Hscan.
  pose proof Hfill as (_ & _ & Hfat & _ & Hac & Hacc & Hfr & Hall).
  cbn [f_attrib f_accept a_count] in Hfat, Hac, Hacc, Hfr, Hall.
  assert (Hsent' : accept out MAX_STATES = 0) by (rewrite Hfr; [assumption | lia]).
  destruct (find_dead_states_spec fuel out (w_connected w) MAX_STATES
              ltac:(unfold MAX_STATES; lia) Hsent' Hfuel)
    as (attrib' & Hdead & HA & _ & _ & HD).
  set (conn := t_closure (nstates out)
                 (init_connections (mat out) (nstates out) (nab out) (w_connected w)))
    in *.
  set (M := mk_automaton (nstates out) (nab out) (mat out) (init_state out)
              (accept out) attrib') in *.
  exists M. split.
  { unfold minimize_dfa. rewrite Hpart. cbn [bind]. rewrite Hcomp. cbn [bind].
    rewrite Hdead. cbn [bind]. reflexivity. }
  assert (HokM : trans_ok M) by exact Hokout.
  intros word Hword.
  assert (Hinit1 : 0 <= init_state D <= nstates D) by lia.
  assert (Hi : init_state out = newid sc (init_state D)) by exact Hin.
  assert (HwordM : word_ok M word) by (intros j Hj; cbn [M nab]; rewrite Hnab; auto).
  assert (Hinit' : 1 <= init_state out <= nstates out).
  { rewrite Hi, Hns. apply (newid_pos D g sc Hinv Hscan). lia. }
  pose proof (run_range D Hok word _ Hinit1 Hword) as Hs.
  assert (Hrun : run M (init_state M) word = newid sc (run D (init_state D) word)).
  { rewrite (run_same_mat M out eq_refl). cbn [M init_state]. rewrite Hi.
    apply (run_sim D g sc out _ ac Hok Hinv Hstable Hscan Hfill word _ Hinit1 Hword). }
  set (s := run D (init_state D) word) in *.
  (* the stored automaton *)
  assert (Hacc1 : accepts M word = accepts D word).
  { unfold accepts. rewrite Hrun. fold s. cbn [M state_attrib].
    destruct (Z.eq_dec s 0) as [E | E].
    - rewrite E, (newid_zero D g sc Hscan). reflexivity.
    - assert (Hs1 : 1 <= s <= nstates D) by lia.
      destruct (newid_pos D g sc Hinv Hscan s Hs1) as (_ & Hid & _).
      destruct (Z.ltb_spec 0 (newid sc s)); [| lia].
      destruct (Z.ltb_spec 0 s); [| lia]. cbn [andb].
      rewrite <- (out_attr D g sc out _ ac Hinv Hattr Hscan Hfill s Hs1).
      apply eq_true_iff_eq. rewrite !Ascii.eqb_eq. rewrite HA. split; [tauto |].
      intros HoutA. split; [assumption |]. intros [_ Hconn].
      assert (Hreach : reach M (init_state M) (newid sc s)).
      { rewrite <- Hrun. apply run_reach; try assumption.
        - cbn [M init_state nstates]. lia.
        - rewrite Hrun. lia. }
      apply (t_closure_spec out (w_connected w) _ _ Hokout Hinit') in Hreach;
        [contradiction | rewrite Hns; exact Hid]. }
  split; [exact Hacc1 |]. rewrite <- Hacc1.
  (* the printed automaton *)
  destruct (accepts M word) eqn:Eacc.
  - unfold accepts in Eacc. apply andb_true_iff in Eacc. destruct Eacc as [Epos EA].
    apply Z.ltb_lt in Epos. apply Ascii.eqb_eq in EA.
    set (a := run M (init_state M) word) in *.
    assert (Har : 1 <= a <= nstates M).
    { pose proof (run_range M HokM word (init_state M)
                    ltac:(cbn [M init_state nstates]; lia) HwordM). fold a in H. lia. }
    assert (Hlive : forall t, 1 <= t <= nstates M -> reach M (init_state M) t ->
                      reach M t a -> dead M t = false).
    { intros t Ht Hinit_t Hta. unfold dead. apply Ascii.eqb_neq. intros Et.
      cbn [M state_attrib nstates init_state] in *.
      destruct (HD t Et) as [E | [[_ E] | E]].
      - rewrite Hfat in E by lia. rewrite Hns in Ht.
        destruct Hscan as (_ & _ & _ & _ & _ & _ & _ & Hpam).
        destruct (Hpam t Ht) as (Hp & _). exact (HnoD _ Hp E).
      - apply (t_closure_spec out (w_connected w) _ _ Hokout Hinit' Ht) in Hinit_t.
        contradiction.
      - apply HA in EA. destruct EA as [EA _].
        destruct (Hall a ltac:(lia) EA) as (k & Hk & Ek).
        destruct (scan_accept_hit (accept out) conn t k) with (fuel := fuel) (j := 0)
          as (v & Hv & Hvnz).
        + rewrite Ek. now apply (t_closure_spec out (w_connected w) _ _ Hokout Ht Har).
        + lia.
        + intros x Hx. destruct (Hacc x ltac:(lia)) as [Hx1 _]. lia.
        + unfold MAX_STATES in *. lia.
        + rewrite Hv in E. injection E as E. contradiction. }
    assert (Hstart : dead M (init_state M) = false).
    { apply Hlive; [exact Hinit' | apply rt_refl |].
      apply run_reach; try assumption. cbn [M init_state nstates]. lia. }
    unfold accepts_live. rewrite Hstart.
    rewrite (run_live_to M HokM (init_state M) a Hlive Epos word (init_state M)
               Hinit' HwordM (rt_refl _ _ _) eq_refl).
    apply andb_true_iff. split; [now apply Z.ltb_lt | now apply Ascii.eqb_eq].
  - destruct (accepts_live M word) eqn:El; [| reflexivity].
    unfold accepts_live in El. apply andb_true_iff in El. destruct El as [Epos EA].
    apply Z.ltb_lt in Epos.
    rewrite (run_live_pos M word _ Epos) in EA.
    pose proof (run_live_pos M word _ Epos) as Eq.
    destruct (dead M (init_state M)).
    + rewrite run_live_sink in Epos. lia.
    + unfold accepts in Eacc. rewrite <- Eq in Eacc at 1. rewrite EA in Eacc.
      apply Z.ltb_lt in Epos. rewrite Epos in Eacc. discriminate.
Qed.

Lemma minimize_dfa_preserves_language_witness :
  exists M,
    minimize_dfa 51 chain_dfa blank_dfa zeros blank_workspace = Some M /\
    forall word, word_ok chain_dfa word ->
      accepts M word = accepts chain_dfa word /\
      accepts_live M word = accepts chain_dfa word.
Proof.
  apply (minimize_dfa_preserves_language 51 chain_dfa blank_dfa zeros blank_workspace).
  - apply valid_dfab_sound. vm_compute. reflexivity.
  - reflexivity.
  - vm_compute. lia.
Defined.

(* ===================================================================== *)
(** * Further properties of the code *)
(* ===================================================================== *)

(** ** What a sweep never separates *)

Lemma totalb_sound dfa : totalb dfa = true -> total dfa.
Proof.
  unfold totalb. intros H s j Hs Hj.
  rewrite forallb_forall in H. specialize (H s ltac:(now apply in_range)).
  rewrite forallb_forall in H. specialize (H j ltac:(now apply in_range)).
  apply andb_true_iff in H. destruct H as [H1 H2].
  apply Z.leb_le in H1, H2. lia.
Qed.

Lemma total_trans_ok dfa : total dfa -> trans_ok dfa.
Proof. intros H s j Hs Hj. specialize (H s j Hs Hj). lia. Qed.

Section Keeps.

Variable fuel : nat.
Variable dfa : automaton_t.
Variable E : Z -> Z -> Prop.
Let n := nstates dfa.

Hypothesis fuel_ok : (2 <= fuel)%nat.
Hypothesis dfa_ok : trans_ok dfa.
Hypothesis E_closed : trans_closed dfa E.

(** Related states have the same transitions under a partition that keeps
    related states together. *)
Lemma keeps_same_trans g x y :
  keeps n E g -> 1 <= x <= n -> 1 <= y <= n -> E x y ->
  same_trans dfa g x y = true.
Proof.
  intros Hk Hx Hy Hxy. unfold same_trans. apply forallb_forall.
  intros j Hj. apply in_range in Hj. apply Z.eqb_eq.
  destruct (E_closed x y Hx Hy Hxy j Hj) as [-> | (H1 & H2 & H3)]; [reflexivity |].
  unfold cl0. destruct (Z.gtb_spec (mat dfa x j) 0); [| lia].
  destruct (Z.gtb_spec (mat dfa y j) 0); [| lia].
  apply Z.eqb_eq. now apply Hk.
Qed.

Lemma partition_group_keeps g rep st updated st' updated' :
  Inv n g -> 1 <= rep <= n -> old_groups st = g ->
  partition_group fuel dfa rep (st, updated) = Some (st', updated') ->
  forall x y, 1 <= x <= n -> 1 <= y <= n ->
    same g x y = true -> same_trans dfa g x y = true ->
    same (old_groups st') x y = true.
Proof.
  intros Hinv Hrep Hog Hrun x y Hx Hy Hsame Htrans. revert Hrun.
  pose proof (Inv_flat n g Hinv) as Hflat.
  unfold partition_group. rewrite Hog.
  destruct (Z.geb_spec (g rep) 0) as [Hge | Hlt].
  - intros Hrun. injection Hrun as <- _. now rewrite Hog.
  - set (ms := filter (fun i => cls g i =? rep) (range 1 n)).
    destruct (collect_members_spec fuel dfa fuel_ok g rep st Hflat Hog)
      as (st1 & Hcol & Hog1 & Hz).
    fold n in Hcol, Hz |- *. rewrite Hcol. cbn [bind]. fold ms in Hz |- *.
    assert (Hms_range : forall t, In t ms -> 1 <= t <= n).
    { intros t Ht. apply filter_In in Ht. apply in_range, Ht. }
    assert (Hms_nd : NoDup ms) by (apply NoDup_filter, range_NoDup).
    assert (Hms_pos : forall t, In t ms -> 0 < t).
    { intros t Ht. apply Hms_range in Ht. lia. }
    destruct (unify_pairs_spec fuel dfa g fuel_ok dfa_ok Hflat ms Hms_nd Hms_range
                ms [] st1 eq_refl Hog1) as (st2 & Hup & Hog2 & Hcanon).
    { intros t Ht. cbn [cov existsb]. destruct (Hz t Ht). auto. }
    rewrite Hup. cbn [bind]. rewrite Hog2.
    pose proof (same_trans_equiv dfa g) as Heq.
    unfold update_partitions.
    rewrite (differs_flat fuel fuel_ok).
    2:{ intros s Hs. split; [apply Hflat; auto |].
        now apply (Canon_flat ms (same_trans dfa g) Heq Hms_pos (new_groups st2) Hcanon). }
    cbn [bind].
    destruct (existsb (fun s => negb (cls g s =? cls (new_groups st2) s)) ms).
    + intros Hrun. injection Hrun as <- _. cbn [old_groups].
      set (g' := copy_members ms g (new_groups st2)).
      assert (Hin : forall t, In t ms -> g' t = new_groups st2 t).
      { intros t Ht. unfold g'. rewrite copy_members_at.
        apply existsb_in in Ht. now rewrite Ht. }
      assert (Hout : forall t, ~ In t ms -> g' t = g t).
      { intros t Ht. unfold g'. rewrite copy_members_at.
        destruct (existsb (Z.eqb t) ms) eqn:Et; [| reflexivity].
        apply existsb_in in Et. contradiction. }
      destruct (in_dec Z.eq_dec x ms) as [Hxm | Hxm];
        destruct (in_dec Z.eq_dec y ms) as [Hym | Hym].
      * rewrite (same_g'_in n g rep (same_trans dfa g) Heq (new_groups st2) Hcanon
                   g' Hin x y Hxm Hym). exact Htrans.
      * rewrite (same_g_mixed n g rep x y Hxm Hy Hym) in Hsame. discriminate.
      * rewrite same_sym_eq, (same_g_mixed n g rep y x Hym Hx Hxm) in Hsame.
        discriminate.
      * rewrite (same_g'_out n g rep g' Hout x y Hxm Hym). exact Hsame.
    + intros Hrun. injection Hrun as <- _. cbn [old_groups]. exact Hsame.
Qed.

Lemma partition_keeps g ng un b g' :
  0 <= n -> Inv n g -> keeps n E g ->
  partition fuel dfa (mk_sweep g ng un) = Some (b, g') ->
  keeps n E g'.
Proof.
  intros Hn Hinv Hk Hrun.
  set (I := fun (m : Z) (s : sweep_state * bool) =>
              Inv n (old_groups (fst s)) /\ keeps n E (old_groups (fst s))).
  destruct (for_each_range I (partition_group fuel dfa) 1 n (mk_sweep g ng un, false))
    as ([st b'] & Hrun' & HI).
  - lia.
  - split; assumption.
  - intros i [st updated] Hi [Hinv1 Hk1]. cbn [fst] in *.
    destruct (partition_group_spec fuel dfa fuel_ok dfa_ok (old_groups st) i st updated
                Hinv1 Hi eq_refl) as (st' & updated' & Hrun' & Hinv2 & _).
    exists (st', updated'). split; [exact Hrun' |]. split; [exact Hinv2 |].
    cbn [fst]. intros x y Hx Hy Hxy.
    apply (partition_group_keeps (old_groups st) i st updated st' updated'
             Hinv1 Hi eq_refl Hrun' x y Hx Hy).
    + now apply Hk1.
    + now apply keeps_same_trans.
  - unfold partition in Hrun. fold n in Hrun. rewrite Hrun' in Hrun.
    cbn [bind] in Hrun. injection Hrun as _ <-. apply HI.
Qed.

Lemma refine_keeps ng un : 0 <= n ->
  forall k g g', Inv n g -> keeps n E g ->
  refine k fuel dfa g ng un = Some g' -> keeps n E g'.
Proof.
  intros Hn. induction k as [| k IH]; intros g g' Hinv Hk Hrun; [discriminate |].
  cbn [refine] in Hrun.
  destruct (partition_spec fuel dfa fuel_ok dfa_ok g ng un Hn Hinv)
    as (b & g1 & Hp & Hinv1 & _).
  rewrite Hp in Hrun. cbn [bind] in Hrun.
  pose proof (partition_keeps g ng un b g1 Hn Hinv Hk Hp) as Hk1.
  destruct b; [now apply (IH g1) | injection Hrun as <-; assumption].
Qed.

End Keeps.

(** ** The canonical vector of a partition is unique *)

Lemma CanonAt_unique v v' cl x :
  CanonAt v cl -> CanonAt v' cl -> In x cl -> v x = v' x.
Proof.
  destruct cl as [| a [| b tl]]; cbn [CanonAt]; intros H H' Hx.
  - destruct Hx.
  - destruct Hx as [<- | []]. congruence.
  - destruct H as (Ha & Hb & Ht), H' as (Ha' & Hb' & Ht').
    destruct Hx as [<- | [<- | Hx]]; [congruence | congruence |].
    rewrite (Ht _ Hx), (Ht' _ Hx). reflexivity.
Qed.

Lemma Inv_unique n g g' :
  Inv n g -> Inv n g' ->
  (forall x y, 1 <= x <= n -> 1 <= y <= n -> same g x y = same g' x y) ->
  forall x, 1 <= x <= n -> g x = g' x.
Proof.
  intros Hg Hg' Hs x Hx.
  assert (Hin : In x (range 1 n)) by now apply in_range.
  pose proof (Hg x Hin) as H. pose proof (Hg' x Hin) as H'.
  assert (E : filter (same g x) (range 1 n) = filter (same g' x) (range 1 n)).
  { apply filter_ext_in. intros y Hy. apply in_range in Hy. now apply Hs. }
  rewrite <- E in H'.
  apply (CanonAt_unique g g' _ x H H').
  apply filter_In. split; [assumption |]. unfold same. apply Z.eqb_refl.
Qed.

Lemma class_count_ext n g g' :
  (forall x, 1 <= x <= n -> g x = g' x) -> class_count n g = class_count n g'.
Proof.
  intros H. unfold class_count. f_equal. apply filter_ext_in.
  intros x Hx. apply in_range in Hx. unfold is_root. now rewrite H.
Qed.

(** ** Relations that the transitions respect *)

Lemma cl0_zero n g t :
  Inv n g -> 0 <= t <= n -> cl0 g t = 0 -> t = 0.
Proof.
  intros Hinv Ht. unfold cl0. destruct (Z.gtb_spec t 0); [| lia].
  pose proof (Inv_cls_in n g t Hinv ltac:(lia)). lia.
Qed.

Lemma same_trans_targets dfa g x y j :
  trans_ok dfa -> Inv (nstates dfa) g ->
  1 <= x <= nstates dfa -> 1 <= y <= nstates dfa -> 1 <= j <= nab dfa ->
  same_trans dfa g x y = true ->
  (mat dfa x j = 0 /\ mat dfa y j = 0) \/
  (1 <= mat dfa x j <= nstates dfa /\ 1 <= mat dfa y j <= nstates dfa /\
   same g (mat dfa x j) (mat dfa y j) = true).
Proof.
  intros Hok Hinv Hx Hy Hj Hst. unfold same_trans in Hst.
  rewrite forallb_forall in Hst. specialize (Hst j ltac:(now apply in_range)).
  apply Z.eqb_eq in Hst.
  pose proof (Hok x j Hx Hj) as Hmx. pose proof (Hok y j Hy Hj) as Hmy.
  destruct (Z.eq_dec (mat dfa x j) 0) as [Ex | Ex].
  - left. split; [assumption |]. rewrite Ex in Hst. cbn in Hst.
    symmetry in Hst. now apply (cl0_zero _ g _ Hinv Hmy).
  - destruct (Z.eq_dec (mat dfa y j) 0) as [Ey | Ey].
    + exfalso. apply Ex. rewrite Ey in Hst. cbn in Hst.
      now apply (cl0_zero _ g _ Hinv Hmx).
    + right. split; [lia |]. split; [lia |]. unfold cl0 in Hst.
      destruct (Z.gtb_spec (mat dfa x j) 0); [| lia].
      destruct (Z.gtb_spec (mat dfa y j) 0); [| lia].
      unfold same. now apply Z.eqb_eq.
Qed.

Lemma stable_closed dfa g :
  trans_ok dfa -> Inv (nstates dfa) g -> stable dfa g ->
  trans_closed dfa (fun x y => same g x y = true).
Proof.
  intros Hok Hinv Hst x y Hx Hy Hxy j Hj.
  destruct (same_trans_targets dfa g x y j Hok Hinv Hx Hy Hj (Hst x y Hx Hy Hxy))
    as [[E1 E2] | H]; [left; congruence | right; exact H].
Qed.

Lemma verdict_nil dfa x :
  0 < x -> verdict_of dfa x [] = if isA (state_attrib dfa) x then Accepted else Rejected.
Proof.
  intros Hx. unfold verdict_of. cbn [run]. destruct (Z.leb_spec x 0); [lia | reflexivity].
Qed.

Lemma verdict_cons dfa x j w :
  0 < x -> verdict_of dfa x (j :: w) = verdict_of dfa (mat dfa x j) w.
Proof.
  intros Hx. unfold verdict_of. cbn [run]. unfold delta.
  destruct (Z.eqb_spec x 0); [lia | reflexivity].
Qed.

Lemma verdict_sink dfa w : verdict_of dfa 0 w = Stuck.
Proof. unfold verdict_of. now rewrite run_sink. Qed.

Lemma verdict_nil_stuck dfa x : 0 < x -> verdict_of dfa x [] <> Stuck.
Proof. intros Hx. rewrite verdict_nil by assumption. now destruct (isA _ _). Qed.

Lemma indist_closed dfa : trans_ok dfa -> trans_closed dfa (indist dfa).
Proof.
  intros Hok x y Hx Hy Hxy j Hj.
  pose proof (Hok x j Hx Hj) as Hmx. pose proof (Hok y j Hy Hj) as Hmy.
  assert (Hj1 : word_ok dfa [j]) by (intros i [<- | []]; assumption).
  pose proof (Hxy [j] Hj1) as H1.
  rewrite !verdict_cons in H1 by lia.
  destruct (Z.eq_dec (mat dfa x j) 0) as [Ex | Ex];
    destruct (Z.eq_dec (mat dfa y j) 0) as [Ey | Ey].
  - left. congruence.
  - exfalso. rewrite Ex, verdict_sink in H1. symmetry in H1.
    revert H1. apply verdict_nil_stuck. lia.
  - exfalso. rewrite Ey, verdict_sink in H1.
    revert H1. apply verdict_nil_stuck. lia.
  - right. split; [lia |]. split; [lia |]. intros w Hw.
    assert (Hjw : word_ok dfa (j :: w)).
    { intros i [<- | Hi]; [assumption | now apply Hw]. }
    pose proof (Hxy (j :: w) Hjw) as H2. now rewrite !verdict_cons in H2 by lia.
Qed.

Lemma indist_respects dfa : respects_accept dfa (indist dfa).
Proof.
  intros x y Hx Hy Hxy. pose proof (Hxy [] ltac:(intros i [])) as H.
  rewrite !verdict_nil in H by lia.
  destruct (isA (state_attrib dfa) x), (isA (state_attrib dfa) y);
    congruence.
Qed.

Lemma class_indist dfa g :
  trans_ok dfa -> Inv (nstates dfa) g -> stable dfa g ->
  respects_accept dfa (fun x y => same g x y = true) ->
  forall x y, 1 <= x <= nstates dfa -> 1 <= y <= nstates dfa ->
    same g x y = true -> indist dfa x y.
Proof.
  intros Hok Hinv Hst Hacc x y Hx Hy Hxy w. revert x y Hx Hy Hxy.
  induction w as [| j w IH]; intros x y Hx Hy Hxy Hw.
  - rewrite !verdict_nil by lia. now rewrite (Hacc x y Hx Hy Hxy).
  - rewrite !verdict_cons by lia.
    assert (Hj : 1 <= j <= nab dfa) by (apply Hw; now left).
    assert (Hw' : word_ok dfa w) by (intros i Hi; apply Hw; now right).
    destruct (same_trans_targets dfa g x y j Hok Hinv Hx Hy Hj (Hst x y Hx Hy Hxy))
      as [[E1 E2] | (H1 & H2 & H3)].
    + now rewrite E1, E2.
    + now apply IH.
Qed.

(** ** The refinement loop and compatible relations *)

Lemma reached_keeps fuel D E g0 g :
  (2 <= fuel)%nat -> trans_ok D -> 0 <= nstates D -> trans_closed D E ->
  Inv (nstates D) g0 -> keeps (nstates D) E g0 ->
  reached fuel D g0 g -> keeps (nstates D) E g.
Proof.
  intros Hf Hok Hn HE H0 Hk0 Hr.
  induction Hr as [| g ng un g' Hr IH Hp]; [assumption |].
  pose proof (reached_Inv fuel D g0 g Hf Hok Hn H0 Hr) as Hinv.
  exact (partition_keeps fuel D E Hf Hok HE g ng un true g' Hn Hinv IH Hp).
Qed.

Lemma final_partition_keeps fuel D groups w E g :
  (2 <= fuel)%nat -> trans_ok D -> 1 <= nstates D ->
  trans_closed D E -> respects_accept D E ->
  final_partition fuel D groups w = Some g -> keeps (nstates D) E g.
Proof.
  intros Hf Hok Hn HE HA. unfold final_partition.
  destruct (init_partitions_spec fuel Hf (state_attrib D) (nstates D) groups)
    as (g0 & Hinit & Hinv0 & Hsame0); [lia |].
  rewrite Hinit. cbn [bind]. intros Hrun.
  apply (refine_keeps fuel D E Hf Hok HE (w_new_groups w) (w_unified w) ltac:(lia)
           fuel g0 g Hinv0); [| exact Hrun].
  intros x y Hx Hy Hxy. apply Hsame0; auto.
Qed.

Lemma stable_no_split fuel D g ng un g' :
  (2 <= fuel)%nat -> trans_ok D -> 0 <= nstates D -> Inv (nstates D) g ->
  stable D g -> partition fuel D (mk_sweep g ng un) = Some (true, g') -> False.
Proof.
  intros Hf Hok Hn Hinv Hst Hp.
  destruct (partition_spec fuel D Hf Hok g ng un Hn Hinv)
    as (b & g1 & Hrun & Hinv1 & Href & Hlt & _).
  rewrite Hp in Hrun. injection Hrun as <- <-. specialize (Hlt eq_refl).
  pose proof (partition_keeps fuel D _ Hf Hok (stable_closed D g Hok Hinv Hst)
                g ng un true g' Hn Hinv ltac:(now intros x y _ _ H) Hp) as Hk.
  rewrite (class_count_ext (nstates D) g g') in Hlt; [lia |].
  apply Inv_unique; try assumption.
  intros x y Hx Hy. apply eq_true_iff_eq. split; [now apply Hk | now apply Href].
Qed.

(** ** Properties of [partition] and of the final partition *)

(** X1.  In the refinement loop of [minimize_dfa], [partition] returns FALSE
    exactly when the partition it is given is already stable (states of one
    class go, on every symbol, to states of one class, or both have no
    transition); it then leaves the partition vector as it was. *)
Theorem partition_false_iff_stable fuel dfa groups :
  (2 <= fuel)%nat -> trans_ok dfa -> 1 <= nstates dfa ->
  exists g0,
    init_partitions fuel (nstates dfa) (state_attrib dfa) groups = Some g0 /\
    forall g ng un, reached fuel dfa g0 g ->
      exists changed g',
        partition fuel dfa (mk_sweep g ng un) = Some (changed, g') /\
        (changed = false <-> stable dfa g) /\
        (changed = false -> g' = g).
Proof.
  intros Hf Hok Hn.
  destruct (init_partitions_spec fuel Hf (state_attrib dfa) (nstates dfa) groups)
    as (g0 & Hinit & Hinv0 & _); [lia |].
  exists g0. split; [exact Hinit |]. intros g ng un Hr.
  pose proof (reached_Inv fuel dfa g0 g Hf Hok ltac:(lia) Hinv0 Hr) as Hinv.
  destruct (partition_spec fuel dfa Hf Hok g ng un ltac:(lia) Hinv)
    as (b & g' & Hrun & _ & _ & _ & Hfalse).
  exists b, g'. split; [exact Hrun |]. split; [split |].
  - intros E. now apply Hfalse.
  - intros Hst. destruct b; [| reflexivity]. exfalso.
    exact (stable_no_split fuel dfa g ng un g' Hf Hok ltac:(lia) Hinv Hst Hrun).
  - intros E. now apply Hfalse.
Qed.

Lemma partition_false_iff_stable_witness :
  exists g0,
    init_partitions 2 (nstates fork_dfa) (state_attrib fork_dfa) zeros = Some g0 /\
    forall g ng un, reached 2 fork_dfa g0 g ->
      exists changed g',
        partition 2 fork_dfa (mk_sweep g ng un) = Some (changed, g') /\
        (changed = false <-> stable fork_dfa g) /\
        (changed = false -> g' = g).
Proof.
  apply (partition_false_iff_stable 2 fork_dfa zeros).
  - lia.
  - apply trans_okb_sound. reflexivity.
  - simpl. lia.
Defined.

(** X2.  A call of [partition] in the refinement loop only splits classes:
    states in one class afterwards were in one class before, and two states
    related by a relation that the transitions respect and that never
    relates an accept state to another state (such as: no word tells them
    apart) are never put into different classes. *)
Theorem partition_splits_only_distinguishable fuel dfa groups E :
  (2 <= fuel)%nat -> trans_ok dfa -> 1 <= nstates dfa ->
  trans_closed dfa E -> respects_accept dfa E ->
  exists g0,
    init_partitions fuel (nstates dfa) (state_attrib dfa) groups = Some g0 /\
    forall g ng un changed g', reached fuel dfa g0 g ->
      partition fuel dfa (mk_sweep g ng un) = Some (changed, g') ->
      refines (nstates dfa) g' g /\ keeps (nstates dfa) E g'.
Proof.
  intros Hf Hok Hn HE HA.
  destruct (init_partitions_spec fuel Hf (state_attrib dfa) (nstates dfa) groups)
    as (g0 & Hinit & Hinv0 & Hsame0); [lia |].
  exists g0. split; [exact Hinit |]. intros g ng un b g' Hr Hp.
  pose proof (reached_Inv fuel dfa g0 g Hf Hok ltac:(lia) Hinv0 Hr) as Hinv.
  assert (Hk0 : keeps (nstates dfa) E g0).
  { intros x y Hx Hy Hxy. apply Hsame0; auto. }
  pose proof (reached_keeps fuel dfa E g0 g Hf Hok ltac:(lia) HE Hinv0 Hk0 Hr) as Hk.
  split.
  - destruct (partition_spec fuel dfa Hf Hok g ng un ltac:(lia) Hinv)
      as (b1 & g1 & Hrun & _ & Href & _).
    rewrite Hp in Hrun. injection Hrun as <- <-. exact Href.
  - exact (partition_keeps fuel dfa E Hf Hok HE g ng un b g' ltac:(lia) Hinv Hk Hp).
Qed.

Lemma partition_splits_only_distinguishable_witness :
  exists g0,
    init_partitions 2 (nstates fork_dfa) (state_attrib fork_dfa) zeros = Some g0 /\
    forall g ng un changed g', reached 2 fork_dfa g0 g ->
      partition 2 fork_dfa (mk_sweep g ng un) = Some (changed, g') ->
      refines (nstates fork_dfa) g' g /\
      keeps (nstates fork_dfa) (indist fork_dfa) g'.
Proof.
  apply (partition_splits_only_distinguishable 2 fork_dfa zeros (indist fork_dfa)).
  - lia.
  - apply trans_okb_sound. reflexivity.
  - simpl. lia.
  - apply indist_closed, trans_okb_sound. reflexivity.
  - apply indist_respects.
Defined.

(** X3.  The partition [minimize_dfa] ends its refinement loop with puts two
    states into one class exactly when no word tells them apart: from both
    states every word over the alphabet either falls off the automaton, or
    ends in an accept state, or ends in a state that is not an accept
    state. *)
Theorem final_partition_classes_are_indistinguishability fuel D groups w :
  (2 <= fuel)%nat -> (Z.to_nat (nstates D) <= fuel)%nat ->
  trans_ok D -> 1 <= nstates D ->
  exists g,
    final_partition fuel D groups w = Some g /\
    forall x y, 1 <= x <= nstates D -> 1 <= y <= nstates D ->
      (same g x y = true <-> indist D x y).
Proof.
  intros Hf Hfn Hok Hn.
  destruct (final_partition_spec fuel D groups w Hf Hfn Hok Hn)
    as (g & Hrun & Hinv & Hst & Hacc).
  exists g. split; [exact Hrun |]. intros x y Hx Hy. split.
  - now apply (class_indist D g Hok Hinv Hst Hacc).
  - intros Hxy.
    exact (final_partition_keeps fuel D groups w (indist D) g Hf Hok Hn
             (indist_closed D Hok) (indist_respects D) Hrun x y Hx Hy Hxy).
Qed.

Lemma final_partition_classes_are_indistinguishability_witness :
  exists g,
    final_partition 4 fork_dfa zeros blank_workspace = Some g /\
    forall x y, 1 <= x <= nstates fork_dfa -> 1 <= y <= nstates fork_dfa ->
      (same g x y = true <-> indist fork_dfa x y).
Proof.
  apply (final_partition_classes_are_indistinguishability 4 fork_dfa zeros blank_workspace).
  - lia.
  - vm_compute. lia.
  - apply trans_okb_sound. reflexivity.
  - simpl. lia.
Defined.

(** ** The compressed automaton as a quotient *)

Section Quotient.

Variables (D : automaton_t) (g : array Z) (sc : scan_state).
Variables (out : automaton_t) (fs0 : fill_state) (ac : Z).

Hypothesis Hok : trans_ok D.
Hypothesis Hinv : Inv (nstates D) g.
Hypothesis Hst : stable D g.
Hypothesis Hacc : respects_accept D (fun x y => same g x y = true).
Hypothesis Hscan : scan_inv (nstates D) g (nstates D) sc.
Hypothesis Hfill :
  fill_inv D sc fs0 (rep_count sc)
    (mk_fill (mat out) (state_attrib out) (accept out) ac).
Hypothesis Hns : nstates out = rep_count sc.
Hypothesis Hnab : nab out = nab D.

Lemma verdict_sim w s :
  0 <= s <= nstates D -> word_ok D w ->
  verdict_of out (newid sc s) w = verdict_of D s w.
Proof.
  intros Hs Hw. unfold verdict_of.
  rewrite (run_sim D g sc out fs0 ac Hok Hinv Hst Hscan Hfill w s Hs Hw).
  pose proof (run_range D Hok w s Hs Hw) as Hr.
  destruct (Z.eq_dec (run D s w) 0) as [E | E].
  - rewrite E, (newid_zero D g sc Hscan). reflexivity.
  - assert (Hr1 : 1 <= run D s w <= nstates D) by lia.
    destruct (newid_pos D g sc Hinv Hscan _ Hr1) as (_ & Hid & _).
    destruct (Z.leb_spec (newid sc (run D s w)) 0); [lia |].
    destruct (Z.leb_spec (run D s w) 0); [lia |].
    unfold isA. now rewrite (out_attr D g sc out fs0 ac Hinv Hacc Hscan Hfill _ Hr1).
Qed.

Lemma pam_newid p :
  1 <= p <= rep_count sc ->
  1 <= sc_pam sc p <= nstates D /\ newid sc (sc_pam sc p) = p /\
  cls g (sc_pam sc p) = sc_pam sc p.
Proof.
  intros Hp. clear Hok Hst Hacc Hfill Hns Hnab.
  pose proof Hscan as (_ & _ & _ & _ & _ & _ & _ & Hpam).
  destruct (Hpam p Hp) as (Hr & Hroot & Hmap).
  assert (Hc : cls g (sc_pam sc p) = sc_pam sc p).
  { apply (root_fun g (sc_pam sc p)); [now apply (Inv_root (nstates D)) | assumption]. }
  split; [assumption |]. split; [| assumption].
  unfold newid. destruct (newid_pos D g sc Hinv Hscan _ Hr) as (Hrep & _).
  now rewrite Hrep, Hc.
Qed.

Lemma quotient_indist p q :
  1 <= p <= nstates out -> 1 <= q <= nstates out ->
  indist out p q -> indist D (sc_pam sc p) (sc_pam sc q).
Proof.
  intros Hp Hq Hpq w Hw. rewrite Hns in Hp, Hq.
  destruct (pam_newid p Hp) as (Hx & Ex & _).
  destruct (pam_newid q Hq) as (Hy & Ey & _).
  rewrite <- (verdict_sim w (sc_pam sc p)) by (lia || assumption).
  rewrite <- (verdict_sim w (sc_pam sc q)) by (lia || assumption).
  rewrite Ex, Ey. apply Hpq. intros j Hj. rewrite Hnab. now apply Hw.
Qed.

Lemma quotient_separated p q :
  keeps (nstates D) (indist D) g ->
  1 <= p <= nstates out -> 1 <= q <= nstates out ->
  indist out p q -> p = q.
Proof.
  intros Hk Hp Hq Hpq.
  pose proof (quotient_indist p q Hp Hq Hpq) as HD.
  rewrite Hns in Hp, Hq.
  destruct (pam_newid p Hp) as (Hx & Ex & Cx).
  destruct (pam_newid q Hq) as (Hy & Ey & Cy).
  pose proof (Hk _ _ Hx Hy HD) as Hs. unfold same in Hs. apply Z.eqb_eq in Hs.
  rewrite Cx, Cy in Hs. rewrite <- Ex, <- Ey. now rewrite Hs.
Qed.

End Quotient.

(** X4.  The automaton [compress_dfa] builds from the final partition has no
    two states that behave alike: if no word tells two of its states apart
    (falling off the automaton, ending in an accept state, ending in another
    state), they are the same state. *)
Theorem compressed_states_are_distinguishable fuel D out0 groups w :
  (2 <= fuel)%nat -> (Z.to_nat (nstates D) <= fuel)%nat ->
  trans_ok D -> 1 <= nstates D ->
  exists g out sc ac,
    final_partition fuel D groups w = Some g /\
    compress_dfa fuel D out0 g (w_map w) (w_pam w) (w_rep w) = Some (out, sc, ac) /\
    forall p q, 1 <= p <= nstates out -> 1 <= q <= nstates out ->
      indist out p q -> p = q.
Proof.
  intros Hf Hfn Hok Hn.
  destruct (final_partition_spec fuel D groups w Hf Hfn Hok Hn)
    as (g & Hrun & Hinv & Hst & Hacc).
  destruct (compress_dfa_spec fuel D out0 g (w_map w) (w_pam w) (w_rep w)
              ltac:(lia) Hfn (Inv_wf _ _ Hinv))
    as (out & sc & ac & Hcomp & Hscan & Hfill & Hns & Hnab & _).
  exists g, out, sc, ac. split; [exact Hrun |]. split; [exact Hcomp |].
  intros p q.
  apply (quotient_separated D g sc out _ ac Hok Hinv Hst Hacc Hscan Hfill Hns Hnab).
  exact (final_partition_keeps fuel D groups w (indist D) g Hf Hok Hn
           (indist_closed D Hok) (indist_respects D) Hrun).
Qed.

Lemma compressed_states_are_distinguishable_witness :
  exists g out sc ac,
    final_partition 4 fork_dfa zeros blank_workspace = Some g /\
    compress_dfa 4 fork_dfa blank_dfa g (w_map blank_workspace)
      (w_pam blank_workspace) (w_rep blank_workspace) = Some (out, sc, ac) /\
    forall p q, 1 <= p <= nstates out -> 1 <= q <= nstates out ->
      indist out p q -> p = q.
Proof.
  apply (compressed_states_are_distinguishable 4 fork_dfa blank_dfa zeros blank_workspace).
  - lia.
  - vm_compute. lia.
  - apply trans_okb_sound. reflexivity.
  - simpl. lia.
Defined.

(** ** Automata without missing transitions *)

Lemma run_total dfa :
  total dfa -> forall w s, 1 <= s <= nstates dfa -> word_ok dfa w ->
  1 <= run dfa s w <= nstates dfa.
Proof.
  intros Ht. induction w as [| j w IH]; intros s Hs Hw; [assumption |].
  cbn [run]. apply IH.
  - unfold delta. destruct (Z.eqb_spec s 0); [lia |].
    apply Ht; [assumption | apply Hw; now left].
  - intros i Hi. apply Hw. now right.
Qed.

Lemma total_verdict dfa x w :
  total dfa -> 1 <= x <= nstates dfa -> word_ok dfa w ->
  verdict_of dfa x w = if accepts_from dfa x w then Accepted else Rejected.
Proof.
  intros Ht Hx Hw. unfold verdict_of, accepts_from, isA.
  pose proof (run_total dfa Ht w x Hx Hw) as Hr.
  destruct (Z.leb_spec (run dfa x w) 0); [lia |].
  destruct (Z.ltb_spec 0 (run dfa x w)); [| lia]. reflexivity.
Qed.

Lemma total_lang_indist dfa x y :
  total dfa -> 1 <= x <= nstates dfa -> 1 <= y <= nstates dfa ->
  lang_eq dfa x y -> indist dfa x y.
Proof.
  intros Ht Hx Hy H w Hw.
  rewrite !total_verdict by assumption. now rewrite (H w Hw).
Qed.

Lemma total_indist_lang dfa x y :
  total dfa -> 1 <= x <= nstates dfa -> 1 <= y <= nstates dfa ->
  indist dfa x y -> lang_eq dfa x y.
Proof.
  intros Ht Hx Hy H w Hw. specialize (H w Hw).
  rewrite !total_verdict in H by assumption.
  destruct (accepts_from dfa x w), (accepts_from dfa y w); congruence.
Qed.

Lemma out_total D g sc out fs0 ac :
  total D -> Inv (nstates D) g ->
  scan_inv (nstates D) g (nstates D) sc ->
  fill_inv D sc fs0 (rep_count sc)
    (mk_fill (mat out) (state_attrib out) (accept out) ac) ->
  nstates out = rep_count sc -> nab out = nab D -> total out.
Proof.
  intros Ht Hinv Hscan Hfill Hns Hnab p j Hp Hj. rewrite Hns in Hp |- *.
  rewrite Hnab in Hj.
  destruct Hfill as (Hmat & _). cbn [f_mat] in Hmat. rewrite (Hmat p j Hp Hj).
  destruct (pam_newid D g sc Hinv Hscan p Hp) as (Hx & _).
  apply (newid_pos D g sc Hinv Hscan). now apply Ht.
Qed.

Lemma reach_same_mat d1 d2 a b :
  mat d1 = mat d2 -> nab d1 = nab d2 -> reach d1 a b -> reach d2 a b.
Proof.
  intros Em En H. unfold reach in *. induction H as [x y Hs | x | x y z _ IH1 _ IH2].
  - apply rt_step. destruct Hs as (j & Hj & E & Hpos). exists j.
    rewrite <- Em, <- En. auto.
  - apply rt_refl.
  - now apply rt_trans with y.
Qed.

(** X5.  For a valid input DFA in which every transition is defined, the
    automaton [minimize_dfa] returns is minimal: two of its states that can
    be reached from its initial state and accept the same words are the same
    state.  (States that cannot be reached are marked dead.) *)
Theorem minimize_dfa_total_is_minimal fuel D out0 groups w :
  valid_dfa D -> total D ->
  accept out0 MAX_STATES = 0 ->
  (Z.to_nat MAX_STATES < fuel)%nat ->
  exists M,
    minimize_dfa fuel D out0 groups w = Some M /\
    forall p q, reach M (init_state M) p -> reach M (init_state M) q ->
      lang_eq M p q -> p = q.
Proof.
  intros (Hn & _ & Hok & Hinit & _ & HnoD) Htot Hsent Hfuel.
  assert (Hf2 : (2 <= fuel)%nat) by (unfold MAX_STATES in Hfuel; lia).
  assert (Hfn : (Z.to_nat (nstates D) <= fuel)%nat) by lia.
  destruct (final_partition_spec fuel D groups w Hf2 Hfn Hok ltac:(lia))
    as (g & Hpart & Hinv & Hstable & Hattr).
  pose proof (Inv_wf _ _ Hinv) as Hwf.
  destruct (compress_dfa_spec fuel D out0 g (w_map w) (w_pam w) (w_rep w)
              ltac:(lia) Hfn Hwf)
    as (out & sc & ac & Hcomp & Hscan & Hfill & Hns & Hnab & Hin).
  pose proof (out_trans_ok D g sc out _ ac Hok Hinv Hscan Hfill Hns Hnab) as Hokout.
  pose proof (out_total D g sc out _ ac Htot Hinv Hscan Hfill Hns Hnab) as Htout.
  pose proof Hfill as (_ & _ & _ & _ & Hac & _ & Hfr & _).
  cbn [f_accept a_count] in Hac, Hfr.
  assert (Hrc : 0 <= rep_count sc <= nstates D) by apply Hscan.
  assert (Hsent' : accept out MAX_STATES = 0) by (rewrite Hfr; [assumption | lia]).
  destruct (find_dead_states_spec fuel out (w_connected w) MAX_STATES
              ltac:(unfold MAX_STATES; lia) Hsent' Hfuel)
    as (attrib' & Hdead & HA & _).
  set (M := mk_automaton (nstates out) (nab out) (mat out) (init_state out)
              (accept out) attrib') in *.
  exists M. split.
  { unfold minimize_dfa. rewrite Hpart. cbn [bind]. rewrite Hcomp. cbn [bind].
    rewrite Hdead. cbn [bind]. reflexivity. }
  assert (Hinit' : 1 <= init_state out <= nstates out).
  { rewrite Hin, Hns. apply (newid_pos D g sc Hinv Hscan). lia. }
  intros p q Hp Hq Hpq. cbn [M init_state] in Hp, Hq.
  apply (reach_same_mat M out _ _ eq_refl eq_refl) in Hp, Hq.
  pose proof (reach_in_range out _ _ Hokout Hinit' Hp) as Hpr.
  pose proof (reach_in_range out _ _ Hokout Hinit' Hq) as Hqr.
  assert (HattrM : forall t, reach out (init_state out) t ->
            Ascii.eqb (attrib' t) attr_A = Ascii.eqb (state_attrib out t) attr_A).
  { intros t Ht. pose proof (reach_in_range out _ _ Hokout Hinit' Ht) as Htr.
    apply eq_true_iff_eq. rewrite !Ascii.eqb_eq, HA. split; [tauto |].
    intros HoutA. split; [assumption |]. intros [_ Hc].
    apply (t_closure_spec out (w_connected w) _ _ Hokout Hinit' Htr) in Ht.
    contradiction. }
  assert (Hlang : forall s word, reach out (init_state out) s -> word_ok out word ->
            accepts_from M s word = accepts_from out s word).
  { intros s word Hs Hw. unfold accepts_from.
    rewrite (run_same_mat M out eq_refl). cbn [M state_attrib]. cbv zeta.
    pose proof (reach_in_range out _ _ Hokout Hinit' Hs) as Hsr.
    pose proof (run_total out Htout word s Hsr Hw) as Hr.
    rewrite HattrM; [reflexivity |].
    apply rt_trans with s; [exact Hs |].
    apply run_reach; try assumption; lia. }
  apply (quotient_separated D g sc out _ ac Hok Hinv Hstable Hattr Hscan Hfill Hns Hnab);
    try assumption.
  - exact (final_partition_keeps fuel D groups w (indist D) g Hf2 Hok ltac:(lia)
             (indist_closed D Hok) (indist_respects D) Hpart).
  - apply total_lang_indist; try assumption.
    intros word Hw. rewrite <- !Hlang by assumption. now apply Hpq.
Qed.

Lemma minimize_dfa_total_is_minimal_witness :
  exists M,
    minimize_dfa 51 two_accept_dfa blank_dfa zeros blank_workspace = Some M /\
    forall p q, reach M (init_state M) p -> reach M (init_state M) q ->
      lang_eq M p q -> p = q.
Proof.
  apply (minimize_dfa_total_is_minimal 51 two_accept_dfa blank_dfa zeros blank_workspace).
  - apply valid_dfab_sound. vm_compute. reflexivity.
  - apply totalb_sound. vm_compute. reflexivity.
  - reflexivity.
  - vm_compute. lia.
Defined.

(** ** Which states [find_dead_states] marks *)

Lemma scan_accept_miss (accept : array Z) (connected : Z -> Z -> Z) i k :
  accept k = 0 ->
  forall fuel j, 0 <= j <= k ->
  (forall x, j <= x < k -> connected i (accept x) = 0) ->
  (Z.to_nat (k - j) < fuel)%nat ->
  scan_accept fuel accept connected i j = Some 0.
Proof.
  intros Hz. induction fuel as [| f IH]; intros j Hj Hmiss Hf; [lia |].
  cbn [scan_accept].
  destruct (Z.eqb_spec (accept j) 0) as [E | E]; cbn [negb]; [now rewrite E |].
  assert (j <> k) by (intros ->; contradiction).
  rewrite (Hmiss j) by lia. cbn [Z.eqb negb].
  apply IH; [lia | intros x Hx; apply Hmiss; lia | lia].
Qed.

Lemma scan_accept_zero_iff fuel (accept : array Z) (connected : Z -> Z -> Z) i k :
  0 <= k -> accept k = 0 -> (forall x, 0 <= x < k -> accept x <> 0) ->
  (Z.to_nat k < fuel)%nat ->
  scan_accept fuel accept connected i 0 = Some 0 <->
  (forall x, 0 <= x < k -> connected i (accept x) = 0).
Proof.
  intros Hk Hz Hnz Hf. split.
  - intros Hs x Hx. destruct (Z.eq_dec (connected i (accept x)) 0) as [E | E];
      [assumption | exfalso].
    destruct (scan_accept_hit accept connected i x E fuel 0) as (v & Hv & Hvnz);
      [lia | intros y Hy; apply Hnz; lia | lia |].
    rewrite Hs in Hv. injection Hv as <-. contradiction.
  - intros Hmiss. apply (scan_accept_miss accept connected i k Hz); [lia | | lia].
    intros x Hx. apply Hmiss. lia.
Qed.

Lemma mark_not_accepting_at fuel accept connected k :
  0 <= k -> accept k = 0 -> (Z.to_nat k < fuel)%nat ->
  forall l attrib,
  exists attrib',
    for_each l
      (fun i a =>
         let attrib := a i in
         if Ascii.eqb attrib attr_D || Ascii.eqb attrib attr_A then Some a
         else
           accept_st <- scan_accept fuel accept connected i 0 ;;
           if accept_st =? 0 then Some (upd a i attr_D) else Some a)
      attrib = Some attrib' /\
    forall s,
      (attrib' s = attr_D <->
         attrib s = attr_D \/
         (In s l /\ attrib s <> attr_A /\
          scan_accept fuel accept connected s 0 = Some 0)) /\
      (attrib' s <> attr_D -> attrib' s = attrib s).
Proof.
  intros Hk Hz Hf. induction l as [| x l IH]; intros attrib; cbn [for_each].
  - exists attrib. split; [reflexivity |]. intros s. split; [| reflexivity].
    split; [now left | intros [H | [[] _]]; exact H].
  - assert (Hstep : exists a1,
      (let attrib0 := attrib x in
       if Ascii.eqb attrib0 attr_D || Ascii.eqb attrib0 attr_A then Some attrib
       else accept_st <- scan_accept fuel accept connected x 0 ;;
            if accept_st =? 0 then Some (upd attrib x attr_D) else Some attrib)
      = Some a1 /\
      forall s,
        (a1 s = attr_D <->
           attrib s = attr_D \/
           (s = x /\ attrib s <> attr_A /\
            scan_accept fuel accept connected s 0 = Some 0)) /\
        (a1 s <> attr_D -> a1 s = attrib s) /\
        (a1 s = attr_A <-> attrib s = attr_A)).
    { cbv zeta.
      destruct (Ascii.eqb_spec (attrib x) attr_D) as [ED | ED]; cbn [orb].
      { exists attrib. split; [reflexivity |]. intros s.
        split; [| split; [reflexivity | tauto]].
        split; [now left | intros [H | (-> & _)]; assumption]. }
      destruct (Ascii.eqb_spec (attrib x) attr_A) as [EA | EA]; cbn [orb].
      { exists attrib. split; [reflexivity |]. intros s.
        split; [| split; [reflexivity | tauto]].
        split; [now left | intros [H | (-> & H & _)]; [assumption | contradiction]]. }
      destruct (scan_accept_total accept connected x k Hk Hz fuel 0) as [v Hv];
        [lia | lia |].
      rewrite Hv. cbn [bind]. destruct (Z.eqb_spec v 0) as [-> | Hvnz].
      - exists (upd attrib x attr_D). split; [reflexivity |]. intros s.
        destruct (Z.eq_dec s x) as [-> | Hne].
        + rewrite upd_eq. split; [| split].
          * split; [intros _; right; auto | reflexivity].
          * congruence.
          * split; [intros E; symmetry in E; now apply attr_A_neq_D in E
                   | intros E; contradiction].
        + rewrite (upd_neq _ _ _ _ Hne). split; [| split; [reflexivity | tauto]].
          split; [now left | intros [H | (-> & _)]; [assumption | contradiction]].
      - exists attrib. split; [reflexivity |]. intros s.
        split; [| split; [reflexivity | tauto]].
        split; [now left | intros [H | (-> & _ & H)]; [assumption |]].
        rewrite Hv in H. injection H as H. contradiction. }
    destruct Hstep as (a1 & Hrun1 & H1). cbv zeta in Hrun1. rewrite Hrun1.
    cbn [bind]. destruct (IH a1) as (a2 & Hrun2 & H2).
    exists a2. split; [exact Hrun2 |]. intros s.
    destruct (H1 s) as (HD1 & Hk1 & HA1). destruct (H2 s) as (HD2 & Hk2).
    split.
    + rewrite HD2, HD1. split.
      * intros [[H | (E & H)] | (Hin & HnA & Hs)].
        -- now left.
        -- right. split; [left; now symmetry | exact H].
        -- right. split; [now right |]. split; [| exact Hs].
           intros E. apply HnA. now apply HA1.
      * intros [H | ([E | Hin] & HnA & Hs)].
        -- left. now left.
        -- left. right. split; [now symmetry |]. split; assumption.
        -- right. split; [assumption |]. split; [| assumption].
           intros E. apply HnA. now apply HA1.
    + intros Hne. rewrite (Hk2 Hne). apply Hk1. intros E. apply Hne.
      apply HD2. now left.
Qed.

Lemma find_dead_states_exact fuel dfa c0 k :
  trans_ok dfa -> 1 <= init_state dfa <= nstates dfa ->
  0 <= k -> accept dfa k = 0 ->
  (forall j, 0 <= j < k -> 1 <= accept dfa j <= nstates dfa) ->
  (Z.to_nat k < fuel)%nat ->
  exists attrib' connected,
    find_dead_states fuel dfa c0 =
      Some (mk_automaton (nstates dfa) (nab dfa) (mat dfa) (init_state dfa)
              (accept dfa) attrib', connected) /\
    forall s, 1 <= s <= nstates dfa ->
      (attrib' s = attr_D <->
         state_attrib dfa s = attr_D \/
         ~ reach dfa (init_state dfa) s \/
         (state_attrib dfa s <> attr_A /\
          forall j, 0 <= j < k -> ~ reach dfa s (accept dfa j))) /\
      (attrib' s <> attr_D -> attrib' s = state_attrib dfa s).
Proof.
  intros Hok Hinit Hk Hz Hacc Hf.
  set (connected := t_closure (nstates dfa)
                      (init_connections (mat dfa) (nstates dfa) (nab dfa) c0)).
  set (m := mark_unreachable (nstates dfa) (init_state dfa) connected (state_attrib dfa)).
  destruct (mark_not_accepting_at fuel (accept dfa) connected k Hk Hz Hf
              (range 1 (nstates dfa)) m) as (attrib' & Hrun & Hat).
  exists attrib', connected. split.
  { unfold find_dead_states, mark_not_accepting. subst m connected.
    cbv zeta in Hrun |- *. rewrite Hrun. reflexivity. }
  intros s Hs. destruct (Hat s) as (HD & Hkeep).
  assert (Hconn : forall a b, 1 <= a <= nstates dfa -> 1 <= b <= nstates dfa ->
            (connected a b = 0 <-> ~ reach dfa a b)).
  { intros a b Ha Hb.
    pose proof (t_closure_spec dfa c0 a b Hok Ha Hb) as Hc. fold connected in Hc.
    split; [intros E Hr; apply Hc in Hr; contradiction |].
    intros Hn. destruct (Z.eq_dec (connected a b) 0) as [E | E]; [assumption |].
    exfalso. apply Hn, Hc, E. }
  assert (Hscan : scan_accept fuel (accept dfa) connected s 0 = Some 0 <->
            forall j, 0 <= j < k -> ~ reach dfa s (accept dfa j)).
  { rewrite (scan_accept_zero_iff fuel (accept dfa) connected s k Hk Hz); [| | assumption].
    - split; intros H j Hj; apply (Hconn s (accept dfa j) Hs (Hacc j Hj)), H, Hj.
    - intros x Hx. specialize (Hacc x Hx). lia. }
  assert (Hm : m s = if connected (init_state dfa) s =? 0 then attr_D
                     else state_attrib dfa s).
  { unfold m. rewrite mark_unreachable_spec.
    destruct (Z.leb_spec 1 s); [| lia]. destruct (Z.leb_spec s (nstates dfa)); [| lia].
    reflexivity. }
  assert (Hin : In s (range 1 (nstates dfa))) by now apply in_range.
  destruct (Z.eqb_spec (connected (init_state dfa) s) 0) as [Ec | Ec].
  - assert (Hd : attrib' s = attr_D) by (apply HD; now left).
    split; [| intros Hne; contradiction].
    split; [intros _ | intros _; exact Hd].
    right. left. now apply (Hconn _ _ Hinit Hs).
  - assert (Hr : reach dfa (init_state dfa) s).
    { apply (t_closure_spec dfa c0 _ _ Hok Hinit Hs). exact Ec. }
    split.
    + rewrite HD, Hm, Hscan. split.
      * intros [H | (_ & H1 & H2)]; [now left | right; right; now split].
      * intros [H | [H | (H1 & H2)]];
          [now left | contradiction | right; repeat split; assumption].
    + intros Hne. rewrite (Hkeep Hne). exact Hm.
Qed.

Lemma reach_dec dfa a b :
  trans_ok dfa -> 1 <= a <= nstates dfa -> 1 <= b <= nstates dfa ->
  reach dfa a b \/ ~ reach dfa a b.
Proof.
  intros Hok Ha Hb.
  pose proof (t_closure_spec dfa (fun _ _ => 0) a b Hok Ha Hb) as Hc.
  destruct (Z.eq_dec
              (t_closure (nstates dfa)
                 (init_connections (mat dfa) (nstates dfa) (nab dfa) (fun _ _ => 0)) a b)
              0) as [E | E].
  - right. intros Hr. apply Hc in Hr. contradiction.
  - left. now apply Hc.
Qed.

Lemma bounded_search (P : Z -> Prop) k :
  (forall j, 0 <= j < k -> P j \/ ~ P j) ->
  (exists j, 0 <= j < k /\ P j) \/ (forall j, 0 <= j < k -> ~ P j).
Proof.
  intros Hdec. destruct (Z.le_gt_cases k 0) as [Hk | Hk]; [right; intros j Hj; lia |].
  revert Hdec. pattern k. apply Zlt_lower_bound_ind with (z := 1); [| lia].
  clear k Hk. intros k IH Hk Hdec.
  destruct (Hdec (k - 1) ltac:(lia)) as [HP | HnP].
  - left. exists (k - 1). split; [lia | assumption].
  - destruct (Z.eq_dec k 1) as [-> | Hne].
    + right. intros j Hj. assert (j = 0) by lia. subst j. exact HnP.
    + destruct (IH (k - 1) ltac:(lia)) as [(j & Hj & HP) | Hnone].
      * intros j Hj. apply Hdec. lia.
      * left. exists j. split; [lia | assumption].
      * right. intros j Hj. destruct (Z.eq_dec j (k - 1)) as [-> | Hjk];
          [assumption | apply Hnone; lia].
Qed.

(** X6.  For a DFA whose accept list is terminated by a 0 and names states
    of the DFA, [find_dead_states] marks a state dead exactly when it was
    dead already, or cannot be reached from the initial state, or is not an
    accept state and reaches none of the listed accept states; every other
    state keeps its attribute, and nothing else of the DFA changes. *)
Theorem find_dead_states_marks_exactly fuel dfa c0 k :
  trans_ok dfa -> 1 <= init_state dfa <= nstates dfa ->
  0 <= k -> accept dfa k = 0 ->
  (forall j, 0 <= j < k -> 1 <= accept dfa j <= nstates dfa) ->
  (Z.to_nat k < fuel)%nat ->
  exists M connected,
    find_dead_states fuel dfa c0 = Some (M, connected) /\
    nstates M = nstates dfa /\ nab M = nab dfa /\ mat M = mat dfa /\
    init_state M = init_state dfa /\ accept M = accept dfa /\
    forall s, 1 <= s <= nstates dfa ->
      (state_attrib M s = attr_D <->
         state_attrib dfa s = attr_D \/
         ~ reach dfa (init_state dfa) s \/
         (state_attrib dfa s <> attr_A /\
          forall j, 0 <= j < k -> ~ reach dfa s (accept dfa j))) /\
      (state_attrib M s <> attr_D -> state_attrib M s = state_attrib dfa s).
Proof.
  intros Hok Hinit Hk Hz Hacc Hf.
  destruct (find_dead_states_exact fuel dfa c0 k Hok Hinit Hk Hz Hacc Hf)
    as (attrib' & connected & Hrun & Hat).
  eexists. exists connected. split; [exact Hrun |].
  cbn [nstates nab mat init_state accept state_attrib].
  repeat (split; [reflexivity |]). exact Hat.
Qed.

Lemma find_dead_states_marks_exactly_witness :
  exists M connected,
    find_dead_states 2 trap_dfa (fun _ _ => 0) = Some (M, connected) /\
    nstates M = nstates trap_dfa /\ nab M = nab trap_dfa /\ mat M = mat trap_dfa /\
    init_state M = init_state trap_dfa /\ accept M = accept trap_dfa /\
    forall s, 1 <= s <= nstates trap_dfa ->
      (state_attrib M s = attr_D <->
         state_attrib trap_dfa s = attr_D \/
         ~ reach trap_dfa (init_state trap_dfa) s \/
         (state_attrib trap_dfa s <> attr_A /\
          forall j, 0 <= j < 1 -> ~ reach trap_dfa s (accept trap_dfa j))) /\
      (state_attrib M s <> attr_D -> state_attrib M s = state_attrib trap_dfa s).
Proof.
  apply (find_dead_states_marks_exactly 2 trap_dfa (fun _ _ => 0) 1).
  - apply trans_okb_sound. reflexivity.
  - simpl. lia.
  - lia.
  - reflexivity.
  - intros j Hj. assert (j = 0) by lia. subst j. simpl. lia.
  - simpl. lia.
Defined.

Lemma minimize_dfa_live_iff_useful fuel D out0 groups w :
  valid_dfa D ->
  (forall j, accept out0 j = 0) ->
  (Z.to_nat MAX_STATES < fuel)%nat ->
  exists M,
    minimize_dfa fuel D out0 groups w = Some M /\
    forall s, 1 <= s <= nstates M ->
      (state_attrib M s <> attr_D <->
       reach M (init_state M) s /\
       exists a, reach M s a /\ state_attrib M a = attr_A).
Proof.
  intros (Hn & _ & Hok & Hinit & _ & HnoD) Hblank Hfuel.
  assert (Hf2 : (2 <= fuel)%nat) by (unfold MAX_STATES in Hfuel; lia).
  assert (Hfn : (Z.to_nat (nstates D) <= fuel)%nat) by lia.
  destruct (final_partition_spec fuel D groups w Hf2 Hfn Hok ltac:(lia))
    as (g & Hpart & Hinv & Hstable & Hattr).
  pose proof (Inv_wf _ _ Hinv) as Hwf.
  destruct (compress_dfa_spec fuel D out0 g (w_map w) (w_pam w) (w_rep w)
              ltac:(lia) Hfn Hwf)
    as (out & sc & ac & Hcomp & Hscan & Hfill & Hns & Hnab & Hin).
  pose proof (out_trans_ok D g sc out _ ac Hok Hinv Hscan Hfill Hns Hnab) as Hokout.
  pose proof Hfill as (_ & _ & Hfat & _ & Hac & Hacc & Hfr & Hall).
  cbn [f_attrib f_accept a_count] in Hfat, Hac, Hacc, Hfr, Hall.
  assert (Hrc : 0 <= rep_count sc <= nstates D) by apply Hscan.
  assert (Hinit' : 1 <= init_state out <= nstates out).
  { rewrite Hin, Hns. apply (newid_pos D g sc Hinv Hscan). lia. }
  assert (Hsent : accept out ac = 0) by (rewrite Hfr; [apply Hblank | lia]).
  assert (Hlist : forall j, 0 <= j < ac -> 1 <= accept out j <= nstates out).
  { intros j Hj. rewrite Hns. apply Hacc. lia. }
  destruct (find_dead_states_exact fuel out (w_connected w) ac Hokout Hinit'
              ltac:(lia) Hsent Hlist ltac:(unfold MAX_STATES in *; lia))
    as (attrib' & conn & Hdead & Hat).
  set (M := mk_automaton (nstates out) (nab out) (mat out) (init_state out)
              (accept out) attrib') in *.
  exists M. split.
  { unfold minimize_dfa. rewrite Hpart. cbn [bind]. rewrite Hcomp. cbn [bind].
    rewrite Hdead. cbn [bind]. reflexivity. }
  assert (HoutD : forall s, 1 <= s <= nstates out -> state_attrib out s <> attr_D).
  { intros s Hs. rewrite Hns in Hs. rewrite (Hfat s Hs).
    destruct Hscan as (_ & _ & _ & _ & _ & _ & _ & Hpam).
    destruct (Hpam s Hs) as (Hp & _). exact (HnoD _ Hp). }
  assert (HR : forall a b, reach M a b <-> reach out a b).
  { intros a b. split; apply reach_same_mat; reflexivity. }
  cbn [M nstates init_state state_attrib]. intros s Hs.
  destruct (Hat s Hs) as (HDs & Hkeeps). split.
  - intros Hne.
    assert (Hrs : reach out (init_state out) s).
    { destruct (reach_dec out _ _ Hokout Hinit' Hs) as [H | H]; [assumption |].
      exfalso. apply Hne, HDs. right. now left. }
    split; [now apply HR |].
    destruct (Ascii.eqb_spec (state_attrib out s) attr_A) as [EA | EA].
    + exists s. split; [apply rt_refl |]. now rewrite (Hkeeps Hne).
    + destruct (bounded_search (fun j => reach out s (accept out j)) ac)
        as [(j & Hj & Hr) | Hnone].
      * intros j Hj. apply reach_dec; auto.
      * exists (accept out j). split; [now apply HR |].
        destruct (Hacc j ltac:(lia)) as (Hja & HjA).
        rewrite <- Hns in Hja.
        destruct (Hat _ Hja) as (HDa & Hkeepa).
        rewrite Hkeepa; [exact HjA |]. intros Ed. apply HDa in Ed.
        destruct Ed as [Ed | [Ed | (Ed & _)]].
        -- exact (HoutD _ Hja Ed).
        -- apply Ed. now apply rt_trans with s.
        -- contradiction.
      * exfalso. apply Hne, HDs. right. right. split; assumption.
  - intros (Hrs & a & Hsa & HaA) Ed. apply HR in Hrs, Hsa.
    pose proof (reach_in_range out _ _ Hokout Hs Hsa) as Ha.
    destruct (Hat a Ha) as (_ & Hkeepa).
    assert (HaA' : state_attrib out a = attr_A).
    { rewrite <- Hkeepa; [exact HaA |]. rewrite HaA. apply attr_A_neq_D. }
    apply HDs in Ed. destruct Ed as [Ed | [Ed | (EnA & Hnone)]].
    + exact (HoutD _ Hs Ed).
    + contradiction.
    + destruct (Hall a ltac:(lia) HaA') as (j & Hj & Ej).
      apply (Hnone j ltac:(lia)). now rewrite Ej.
Qed.

(** X7.  When the output structure starts with an empty accept list (as the
    program's static [out_dfa] does for the first file), the states of the
    result of [minimize_dfa] that are not marked dead are exactly the useful
    ones: those that can be reached from the initial state and from which an
    accept state can be reached. *)
Theorem minimize_dfa_live_states_are_useful fuel D out0 groups w :
  valid_dfa D ->
  (forall j, accept out0 j = 0) ->
  (Z.to_nat MAX_STATES < fuel)%nat ->
  exists M,
    minimize_dfa fuel D out0 groups w = Some M /\
    forall s, 1 <= s <= nstates M ->
      (state_attrib M s <> attr_D <->
       reach M (init_state M) s /\
       exists a, reach M s a /\ state_attrib M a = attr_A).
Proof. apply minimize_dfa_live_iff_useful. Qed.

Lemma minimize_dfa_live_states_are_useful_witness :
  exists M,
    minimize_dfa 51 trap_dfa blank_dfa zeros blank_workspace = Some M /\
    forall s, 1 <= s <= nstates M ->
      (state_attrib M s <> attr_D <->
       reach M (init_state M) s /\
       exists a, reach M s a /\ state_attrib M a = attr_A).
Proof.
  apply (minimize_dfa_live_states_are_useful 51 trap_dfa blank_dfa zeros blank_workspace).
  - apply valid_dfab_sound. vm_compute. reflexivity.
  - reflexivity.
  - vm_compute. lia.
Defined.

(** X8.  The result of [minimize_dfa] is the quotient of the input DFA by
    indistinguishability: there is a map [f] from the old states onto the
    new states that sends two old states to the same new state exactly when
    no word tells them apart, commutes with the transitions and sends the
    old initial state to the new one.  The result has at least one state and
    at most as many as the input, over the same alphabet. *)
Theorem minimize_dfa_is_quotient fuel D out0 groups w :
  valid_dfa D ->
  accept out0 MAX_STATES = 0 ->
  (Z.to_nat MAX_STATES < fuel)%nat ->
  exists M f,
    minimize_dfa fuel D out0 groups w = Some M /\
    nab M = nab D /\ 1 <= nstates M <= nstates D /\
    init_state M = f (init_state D) /\ f 0 = 0 /\
    (forall x, 1 <= x <= nstates D -> 1 <= f x <= nstates M) /\
    (forall p, 1 <= p <= nstates M -> exists x, 1 <= x <= nstates D /\ f x = p) /\
    (forall x y, 1 <= x <= nstates D -> 1 <= y <= nstates D ->
       (f x = f y <-> indist D x y)) /\
    (forall x j, 1 <= x <= nstates D -> 1 <= j <= nab D ->
       mat M (f x) j = f (mat D x j)).
Proof.
  intros (Hn & _ & Hok & Hinit & _ & HnoD) Hsent Hfuel.
  assert (Hf2 : (2 <= fuel)%nat) by (unfold MAX_STATES in Hfuel; lia).
  assert (Hfn : (Z.to_nat (nstates D) <= fuel)%nat) by lia.
  destruct (final_partition_spec fuel D groups w Hf2 Hfn Hok ltac:(lia))
    as (g & Hpart & Hinv & Hstable & Hattr).
  pose proof (Inv_wf _ _ Hinv) as Hwf.
  destruct (compress_dfa_spec fuel D out0 g (w_map w) (w_pam w) (w_rep w)
              ltac:(lia) Hfn Hwf)
    as (out & sc & ac & Hcomp & Hscan & Hfill & Hns & Hnab & Hin).
  pose proof Hfill as (_ & _ & _ & _ & Hac & _ & Hfr & _).
  cbn [f_accept a_count] in Hac, Hfr.
  assert (Hrc : 0 <= rep_count sc <= nstates D) by apply Hscan.
  assert (Hsent' : accept out MAX_STATES = 0) by (rewrite Hfr; [assumption | lia]).
  destruct (find_dead_states_spec fuel out (w_connected w) MAX_STATES
              ltac:(unfold MAX_STATES; lia) Hsent' Hfuel)
    as (attrib' & Hdead & _).
  exists (mk_automaton (nstates out) (nab out) (mat out) (init_state out)
            (accept out) attrib'), (newid sc).
  cbn [nstates nab mat init_state].
  assert (Hinit' : 1 <= init_state out <= nstates out).
  { rewrite Hin, Hns. apply (newid_pos D g sc Hinv Hscan). lia. }
  split.
  { unfold minimize_dfa. rewrite Hpart. cbn [bind]. rewrite Hcomp. cbn [bind].
    rewrite Hdead. cbn [bind]. reflexivity. }
  split; [exact Hnab |]. split; [lia |]. split; [exact Hin |].
  split; [exact (newid_zero D g sc Hscan) |].
  split; [intros x Hx; rewrite Hns; now apply (newid_pos D g sc Hinv Hscan) |].
  split.
  { intros p Hp. rewrite Hns in Hp.
    destruct (pam_newid D g sc Hinv Hscan p Hp) as (Hx & Ex & _).
    exists (sc_pam sc p). split; assumption. }
  split.
  { intros x y Hx Hy.
    destruct (newid_pos D g sc Hinv Hscan x Hx) as (Hrx & _ & Hpx).
    destruct (newid_pos D g sc Hinv Hscan y Hy) as (Hry & _ & Hpy).
    split.
    - intros E. apply (class_indist D g Hok Hinv Hstable Hattr x y Hx Hy).
      unfold same. apply Z.eqb_eq. rewrite <- Hpx, <- Hpy. now rewrite E.
    - intros Hxy.
      pose proof (final_partition_keeps fuel D groups w (indist D) g Hf2 Hok ltac:(lia)
                    (indist_closed D Hok) (indist_respects D) Hpart x y Hx Hy Hxy) as Hs.
      unfold same in Hs. apply Z.eqb_eq in Hs. unfold newid. now rewrite Hrx, Hry, Hs. }
  intros x j Hx Hj.
  exact (out_mat D g sc out _ ac Hok Hinv Hstable Hscan Hfill x j Hx Hj).
Qed.

Lemma minimize_dfa_is_quotient_witness :
  exists M f,
    minimize_dfa 51 fork_dfa blank_dfa zeros blank_workspace = Some M /\
    nab M = nab fork_dfa /\ 1 <= nstates M <= nstates fork_dfa /\
    init_state M = f (init_state fork_dfa) /\ f 0 = 0 /\
    (forall x, 1 <= x <= nstates fork_dfa -> 1 <= f x <= nstates M) /\
    (forall p, 1 <= p <= nstates M ->
       exists x, 1 <= x <= nstates fork_dfa /\ f x = p) /\
    (forall x y, 1 <= x <= nstates fork_dfa -> 1 <= y <= nstates fork_dfa ->
       (f x = f y <-> indist fork_dfa x y)) /\
    (forall x j, 1 <= x <= nstates fork_dfa -> 1 <= j <= nab fork_dfa ->
       mat M (f x) j = f (mat fork_dfa x j)).
Proof.
  apply (minimize_dfa_is_quotient 51 fork_dfa blank_dfa zeros blank_workspace).
  - apply valid_dfab_sound. vm_compute. reflexivity.
  - reflexivity.
  - vm_compute. lia.
Defined.

(** X9.  The result of [minimize_dfa] is not always minimal when transitions
    are missing: a state without a transition on a symbol is kept apart from
    a state that goes to a trap state on that symbol, and once the trap state
    is marked dead the two states are printed with the same row.  For the
    valid input [gap_dfa] the result has two different live states, both not
    accepting, with the same live transition on every symbol. *)
Theorem minimize_dfa_result_not_always_minimal :
  exists D, valid_dfa D /\
  exists M, minimize_dfa 51 D blank_dfa zeros blank_workspace = Some M /\
  exists p q,
    1 <= p <= nstates M /\ 1 <= q <= nstates M /\ p <> q /\
    dead M p = false /\ dead M q = false /\
    isA (state_attrib M) p = isA (state_attrib M) q /\
    forall j, 1 <= j <= nab M -> delta_live M p j = delta_live M q j.
Proof.
  exists gap_dfa. split; [apply valid_dfab_sound; vm_compute; reflexivity |].
  destruct (minimize_dfa 51 gap_dfa blank_dfa zeros blank_workspace) as [M |] eqn:E.
  2:{ vm_compute in E. discriminate. }
  exists M. split; [reflexivity |]. exists 2, 3.
  assert (H : nstates M = 5 /\ nab M = 2 /\
              dead M 2 = false /\ dead M 3 = false /\
              isA (state_attrib M) 2 = isA (state_attrib M) 3 /\
              delta_live M 2 1 = delta_live M 3 1 /\
              delta_live M 2 2 = delta_live M 3 2).
  { vm_compute in E. injection E as <-. vm_compute. repeat split. }
  destruct H as (Hn & Hab & H2 & H3 & HA & H21 & H22).
  rewrite Hn, Hab. repeat split; try lia; try assumption.
  intros j Hj. assert (Ej : j = 1 \/ j = 2) by lia.
  destruct Ej as [-> | ->]; assumption.
Qed.

(** ** Path compression, exactly *)

Lemma chain_pos_depth rep e r d : chain rep e r d -> 0 < rep e -> (0 < d)%nat.
Proof. intros Hc He. inversion Hc; subst; lia. Qed.

Lemma on_path_depth rep a x :
  on_path rep a x ->
  forall r da, chain rep a r da ->
  exists dx, chain rep x r dx /\ (0 < dx <= da)%nat.
Proof.
  induction 1 as [a Ha | a x Ha Hp IH]; intros r da Hc.
  - exists da. split; [assumption |]. pose proof (chain_pos_depth _ _ _ _ Hc Ha). lia.
  - inversion Hc; subst; [lia |].
    destruct (IH _ _ H0) as (dx & Hdx & Hle). exists dx. split; [assumption | lia].
Qed.

Lemma chain_upd_off rep e v r de :
  chain rep e r de ->
  forall a da, chain rep a r da -> (da < de)%nat ->
  chain (upd rep e v) a r da.
Proof.
  intros He a da Ha. induction Ha as [r Hr | a r d Hpos Hc IH]; intros Hlt.
  - constructor. rewrite upd_neq; [assumption |].
    intros ->. destruct (chain_fun _ _ _ _ He _ _ (chain_root _ _ Hr)). lia.
  - assert (Hne : a <> e).
    { intros ->. destruct (chain_fun _ _ _ _ He _ _ (chain_step _ _ _ _ Hpos Hc)). lia. }
    apply chain_step; rewrite upd_neq by assumption; [assumption |].
    apply IH; [assumption | lia].
Qed.

Lemma on_path_upd_fwd rep e v r de :
  chain rep e r de ->
  forall a x, on_path rep a x ->
  forall da, chain rep a r da -> (da < de)%nat ->
  on_path (upd rep e v) a x.
Proof.
  intros He a x Hp. induction Hp as [a Ha | a x Ha Hp IH]; intros da Hc Hlt.
  - assert (Hne : a <> e).
    { intros ->. destruct (chain_fun _ _ _ _ He _ _ Hc). lia. }
    apply on_path_here. now rewrite upd_neq.
  - assert (Hne : a <> e).
    { intros ->. destruct (chain_fun _ _ _ _ He _ _ Hc). lia. }
    inversion Hc; subst; [lia |].
    apply on_path_up; rewrite upd_neq by assumption; [assumption |].
    apply (IH d); [assumption | lia].
Qed.

Lemma on_path_upd_bwd rep e v r de :
  chain rep e r de ->
  forall a x, on_path (upd rep e v) a x ->
  forall da, chain rep a r da -> (da < de)%nat ->
  on_path rep a x.
Proof.
  intros He a x Hp. induction Hp as [a Ha | a x Ha Hp IH]; intros da Hc Hlt.
  - assert (Hne : a <> e).
    { intros ->. destruct (chain_fun _ _ _ _ He _ _ Hc). lia. }
    apply on_path_here. now rewrite upd_neq in Ha.
  - assert (Hne : a <> e).
    { intros ->. destruct (chain_fun _ _ _ _ He _ _ Hc). lia. }
    rewrite upd_neq in Ha, Hp, IH by assumption.
    inversion Hc; subst; [lia |].
    apply on_path_up; [assumption |]. apply (IH d); [assumption | lia].
Qed.

Lemma on_path_inv rep e x :
  on_path rep e x -> 0 < rep e /\ (x = e \/ on_path rep (rep e) x).
Proof. destruct 1; auto. Qed.

Lemma compress_path_exact r :
  forall d rep elem, chain rep elem r d ->
  forall fuel, (d < fuel)%nat ->
  exists rep', compress_path fuel rep elem r = Some rep' /\
    forall x, (on_path rep elem x -> rep' x = r) /\
              (~ on_path rep elem x -> rep' x = rep x).
Proof.
  induction d as [| d IH]; intros rep elem Hc [| f] Hf; try lia; cbn [compress_path].
  - inversion Hc; subst. destruct (Z.gtb_spec (rep r) 0); [lia |].
    exists rep. split; [reflexivity |]. intros x. split; [| reflexivity].
    intros Hp. inversion Hp; subst; lia.
  - inversion Hc as [| e0 r0 d0 Hpos Hup]; subst.
    destruct (Z.gtb_spec (rep elem) 0); [| lia].
    pose proof (chain_upd_off rep elem r r (S d) Hc _ _ Hup ltac:(lia)) as Hc1.
    destruct (IH (upd rep elem r) (rep elem) Hc1 f ltac:(lia)) as (rep' & Hrun & Hat).
    exists rep'. split; [exact Hrun |]. intros x.
    assert (Hoff : ~ on_path (upd rep elem r) (rep elem) elem).
    { intros Hp.
      apply (on_path_upd_bwd rep elem r r (S d) Hc _ _) with (da := d) in Hp;
        [| assumption | lia].
      destruct (on_path_depth _ _ _ Hp _ _ Hup) as (dx & Hdx & Hle).
      destruct (chain_fun _ _ _ _ Hc _ _ Hdx). lia. }
    split.
    + intros Hp. destruct (on_path_inv _ _ _ Hp) as (_ & [-> | Hp']).
      * destruct (Hat elem) as (_ & Hk). rewrite (Hk Hoff). apply upd_eq.
      * apply Hat.
        apply (on_path_upd_fwd rep elem r r (S d) Hc _ _ Hp' d); [assumption | lia].
    + intros Hn.
      assert (Hne : x <> elem) by (intros ->; apply Hn; now apply on_path_here).
      destruct (Hat x) as (_ & Hk). rewrite Hk; [now apply upd_neq |].
      intros Hp. apply Hn. apply on_path_up; [assumption |].
      apply (on_path_upd_bwd rep elem r r (S d) Hc _ _ Hp d); [assumption | lia].
Qed.

Lemma find_exact n rep e fuel :
  wf n rep -> 1 <= e <= n -> (Z.to_nat n <= fuel)%nat ->
  exists r rep',
    find fuel e rep = Some (r, rep') /\ root rep e r /\
    forall x, (on_path rep e x -> rep' x = r) /\
              (~ on_path rep e x -> rep' x = rep x).
Proof.
  intros Hwf He Hfuel.
  destruct (Hwf e He) as (_ & r & d & Hc).
  pose proof (chain_depth_bound _ _ _ _ _ Hwf He Hc) as Hd.
  destruct (compress_path_exact r d rep e Hc fuel ltac:(lia)) as (rep' & Hrun & Hat).
  exists r, rep'. split; [| split; [now exists d | exact Hat]].
  unfold find. rewrite (find_root_chain rep e r d Hc fuel ltac:(lia)). cbn [bind].
  rewrite Hrun. reflexivity.
Qed.

Lemma root_not_on_path rep e r : root rep e r -> ~ on_path rep e r.
Proof.
  intros [d Hc] Hp.
  destruct (on_path_depth _ _ _ Hp _ _ Hc) as (dx & Hdx & Hle).
  pose proof (chain_root_cell _ _ _ _ Hc) as Hr.
  destruct (chain_fun _ _ _ _ Hdx _ _ (chain_root _ _ Hr)). lia.
Qed.

Lemma find_flat_again fuel rep e r :
  (2 <= fuel)%nat -> rep r <= 0 -> (e = r \/ rep e = r /\ 0 < r) ->
  exists rep', find fuel e rep = Some (r, rep') /\ forall x, rep' x = rep x.
Proof.
  intros Hf Hr He. destruct fuel as [| [| f]]; try lia.
  unfold find. cbn [find_root compress_path].
  destruct He as [-> | [E Hpos]].
  - destruct (Z.gtb_spec (rep r) 0); [lia |]. cbn [bind]. now exists rep.
  - assert (Hne : r <> e) by (intros ->; lia).
    destruct (Z.gtb_spec (rep e) 0); [| lia]. rewrite E.
    destruct (Z.gtb_spec (rep r) 0); [lia |]. cbn [bind].
    rewrite (upd_neq rep e r r Hne).
    destruct (Z.gtb_spec (rep r) 0); [lia |]. cbn [bind].
    exists (upd rep e r). split; [reflexivity |]. intros x.
    destruct (Z.eq_dec x e) as [-> | Hx]; [now rewrite upd_eq | now apply upd_neq].
Qed.

(** X10.  [find] rewrites exactly the cells on the path it has walked: the
    element and each of its ancestors other than the root end up pointing
    directly at the root, and every other cell of the vector keeps its
    content. *)
Theorem find_compresses_exactly_the_path n rep e fuel :
  wf n rep -> 1 <= e <= n -> (Z.to_nat n <= fuel)%nat ->
  exists r rep',
    find fuel e rep = Some (r, rep') /\
    forall x, (on_path rep e x -> rep' x = r) /\
              (~ on_path rep e x -> rep' x = rep x).
Proof.
  intros Hwf He Hfuel.
  destruct (find_exact n rep e fuel Hwf He Hfuel) as (r & rep' & Hrun & _ & Hat).
  exists r, rep'. split; assumption.
Qed.

Lemma find_compresses_exactly_the_path_witness :
  exists r rep',
    find 3 1 path_rep = Some (r, rep') /\
    forall x, (on_path path_rep 1 x -> rep' x = r) /\
              (~ on_path path_rep 1 x -> rep' x = path_rep x).
Proof.
  apply (find_compresses_exactly_the_path 3 path_rep 1 3).
  - apply wfb_sound. reflexivity.
  - lia.
  - simpl. lia.
Defined.

(** X11.  A second [find] of the same element returns the same root and
    leaves every cell of the compressed vector as it is. *)
Theorem find_again_changes_nothing n rep e fuel :
  wf n rep -> 1 <= e <= n -> (Z.to_nat n <= fuel)%nat -> (2 <= fuel)%nat ->
  exists r rep' rep'',
    find fuel e rep = Some (r, rep') /\
    find fuel e rep' = Some (r, rep'') /\
    forall x, rep'' x = rep' x.
Proof.
  intros Hwf He Hfuel Hf2.
  destruct (find_exact n rep e fuel Hwf He Hfuel) as (r & rep' & Hrun & Hroot & Hat).
  pose proof (root_cell _ _ _ Hroot) as Hcell.
  pose proof (root_in_range n rep e r Hwf He Hroot) as Hr.
  assert (Hr' : rep' r <= 0).
  { destruct (Hat r) as (_ & Hk). rewrite Hk; [assumption |].
    now apply root_not_on_path. }
  destruct (find_flat_again fuel rep' e r Hf2 Hr') as (rep'' & Hrun2 & Hsame).
  - destruct (Z_lt_le_dec 0 (rep e)) as [Hpos | Hneg].
    + right. split; [| lia]. apply Hat. now apply on_path_here.
    + left. apply (root_fun rep e); [apply root_self; assumption | assumption].
  - exists r, rep', rep''. auto.
Qed.

Lemma find_again_changes_nothing_witness :
  exists r rep' rep'',
    find 3 1 path_rep = Some (r, rep') /\
    find 3 1 rep' = Some (r, rep'') /\
    forall x, rep'' x = rep' x.
Proof.
  apply (find_again_changes_nothing 3 path_rep 1 3).
  - apply wfb_sound. reflexivity.
  - lia.
  - simpl. lia.
  - lia.
Defined.

(** X12.  [Union] of two elements that are already in one class leaves the
    partition alone: the vector stays well formed, every element keeps its
    root, and every root keeps its weight cell (only paths are
    compressed). *)
Theorem Union_same_class_keeps_partition n rep a b r fuel :
  wf n rep -> 1 <= a <= n -> 1 <= b <= n -> (Z.to_nat n <= fuel)%nat ->
  root rep a r -> root rep b r ->
  exists rep',
    Union fuel a b rep = Some rep' /\
    wf n rep' /\
    (forall x rx, 1 <= x <= n -> (root rep' x rx <-> root rep x rx)) /\
    (forall x, rep x <= 0 -> rep' x = rep x).
Proof.
  intros Hwf Ha Hb Hfuel Hra Hrb.
  destruct (Union_spec n rep a b fuel Hwf Ha Hb Hfuel)
    as (i & j & g & Hi & Hj & _ & _ & Hwfg & Hroots & Hcells & Hrun).
  assert (i = r) by (eapply root_fun; eauto).
  assert (j = r) by (eapply root_fun; eauto). subst i j.
  rewrite Z.eqb_refl in Hrun. exists g. auto.
Qed.

Lemma Union_same_class_keeps_partition_witness :
  exists rep',
    Union 3 1 2 path_rep = Some rep' /\
    wf 3 rep' /\
    (forall x rx, 1 <= x <= 3 -> (root rep' x rx <-> root path_rep x rx)) /\
    (forall x, path_rep x <= 0 -> rep' x = path_rep x).
Proof.
  apply (Union_same_class_keeps_partition 3 path_rep 1 2 3 3).
  - apply wfb_sound. reflexivity.
  - lia.
  - lia.
  - simpl. lia.
  - apply (find_root_sound path_rep 3). reflexivity.
  - apply (find_root_sound path_rep 3). reflexivity.
Defined.

(** ** The weights of the roots *)

Lemma weights_okb_sound n rep : weights_okb n rep = true -> weights_ok n rep.
Proof.
  unfold weights_okb. intros H r Hr Hc. rewrite forallb_forall in H.
  specialize (H r ltac:(now apply in_range)). apply orb_true_iff in H.
  destruct H as [H | H]; [apply Z.ltb_lt in H; lia | now apply Z.eqb_eq in H].
Qed.

Lemma root_of_spec n rep x :
  wf n rep -> 1 <= x <= n -> root rep x (root_of n rep x).
Proof.
  intros Hwf Hx. destruct (Hwf x Hx) as (_ & r & d & Hc).
  pose proof (chain_depth_bound _ _ _ _ _ Hwf Hx Hc) as Hd.
  unfold root_of. rewrite (find_root_chain rep x r d Hc _ Hd). now exists d.
Qed.

Lemma root_of_eq n rep x r :
  wf n rep -> 1 <= x <= n -> root rep x r -> root_of n rep x = r.
Proof.
  intros Hwf Hx Hr. apply (root_fun rep x); [now apply root_of_spec | assumption].
Qed.

Lemma class_size_ext n rep rep' r :
  (forall x, 1 <= x <= n -> root_of n rep' x = root_of n rep x) ->
  class_size n rep' r = class_size n rep r.
Proof.
  intros H. unfold class_size. f_equal. apply filter_ext_in.
  intros x Hx. apply in_range in Hx. now rewrite H.
Qed.

Lemma length_filter_merge (f : Z -> Z) i j l :
  i <> j ->
  length (filter (fun x => (if f x =? j then i else f x) =? i) l)
  = Nat.add (length (filter (fun x => f x =? i) l))
            (length (filter (fun x => f x =? j) l)).
Proof.
  intros Hij. induction l as [| a l IH]; [reflexivity |]. cbn [filter].
  destruct (Z.eqb_spec (f a) j) as [Ej | Ej].
  - rewrite Z.eqb_refl. destruct (Z.eqb_spec (f a) i); [congruence |].
    cbn [length]. lia.
  - destruct (Z.eqb_spec (f a) i); cbn [length]; lia.
Qed.

Lemma filter_merge_other (f : Z -> Z) i j r l :
  r <> i -> r <> j ->
  filter (fun x => (if f x =? j then i else f x) =? r) l
  = filter (fun x => f x =? r) l.
Proof.
  intros Hi Hj. apply filter_ext. intros a.
  destruct (Z.eqb_spec (f a) j) as [Ej | Ej]; [| reflexivity].
  rewrite Ej. destruct (Z.eqb_spec i r), (Z.eqb_spec j r); congruence.
Qed.

(** Attaching the root [j] under the root [i]. *)
Lemma attach_wf n g i j w :
  wf n g -> 1 <= i <= n -> 1 <= j <= n -> g i <= 0 -> g j <= 0 -> i <> j -> w <= 0 ->
  wf n (upd (upd g i w) j i).
Proof.
  intros Hwf Hi Hj Hci Hcj Hij Hw e He. split.
  - destruct (Z.eq_dec e j) as [-> | Hej]; [rewrite upd_eq; lia |].
    rewrite upd_neq by assumption.
    destruct (Z.eq_dec e i) as [-> | Hei]; [rewrite upd_eq; lia |].
    rewrite upd_neq by assumption. apply (Hwf e He).
  - destruct (Hwf e He) as (_ & r & d & Hc). eexists.
    apply (chain_attach g i j w Hci Hcj Hij ltac:(lia) Hw e r d Hc).
Qed.

Lemma attach_weights n g i j :
  wf n g -> weights_ok n g ->
  1 <= i <= n -> 1 <= j <= n -> g i <= 0 -> g j <= 0 -> i <> j ->
  weights_ok n (upd (upd g i (g i + (g j - 1))) j i).
Proof.
  intros Hwf Hw Hi Hj Hci Hcj Hij.
  set (g' := upd (upd g i (g i + (g j - 1))) j i).
  assert (Hwf' : wf n g') by (apply attach_wf; auto; lia).
  assert (Hroot : forall x, 1 <= x <= n ->
            root_of n g' x = if root_of n g x =? j then i else root_of n g x).
  { intros x Hx. apply (root_of_eq n g' x _ Hwf' Hx).
    destruct (root_of_spec n g x Hwf Hx) as [d Hc].
    apply (chain_attach g i j (g i + (g j - 1)) Hci Hcj Hij ltac:(lia) ltac:(lia) x _ d Hc). }
  intros r Hr Hc.
  assert (Hrj : r <> j) by (intros ->; unfold g' in Hc; rewrite upd_eq in Hc; lia).
  assert (Hsize : class_size n g' r
                  = length (filter (fun x => (if root_of n g x =? j then i
                                              else root_of n g x) =? r) (range 1 n))).
  { unfold class_size. f_equal. apply filter_ext_in. intros x Hx.
    apply in_range in Hx. now rewrite Hroot. }
  rewrite Hsize. unfold g'. rewrite upd_neq by assumption.
  destruct (Z.eq_dec r i) as [-> | Hri].
  - rewrite upd_eq, (length_filter_merge (root_of n g) i j _ Hij).
    pose proof (Hw i Hi Hci) as Ei. pose proof (Hw j Hj Hcj) as Ej.
    unfold class_size in Ei, Ej. lia.
  - rewrite upd_neq by assumption.
    unfold g' in Hc. rewrite !upd_neq in Hc by assumption.
    rewrite (filter_merge_other (root_of n g) i j r _ Hri Hrj).
    exact (Hw r Hr Hc).
Qed.

Lemma compress_weights n rep g :
  wf n rep -> wf n g -> weights_ok n rep ->
  (forall x rx, 1 <= x <= n -> (root g x rx <-> root rep x rx)) ->
  (forall x, rep x <= 0 -> g x = rep x) ->
  weights_ok n g.
Proof.
  intros Hwf Hwfg Hw Hroots Hcells r Hr Hc.
  assert (Hrr : rep r <= 0).
  { apply (root_cell rep r r). apply Hroots; [assumption | now apply root_self]. }
  rewrite (Hcells r Hrr), (class_size_ext n rep g r); [now apply Hw |].
  intros x Hx. apply (root_of_eq n g x _ Hwfg Hx). apply Hroots; [assumption |].
  now apply root_of_spec.
Qed.

(** X13.  [Union] keeps the bookkeeping of the weights right: if every root
    stores minus the number of the other members of its class before the
    call, the same holds after it, and the vector stays well formed. *)
Theorem Union_keeps_weights n rep a b fuel :
  wf n rep -> weights_ok n rep ->
  1 <= a <= n -> 1 <= b <= n -> (Z.to_nat n <= fuel)%nat ->
  exists rep',
    Union fuel a b rep = Some rep' /\ wf n rep' /\ weights_ok n rep'.
Proof.
  intros Hwf Hw Ha Hb Hfuel.
  destruct (Union_spec n rep a b fuel Hwf Ha Hb Hfuel)
    as (i & j & g & Hi & Hj & Hir & Hjr & Hwfg & Hroots & Hcells & Hrun).
  pose proof (root_cell _ _ _ Hi) as Hci. pose proof (root_cell _ _ _ Hj) as Hcj.
  pose proof (compress_weights n rep g Hwf Hwfg Hw Hroots Hcells) as Hwg.
  pose proof (Hcells i Hci) as Ei. pose proof (Hcells j Hcj) as Ej.
  eexists. split; [exact Hrun |].
  destruct (Z.eqb_spec i j) as [E | Hij]; [split; assumption |].
  rewrite <- Ei, <- Ej.
  destruct (Z.gtb_spec (g j) (g i)).
  - split; [apply attach_wf; auto; lia | apply attach_weights; auto; lia].
  - split; [apply attach_wf; auto; lia | apply attach_weights; auto; lia].
Qed.

Lemma Union_keeps_weights_witness :
  exists rep',
    Union 3 1 2 fork_rep = Some rep' /\ wf 3 rep' /\ weights_ok 3 rep'.
Proof.
  apply (Union_keeps_weights 3 fork_rep 1 2 3).
  - apply wfb_sound. reflexivity.
  - apply weights_okb_sound. reflexivity.
  - lia.
  - lia.
  - simpl. lia.
Defined.

(** ** [same_transitions] and [update_partitions] on arbitrary vectors *)

Lemma forallb_agree (p q : Z -> bool) l :
  (forall x, In x l -> p x = q x) -> forallb p l = forallb q l.
Proof.
  induction l as [| a l IH]; intros H; [reflexivity |]. cbn [forallb].
  rewrite (H a) by now left. rewrite IH; [reflexivity |].
  intros x Hx. apply H. now right.
Qed.

Lemma existsb_agree (p q : Z -> bool) l :
  (forall x, In x l -> p x = q x) -> existsb p l = existsb q l.
Proof.
  induction l as [| a l IH]; intros H; [reflexivity |]. cbn [existsb].
  rewrite (H a) by now left. rewrite IH; [reflexivity |].
  intros x Hx. apply H. now right.
Qed.

Section General.

Variable n : Z.
Variable fuel : nat.
Hypothesis fuel_ok : (Z.to_nat n <= fuel)%nat.

Lemma same_roots_root_of g g' :
  wf n g -> wf n g' ->
  (forall x rx, 1 <= x <= n -> (root g' x rx <-> root g x rx)) ->
  forall x, 1 <= x <= n -> root_of n g' x = root_of n g x.
Proof.
  clear fuel_ok. intros Hwf Hwf' Hroots x Hx.
  apply (root_of_eq n g' x _ Hwf' Hx). apply Hroots; [assumption |].
  now apply root_of_spec.
Qed.

Lemma find_root_of g e :
  wf n g -> 1 <= e <= n ->
  exists g',
    find fuel e g = Some (root_of n g e, g') /\ wf n g' /\
    (forall x rx, 1 <= x <= n -> (root g' x rx <-> root g x rx)).
Proof.
  intros Hwf He.
  destruct (find_spec n g e fuel Hwf He fuel_ok)
    as (r & g' & Hf & Hr & _ & Hwf' & Hroots & _).
  exists g'. rewrite (root_of_eq n g e r Hwf He Hr). auto.
Qed.

Lemma cls_find_root0 g t :
  wf n g -> 0 <= t <= n ->
  exists g',
    cls_find fuel t g = Some (root0 n g t, g') /\ wf n g' /\
    (forall x rx, 1 <= x <= n -> (root g' x rx <-> root g x rx)).
Proof.
  intros Hwf Ht. unfold cls_find, root0.
  destruct (Z.gtb_spec t 0); [apply find_root_of; [assumption | lia] |].
  exists g. split; [reflexivity |]. split; [assumption |]. reflexivity.
Qed.

Lemma root0_same_roots g g' :
  wf n g -> wf n g' ->
  (forall x rx, 1 <= x <= n -> (root g' x rx <-> root g x rx)) ->
  forall t, 0 <= t <= n -> root0 n g' t = root0 n g t.
Proof.
  clear fuel_ok. intros Hwf Hwf' Hroots t Ht. unfold root0.
  destruct (Z.gtb_spec t 0); [| reflexivity].
  apply same_roots_root_of; auto. lia.
Qed.

Lemma same_transitions_from_wf (mat : Z -> Z -> Z) s1 s2 l :
  (forall j, In j l -> 0 <= mat s1 j <= n /\ 0 <= mat s2 j <= n) ->
  forall g, wf n g ->
  exists g',
    same_transitions_from fuel l s1 s2 mat g
    = Some (forallb (fun j => root0 n g (mat s1 j) =? root0 n g (mat s2 j)) l, g') /\
    wf n g' /\
    (forall x rx, 1 <= x <= n -> (root g' x rx <-> root g x rx)).
Proof.
  induction l as [| j l IH]; intros Hl g Hwf; cbn [same_transitions_from forallb].
  - exists g. split; [reflexivity |]. split; [assumption |]. reflexivity.
  - destruct (Hl j ltac:(now left)) as (H1 & H2).
    destruct (cls_find_root0 g (mat s1 j) Hwf H1) as (g1 & Hf1 & Hwf1 & Hr1).
    rewrite Hf1. cbn [bind].
    destruct (cls_find_root0 g1 (mat s2 j) Hwf1 H2) as (g2 & Hf2 & Hwf2 & Hr2).
    rewrite Hf2. cbn [bind].
    rewrite (root0_same_roots g g1 Hwf Hwf1 Hr1 _ H2).
    assert (Hr12 : forall x rx, 1 <= x <= n -> (root g2 x rx <-> root g x rx)).
    { intros x rx Hx. rewrite Hr2 by assumption. now apply Hr1. }
    destruct (root0 n g (mat s1 j) =? root0 n g (mat s2 j)); cbn [negb andb].
    + destruct (IH ltac:(intros k Hk; apply Hl; now right) g2 Hwf2)
        as (g3 & Hrun & Hwf3 & Hr3).
      exists g3. split; [| split; [assumption |]].
      * rewrite Hrun. do 2 f_equal. apply forallb_agree. intros k Hk.
        destruct (Hl k ltac:(now right)) as (K1 & K2).
        now rewrite !(root0_same_roots g g2 Hwf Hwf2 Hr12).
      * intros x rx Hx. rewrite Hr3 by assumption. now apply Hr12.
    + exists g2. auto.
Qed.

Lemma differs_wf l :
  (forall s, In s l -> 1 <= s <= n) ->
  forall og ng, wf n og -> wf n ng ->
  exists og' ng',
    differs fuel l og ng
    = Some (existsb (fun s => negb (root_of n og s =? root_of n ng s)) l, og', ng') /\
    wf n og' /\ wf n ng' /\
    (forall x rx, 1 <= x <= n -> (root og' x rx <-> root og x rx)) /\
    (forall x rx, 1 <= x <= n -> (root ng' x rx <-> root ng x rx)).
Proof.
  induction l as [| s l IH]; intros Hl og ng Hwo Hwn; cbn [differs existsb].
  - exists og, ng. split; [reflexivity |]. split; [assumption |].
    split; [assumption |]. split; reflexivity.
  - pose proof (Hl s ltac:(now left)) as Hs.
    destruct (find_root_of og s Hwo Hs) as (og1 & Hf1 & Hwo1 & Hr1).
    destruct (find_root_of ng s Hwn Hs) as (ng1 & Hf2 & Hwn1 & Hr2).
    rewrite Hf1. cbn [bind]. rewrite Hf2. cbn [bind].
    destruct (negb (root_of n og s =? root_of n ng s)); cbn [orb].
    + exists og1, ng1. auto.
    + destruct (IH ltac:(intros t Ht; apply Hl; now right) og1 ng1 Hwo1 Hwn1)
        as (og2 & ng2 & Hrun & Hwo2 & Hwn2 & Hr3 & Hr4).
      exists og2, ng2. split; [| split; [assumption | split; [assumption | split]]].
      * rewrite Hrun. do 3 f_equal. apply existsb_agree. intros t Ht.
        pose proof (Hl t ltac:(now right)) as Htr.
        now rewrite (same_roots_root_of og og1 Hwo Hwo1 Hr1 t Htr),
                    (same_roots_root_of ng ng1 Hwn Hwn1 Hr2 t Htr).
      * intros x rx Hx. rewrite Hr3 by assumption. now apply Hr1.
      * intros x rx Hx. rewrite Hr4 by assumption. now apply Hr2.
Qed.

End General.

Lemma Inv_root_of n g x :
  Inv n g -> 1 <= x <= n -> root_of n g x = cls g x.
Proof.
  intros Hinv Hx. apply (root_of_eq n g x _ (Inv_wf n g Hinv) Hx).
  now apply (Inv_root n).
Qed.

Lemma Inv_weights n g : Inv n g -> weights_ok n g.
Proof.
  intros Hinv r Hr Hc.
  assert (Hcls : cls g r = r) by (unfold cls; destruct (Z.gtb_spec (g r) 0); [lia | reflexivity]).
  assert (E : filter (fun x => root_of n g x =? r) (range 1 n)
              = filter (same g r) (range 1 n)).
  { apply filter_ext_in. intros x Hx. apply in_range in Hx.
    rewrite (Inv_root_of n g x Hinv Hx). unfold same. rewrite Hcls. apply Z.eqb_sym. }
  unfold class_size. rewrite E.
  assert (Hin : In r (filter (same g r) (range 1 n))).
  { apply filter_In. split; [now apply in_range | unfold same; apply Z.eqb_refl]. }
  pose proof (Hinv r ltac:(now apply in_range)) as Hcan.
  assert (Hpos : forall t, In t (filter (same g r) (range 1 n)) -> 0 < t).
  { intros t Ht. apply filter_In in Ht. destruct Ht as [Ht _]. apply in_range in Ht. lia. }
  destruct (filter (same g r) (range 1 n)) as [| a [| b tl]]; cbn [CanonAt] in Hcan.
  - destruct Hin.
  - destruct Hin as [<- | []]. cbn [length]. lia.
  - destruct Hcan as (Ha & Hb & Ht).
    assert (Hbpos : 0 < b) by (apply Hpos; right; now left).
    destruct Hin as [<- | [<- | Hin]].
    + lia.
    + rewrite Hb. cbn [length]. lia.
    + rewrite (Ht _ Hin) in Hc. lia.
Qed.

(** X14.  For any well-formed partition vector, [same_transitions] returns
    TRUE exactly when on every symbol the two states both have no
    transition or go to states with the same root; it may compress paths
    but the vector stays well formed and no element changes its root. *)
Theorem same_transitions_compares_classes fuel dfa g s1 s2 :
  trans_ok dfa -> wf (nstates dfa) g ->
  1 <= s1 <= nstates dfa -> 1 <= s2 <= nstates dfa ->
  (Z.to_nat (nstates dfa) <= fuel)%nat ->
  exists b g',
    same_transitions fuel s1 s2 (mat dfa) (nab dfa) g = Some (b, g') /\
    (b = true <->
       forall j, 1 <= j <= nab dfa ->
         root0 (nstates dfa) g (mat dfa s1 j) = root0 (nstates dfa) g (mat dfa s2 j)) /\
    wf (nstates dfa) g' /\
    (forall x rx, 1 <= x <= nstates dfa -> (root g' x rx <-> root g x rx)).
Proof.
  intros Hok Hwf H1 H2 Hfuel.
  destruct (same_transitions_from_wf (nstates dfa) fuel Hfuel (mat dfa) s1 s2
              (range 1 (nab dfa))) with (g := g) as (g' & Hrun & Hwf' & Hroots).
  - intros j Hj. apply in_range in Hj. split; apply Hok; assumption.
  - assumption.
  - eexists. exists g'. split; [exact Hrun |]. split; [| split; assumption].
    rewrite forallb_forall. split.
    + intros H j Hj. apply Z.eqb_eq, H. now apply in_range.
    + intros H j Hj. apply Z.eqb_eq, H. now apply in_range.
Qed.

Lemma same_transitions_compares_classes_witness :
  exists b g',
    same_transitions 3 1 3 (mat fork_dfa) (nab fork_dfa) path_rep = Some (b, g') /\
    (b = true <->
       forall j, 1 <= j <= nab fork_dfa ->
         root0 (nstates fork_dfa) path_rep (mat fork_dfa 1 j)
         = root0 (nstates fork_dfa) path_rep (mat fork_dfa 3 j)) /\
    wf (nstates fork_dfa) g' /\
    (forall x rx, 1 <= x <= nstates fork_dfa -> (root g' x rx <-> root path_rep x rx)).
Proof.
  apply (same_transitions_compares_classes 3 fork_dfa path_rep 1 3).
  - apply trans_okb_sound. reflexivity.
  - apply wfb_sound. reflexivity.
  - simpl. lia.
  - simpl. lia.
  - simpl. lia.
Defined.

(** X15.  For well-formed vectors, [update_partitions] returns TRUE exactly
    when some member has different roots in the two vectors; it then copies
    the cell of every member from [new_groups] to [old_groups].  Otherwise
    [old_groups] keeps its partition.  [new_groups] keeps its partition in
    both cases. *)
Theorem update_partitions_compares_roots n fuel member og ng :
  wf n og -> wf n ng -> (forall s, In s member -> 1 <= s <= n) ->
  (Z.to_nat n <= fuel)%nat ->
  exists b og' ng',
    update_partitions fuel member og ng = Some (b, og', ng') /\
    (b = true <-> exists s, In s member /\ root_of n og s <> root_of n ng s) /\
    wf n ng' /\
    (forall x rx, 1 <= x <= n -> (root ng' x rx <-> root ng x rx)) /\
    (b = false ->
       wf n og' /\ forall x rx, 1 <= x <= n -> (root og' x rx <-> root og x rx)) /\
    (b = true -> forall s, In s member -> og' s = ng' s).
Proof.
  intros Hwo Hwn Hm Hfuel.
  destruct (differs_wf n fuel Hfuel member Hm og ng Hwo Hwn)
    as (og1 & ng1 & Hrun & Hwo1 & Hwn1 & Hro & Hrn).
  unfold update_partitions. rewrite Hrun. cbn [bind].
  assert (Hex : existsb (fun s => negb (root_of n og s =? root_of n ng s)) member = true
                <-> exists s, In s member /\ root_of n og s <> root_of n ng s).
  { rewrite existsb_exists. split; intros (s & Hs & H); exists s; split; try assumption.
    - now apply negb_true_iff, Z.eqb_neq in H.
    - now apply negb_true_iff, Z.eqb_neq. }
  destruct (existsb (fun s => negb (root_of n og s =? root_of n ng s)) member).
  - exists true, (copy_members member og1 ng1), ng1. split; [reflexivity |].
    split; [split; [intros _; now apply Hex | reflexivity] |].
    split; [assumption |]. split; [assumption |]. split; [discriminate |].
    intros _ s Hs. rewrite copy_members_at. apply existsb_in in Hs. now rewrite Hs.
  - exists false, og1, ng1. split; [reflexivity |].
    split; [split; [discriminate | intros H; now apply Hex] |].
    split; [assumption |]. split; [assumption |]. split; [auto | discriminate].
Qed.

Lemma update_partitions_compares_roots_witness :
  exists b og' ng',
    update_partitions 3 [1; 2; 3] path_rep fork_rep = Some (b, og', ng') /\
    (b = true <->
       exists s, In s [1; 2; 3] /\ root_of 3 path_rep s <> root_of 3 fork_rep s) /\
    wf 3 ng' /\
    (forall x rx, 1 <= x <= 3 -> (root ng' x rx <-> root fork_rep x rx)) /\
    (b = false ->
       wf 3 og' /\ forall x rx, 1 <= x <= 3 -> (root og' x rx <-> root path_rep x rx)) /\
    (b = true -> forall s, In s [1; 2; 3] -> og' s = ng' s).
Proof.
  apply (update_partitions_compares_roots 3 3 [1; 2; 3] path_rep fork_rep).
  - apply wfb_sound. reflexivity.
  - apply wfb_sound. reflexivity.
  - intros s Hs. simpl in Hs. lia.
  - simpl. lia.
Defined.

(** X16.  [init_partitions] overwrites whatever the vector held with a
    well-formed vector with right weights in which two states have the same
    root exactly when both or neither have attribute ['A']. *)
Theorem init_partitions_splits_by_accept fuel n attribs groups :
  (2 <= fuel)%nat -> 0 <= n ->
  exists g,
    init_partitions fuel n attribs groups = Some g /\
    wf n g /\ weights_ok n g /\
    forall x y, 1 <= x <= n -> 1 <= y <= n ->
      (root_of n g x = root_of n g y <->
       (attribs x = attr_A <-> attribs y = attr_A)).
Proof.
  intros Hf Hn.
  destruct (init_partitions_spec fuel Hf attribs n groups Hn) as (g & Hrun & Hinv & Hsame).
  exists g. split; [exact Hrun |]. split; [now apply Inv_wf |].
  split; [now apply Inv_weights |]. intros x y Hx Hy.
  rewrite !(Inv_root_of n g) by assumption.
  specialize (Hsame x y Hx Hy). unfold same in Hsame. rewrite Z.eqb_eq in Hsame.
  rewrite Hsame. unfold isA.
  destruct (Ascii.eqb_spec (attribs x) attr_A), (Ascii.eqb_spec (attribs y) attr_A);
    split; intros; try tauto; try discriminate.
Qed.

Lemma init_partitions_splits_by_accept_witness :
  exists g,
    init_partitions 2 3 (state_attrib chain_dfa) path_rep = Some g /\
    wf 3 g /\ weights_ok 3 g /\
    forall x y, 1 <= x <= 3 -> 1 <= y <= 3 ->
      (root_of 3 g x = root_of 3 g y <->
       (state_attrib chain_dfa x = attr_A <-> state_attrib chain_dfa y = attr_A)).
Proof.
  apply (init_partitions_splits_by_accept 2 3 (state_attrib chain_dfa) path_rep); lia.
Defined.

(** ** Reading an automaton *)

Section InputFacts.

Variable stdin_t : Type.
Variable scan_d : stdin_t -> scan_int * stdin_t.
Variable scan_1s : stdin_t -> option ascii * stdin_t.

Lemma read_row_spec nstates i : 0 <= nstates ->
  forall js m s inp m' s' inp',
  read_row scan_d nstates i js m s inp = Ret (m', s', inp') ->
  (forall a b, 0 <= m a b <= nstates -> 0 <= m' a b <= nstates) /\
  (forall j, In j js -> 0 <= m' i j <= nstates).
Proof.
  intros Hn. induction js as [| j js IH]; intros m s inp m' s' inp' Hrun;
    cbn [read_row] in Hrun.
  - injection Hrun as <- _ _. split; [auto | intros j []].
  - destruct (scan_d inp) as [[v | |] inp1]; try discriminate.
    destruct (Z.geb_spec v nstates) as [| Hv]; [discriminate |].
    set (val := if v >=? 0 then v + 1 else 0) in Hrun.
    assert (Hval : 0 <= val <= nstates).
    { unfold val. destruct (Z.geb_spec v 0); lia. }
    destruct (IH _ _ _ _ _ _ Hrun) as (Hkeep & Hrow).
    assert (Hstep : forall a b, 0 <= m a b <= nstates ->
              0 <= upd2 m i j val a b <= nstates).
    { intros a b Hab. unfold upd2. destruct ((a =? i) && (b =? j)); assumption. }
    split.
    + intros a b Hab. apply Hkeep, Hstep, Hab.
    + intros k [<- | Hk]; [| now apply Hrow].
      apply Hkeep. rewrite upd2_eq. assumption.
Qed.

Lemma read_matrix_spec nstates nab : 0 <= nstates ->
  forall rows m attrib s inp m' attrib' s' inp',
  read_matrix scan_d nstates nab rows m attrib s inp = Ret (m', attrib', s', inp') ->
  (forall a b, 0 <= m a b <= nstates -> 0 <= m' a b <= nstates) /\
  (forall i j, In i rows -> 1 <= j <= nab -> 0 <= m' i j <= nstates) /\
  (forall x, attrib' x = if existsb (Z.eqb x) rows then Ascii.zero else attrib x).
Proof.
  intros Hn. induction rows as [| i rows IH]; intros m attrib s inp m' attrib' s' inp' Hrun;
    cbn [read_matrix] in Hrun.
  - injection Hrun as <- <- _ _. split; [auto |]. split; [intros i j [] | reflexivity].
  - cbv zeta in Hrun.
    destruct (read_row scan_d nstates i (range 1 nab) m s inp)
      as [[[m1 s1] inp1] | |] eqn:Erow; try discriminate.
    destruct (read_row_spec nstates i Hn _ _ _ _ _ _ _ Erow) as (Hkeep1 & Hrow1).
    destruct (IH _ _ _ _ _ _ _ _ Hrun) as (Hkeep & Hrows & Hattr).
    split; [intros a b Hab; apply Hkeep, Hkeep1, Hab |]. split.
    + intros k j [<- | Hk] Hj; [| now apply Hrows].
      apply Hkeep, Hrow1. now apply in_range.
    + intros x. rewrite Hattr. cbn [existsb].
      destruct (existsb (Z.eqb x) rows); [now rewrite orb_true_r |].
      rewrite orb_false_r. unfold upd. reflexivity.
Qed.

(** X17.  Whatever the input holds and whatever the structure held before:
    when [input_dfa] returns (it has not called [Abort] and has stayed
    inside [accept[]]), the automaton it leaves is valid: between 1 and
    [MAX_STATES] states, between 1 and [AB_SIZE] symbols, every transition
    entry 0 or a state, initial state 1, an accept list of states marked
    ['A'] that ends with 0, and no state marked dead. *)
Theorem input_dfa_returns_valid_dfa fuel s dfa0 ab0 inp dfa ab inp' :
  input_dfa scan_d scan_1s fuel s dfa0 ab0 inp = Some (Ret (dfa, ab, inp')) ->
  valid_dfa dfa.
Proof.
  unfold input_dfa. intros Hrun.
  destruct (scan_d inp) as [[n | |] inp1]; try discriminate.
  destruct (scan_d inp1) as [[m | |] inp2]; try discriminate.
  destruct (Z.ltb_spec n 1); [discriminate |].
  destruct (Z.gtb_spec n MAX_STATES); [discriminate |].
  destruct (Z.ltb_spec m 1); [discriminate |].
  destruct (Z.gtb_spec m AB_SIZE); [discriminate |].
  destruct (read_alphabet scan_1s (range 1 m) ab0 inp2) as [[ab1 inp3] | |];
    try discriminate.
  destruct (read_matrix scan_d n m (range 1 n) (mat dfa0) (state_attrib dfa0) s inp3)
    as [[[[m1 attrib1] s1] inp4] | |] eqn:Emat; try discriminate.
  destruct (read_accepts scan_d fuel n attrib1 (accept dfa0) 0 s1 inp4)
    as [[[[attrib2 accept2] inp5] | |] |] eqn:Eacc; try discriminate.
  injection Hrun as <- _ _.
  destruct (read_matrix_spec n m ltac:(lia) _ _ _ _ _ _ _ _ _ Emat)
    as (_ & Hrows & Hattr).
  assert (Hclear : forall x, 1 <= x <= n -> attrib1 x = Ascii.zero).
  { intros x Hx. rewrite Hattr. apply in_range, existsb_in in Hx. now rewrite Hx. }
  unfold valid_dfa, trans_ok, accept_list_ok.
  cbn [nstates nab mat init_state accept state_attrib].
  split; [lia |]. split; [lia |].
  split; [intros a j Ha Hj; apply Hrows; [now apply in_range | assumption] |].
  split; [reflexivity |].
  (* the accept loop only ever writes 'A' *)
  assert (Hgen : forall fuel attrib accept i s inp attrib' accept' inp',
            read_accepts scan_d fuel n attrib accept i s inp
              = Some (Ret (attrib', accept', inp')) ->
            forall x, attrib' x = attrib x \/ attrib' x = attr_A).
  { clear. induction fuel as [| f IH]; intros attrib accept i s inp attrib' accept' inp' H x;
      [discriminate |].
    cbn [read_accepts] in H. destruct (scan_d inp) as [r inp1].
    assert (Hb : forall s1,
      (if (s1 <? 0) || (n <=? s1) then Some (Aborted (AcceptOutOfRange s1))
       else if i >? MAX_STATES then Some Overrun
       else read_accepts scan_d f n (upd attrib (s1 + 1) attr_A)
              (upd accept i (s1 + 1)) (i + 1) s1 inp1)
      = Some (Ret (attrib', accept', inp')) ->
      attrib' x = attrib x \/ attrib' x = attr_A).
    { intros s1 H1. destruct ((s1 <? 0) || (n <=? s1)); [discriminate |].
      destruct (i >? MAX_STATES); [discriminate |].
      destruct (IH _ _ _ _ _ _ _ _ H1 x) as [E | E]; [| now right].
      rewrite E. unfold upd. destruct (x =? s1 + 1); auto. }
    destruct r as [v | |]; cbv zeta in H.
    - now apply (Hb v).
    - now apply (Hb s).
    - destruct (i >? MAX_STATES); [discriminate |]. injection H as <- _ _. now left. }
  assert (HnoD : forall x, 1 <= x <= n -> attrib2 x <> attr_D).
  { intros x Hx. destruct (Hgen _ _ _ _ _ _ _ _ _ Eacc x) as [E | E]; rewrite E.
    - rewrite (Hclear x Hx). discriminate.
    - apply attr_A_neq_D. }
  split; [| exact HnoD].
  (* the accept list *)
  clear Hgen HnoD Hrows Hattr Emat.
  revert Eacc. generalize (accept dfa0) at 1. intros acc0 Eacc.
  assert (Hlist : forall fuel attrib accept i s inp attrib' accept' inp',
            read_accepts scan_d fuel n attrib accept i s inp
              = Some (Ret (attrib', accept', inp')) ->
            0 <= i ->
            (forall k, 0 <= k < i -> 1 <= accept k <= n /\ attrib (accept k) = attr_A) ->
            exists k, 0 <= k <= MAX_STATES /\ accept' k = 0 /\
              forall j, 0 <= j < k ->
                1 <= accept' j <= n /\ attrib' (accept' j) = attr_A).
  { clear. induction fuel as [| f IH];
      intros attrib accept i s inp attrib' accept' inp' H Hi Hl; [discriminate |].
    cbn [read_accepts] in H. destruct (scan_d inp) as [r inp1].
    assert (Hb : forall s1,
      (if (s1 <? 0) || (n <=? s1) then Some (Aborted (AcceptOutOfRange s1))
       else if i >? MAX_STATES then Some Overrun
       else read_accepts scan_d f n (upd attrib (s1 + 1) attr_A)
              (upd accept i (s1 + 1)) (i + 1) s1 inp1)
      = Some (Ret (attrib', accept', inp')) ->
      exists k, 0 <= k <= MAX_STATES /\ accept' k = 0 /\
        forall j, 0 <= j < k ->
          1 <= accept' j <= n /\ attrib' (accept' j) = attr_A).
    { intros s1 H1.
      destruct (Z.ltb_spec s1 0); [discriminate |].
      destruct (Z.leb_spec n s1); [discriminate |]. cbn [orb] in H1.
      destruct (Z.gtb_spec i MAX_STATES); [discriminate |].
      apply (IH _ _ _ _ _ _ _ _ H1); [lia |].
      intros k Hk. destruct (Z.eq_dec k i) as [-> | Hne].
      - rewrite !upd_eq. split; [lia | reflexivity].
      - rewrite (upd_neq accept i k _ Hne).
        destruct (Hl k ltac:(lia)) as (Hr & HA). split; [assumption |].
        unfold upd. destruct (accept k =? s1 + 1); [reflexivity | assumption]. }
    destruct r as [v | |]; cbv zeta in H.
    - now apply (Hb v).
    - now apply (Hb s).
    - destruct (Z.gtb_spec i MAX_STATES); [discriminate |].
      injection H as <- <- _. exists i. split; [lia |]. split; [apply upd_eq |].
      intros j Hj. rewrite upd_neq by lia. now apply Hl. }
  apply (Hlist _ _ _ _ _ _ _ _ _ Eacc); [lia | intros k Hk; lia].
Qed.

End InputFacts.

Lemma input_dfa_returns_valid_dfa_witness :
  exists dfa ab rest,
    input_dfa tok_d tok_1s 10 0 blank_dfa no_attrib chain_text
      = Some (Ret (dfa, ab, rest)) /\
    valid_dfa dfa.
Proof.
  eexists. eexists. eexists. split; [reflexivity |].
  eapply (input_dfa_returns_valid_dfa (list token) tok_d tok_1s 10 0 blank_dfa
            no_attrib chain_text).
  reflexivity.
Defined.

(** X18.  The loop that reads the accept states treats a failed match like
    a number: if the next [scanf] fails without consuming anything (as it
    does on a character that cannot start a number), the loop never ends
    normally.  With the number read last out of range it calls [Abort];
    otherwise it appends that number again and again until it writes past
    the end of [accept[]]. *)
Theorem read_accepts_stuck_on_failed_match (stdin_t : Type)
  (scan_d : stdin_t -> scan_int * stdin_t) inp :
  scan_d inp = (IntFail, inp) ->
  forall fuel nstates attrib accept i s,
    (forall r, read_accepts scan_d fuel nstates attrib accept i s inp <> Some (Ret r)) /\
    ((Z.to_nat (MAX_STATES + 1 - i) < fuel)%nat ->
     read_accepts scan_d fuel nstates attrib accept i s inp
     = Some (if (s <? 0) || (nstates <=? s) then Aborted (AcceptOutOfRange s)
             else Overrun)).
Proof.
  intros Hfail. induction fuel as [| f IH]; intros nstates attrib accept i s.
  - split; [discriminate | lia].
  - cbn [read_accepts]. rewrite Hfail. cbv zeta.
    destruct ((s <? 0) || (nstates <=? s)) eqn:Es.
    + split; [discriminate | reflexivity].
    + destruct (Z.gtb_spec i MAX_STATES) as [Hi | Hi].
      * split; [discriminate | reflexivity].
      * destruct (IH nstates (upd attrib (s + 1) attr_A) (upd accept i (s + 1))
                    (i + 1) s) as (Hnever & Hover).
        split; [exact Hnever |]. intros Hf.
        rewrite Hover by (unfold MAX_STATES in *; lia).
        now rewrite Es.
Qed.

Lemma read_accepts_stuck_on_failed_match_witness :
  tok_d [TSym "x"%char] = (IntFail, [TSym "x"%char]) /\
  forall fuel nstates attrib accept i s,
    (forall r, read_accepts tok_d fuel nstates attrib accept i s [TSym "x"%char]
               <> Some (Ret r)) /\
    ((Z.to_nat (MAX_STATES + 1 - i) < fuel)%nat ->
     read_accepts tok_d fuel nstates attrib accept i s [TSym "x"%char]
     = Some (if (s <? 0) || (nstates <=? s) then Aborted (AcceptOutOfRange s)
             else Overrun)).
Proof.
  split; [reflexivity |].
  apply (read_accepts_stuck_on_failed_match (list token) tok_d [TSym "x"%char]).
  reflexivity.
Defined.

(** The text of [chain_dfa] is read as [chain_dfa]; followed by a stray
    symbol it makes [input_dfa] overrun [accept[]]. *)
Lemma input_dfa_reads_chain_text :
  match input_dfa tok_d tok_1s 10 0 blank_dfa no_attrib chain_text with
  | Some (Ret (dfa, _, rest)) =>
      nstates dfa = 3 /\ nab dfa = 1 /\ init_state dfa = 1 /\ rest = [] /\
      (forall i, 1 <= i <= 3 -> mat dfa i 1 = mat chain_dfa i 1) /\
      (forall k, 0 <= k <= 2 -> accept dfa k = accept chain_dfa k) /\
      (forall i, 1 <= i <= 3 -> state_attrib dfa i = state_attrib chain_dfa i)
  | _ => False
  end /\
  input_dfa tok_d tok_1s 60 0 blank_dfa no_attrib stray_text = Some Overrun.
Proof.
  split; [| vm_compute; reflexivity].
  destruct (input_dfa tok_d tok_1s 10 0 blank_dfa no_attrib chain_text)
    as [[[[dfa ab] rest] | |] |] eqn:E; vm_compute in E; try discriminate.
  injection E as <- _ <-.
  split; [reflexivity |]. split; [reflexivity |]. split; [reflexivity |].
  split; [reflexivity |]. split; [| split].
  - intros i Hi. assert (E : i = 1 \/ i = 2 \/ i = 3) by lia.
    destruct E as [-> | [-> | ->]]; reflexivity.
  - intros k Hk. assert (E : k = 0 \/ k = 1 \/ k = 2) by lia.
    destruct E as [-> | [-> | ->]]; reflexivity.
  - intros i Hi. assert (E : i = 1 \/ i = 2 \/ i = 3) by lia.
    destruct E as [-> | [-> | ->]]; reflexivity.
Qed.

(** ** What the automatic arrays hold on entry does not matter *)

Lemma for_each_rel {S : Type} (R : S -> S -> Prop) (body : Z -> S -> option S) l :
  (forall i a b a' b', In i l -> R a b ->
     body i a = Some a' -> body i b = Some b' -> R a' b') ->
  forall s1 s2 r1 r2, R s1 s2 ->
    for_each l body s1 = Some r1 -> for_each l body s2 = Some r2 -> R r1 r2.
Proof.
  induction l as [| i l IH]; intros Hstep s1 s2 r1 r2 HR H1 H2; cbn [for_each] in *.
  - injection H1 as <-. injection H2 as <-. assumption.
  - destruct (body i s1) as [a' |] eqn:E1; [| discriminate].
    destruct (body i s2) as [b' |] eqn:E2; [| discriminate].
    cbn [bind] in H1, H2.
    apply (IH ltac:(intros k a b x y Hk; apply Hstep; now right) a' b' r1 r2);
      try assumption.
    apply (Hstep i s1 s2); auto. now left.
Qed.

Section Shape.

Variable fuel : nat.
Variable dfa : automaton_t.
Let n := nstates dfa.

Hypothesis fuel_ok : (2 <= fuel)%nat.
Hypothesis dfa_ok : trans_ok dfa.

(** What one iteration of the [rep] loop returns, up to the content of the
    array [new_groups] outside the group. *)
Lemma partition_group_shape g rep st updated :
  Inv n g -> 1 <= rep <= n -> old_groups st = g ->
  (g rep >= 0 /\ partition_group fuel dfa rep (st, updated) = Some (st, updated)) \/
  (g rep < 0 /\
   exists ng2 un2,
     Canon (filter (fun i => cls g i =? rep) (range 1 n)) (same_trans dfa g) ng2 /\
     partition_group fuel dfa rep (st, updated)
     = Some (if existsb (fun s => negb (cls g s =? cls ng2 s))
                  (filter (fun i => cls g i =? rep) (range 1 n))
             then (mk_sweep
                     (copy_members (filter (fun i => cls g i =? rep) (range 1 n)) g ng2)
                     ng2 un2, true)
             else (mk_sweep g ng2 un2, updated))).
Proof.
  intros Hinv Hrep Hog.
  pose proof (Inv_flat n g Hinv) as Hflat.
  unfold partition_group. rewrite Hog.
  destruct (Z.geb_spec (g rep) 0) as [Hge | Hlt]; [left; split; [lia | reflexivity] |].
  right. split; [lia |].
  set (ms := filter (fun i => cls g i =? rep) (range 1 n)).
  destruct (collect_members_spec fuel dfa fuel_ok g rep st Hflat Hog)
    as (st1 & Hcol & Hog1 & Hz).
  fold n in Hcol, Hz |- *. rewrite Hcol. cbn [bind]. fold ms in Hz |- *.
  assert (Hms_range : forall t, In t ms -> 1 <= t <= n).
  { intros t Ht. apply filter_In in Ht. apply in_range, Ht. }
  assert (Hms_nd : NoDup ms) by (apply NoDup_filter, range_NoDup).
  assert (Hms_pos : forall t, In t ms -> 0 < t).
  { intros t Ht. apply Hms_range in Ht. lia. }
  destruct (unify_pairs_spec fuel dfa g fuel_ok dfa_ok Hflat ms Hms_nd Hms_range
              ms [] st1 eq_refl Hog1) as (st2 & Hup & Hog2 & Hcanon).
  { intros t Ht. cbn [cov existsb]. destruct (Hz t Ht). auto. }
  rewrite Hup. cbn [bind]. rewrite Hog2.
  pose proof (same_trans_equiv dfa g) as Heq.
  unfold update_partitions.
  rewrite (differs_flat fuel fuel_ok).
  2:{ intros s Hs. split; [apply Hflat; auto |].
      now apply (Canon_flat ms (same_trans dfa g) Heq Hms_pos (new_groups st2) Hcanon). }
  cbn [bind].
  exists (new_groups st2), (unified st2). split; [exact Hcanon |].
  now destruct (existsb (fun s => negb (cls g s =? cls (new_groups st2) s)) ms).
Qed.

Lemma Canon_pointwise ms eqv v v' :
  Equiv eqv -> Canon ms eqv v -> Canon ms eqv v' ->
  forall t, In t ms -> v t = v' t.
Proof.
  clear. intros (Hrefl & _) Hv Hv' t Ht.
  apply (CanonAt_unique v v' (filter (eqv t) ms) t (Hv t Ht) (Hv' t Ht)).
  apply filter_In. split; [assumption | apply Hrefl].
Qed.

Lemma partition_group_indep g rep st1 st2 updated r1 r2 :
  Inv n g -> 1 <= rep <= n -> old_groups st1 = g -> old_groups st2 = g ->
  partition_group fuel dfa rep (st1, updated) = Some r1 ->
  partition_group fuel dfa rep (st2, updated) = Some r2 ->
  old_groups (fst r1) = old_groups (fst r2) /\ snd r1 = snd r2.
Proof.
  intros Hinv Hrep H1 H2 Hr1 Hr2.
  destruct (partition_group_shape g rep st1 updated Hinv Hrep H1)
    as [[K' E1] | (K' & ng1 & un1 & Hc1 & E1)];
    destruct (partition_group_shape g rep st2 updated Hinv Hrep H2)
    as [[K E2] | (K & ng2 & un2 & Hc2 & E2)]; try lia;
    rewrite E1 in Hr1; rewrite E2 in Hr2;
    injection Hr1 as <-; injection Hr2 as <-.
  - cbn [fst snd]. split; [congruence | reflexivity].
  - set (ms := filter (fun i => cls g i =? rep) (range 1 n)) in *.
    pose proof (same_trans_equiv dfa g) as Heq.
    pose proof (Canon_pointwise ms _ ng1 ng2 Heq Hc1 Hc2) as Hpt.
    assert (Hex : existsb (fun s => negb (cls g s =? cls ng1 s)) ms
                  = existsb (fun s => negb (cls g s =? cls ng2 s)) ms).
    { apply existsb_agree. intros s Hs. unfold cls at 2 4. now rewrite (Hpt s Hs). }
    rewrite Hex. destruct (existsb (fun s => negb (cls g s =? cls ng2 s)) ms);
      cbn [fst snd old_groups]; split; try reflexivity.
    apply functional_extensionality. intros t. rewrite !copy_members_at.
    destruct (existsb (Z.eqb t) ms) eqn:Et; [| reflexivity].
    apply existsb_in in Et. now apply Hpt.
Qed.

Lemma partition_indep g ng un ng' un' :
  0 <= n -> Inv n g ->
  partition fuel dfa (mk_sweep g ng un) = partition fuel dfa (mk_sweep g ng' un').
Proof.
  intros Hn Hinv.
  set (I := fun (m : Z) (s : sweep_state * bool) => Inv n (old_groups (fst s))).
  assert (Hrun : forall ng un, exists r,
            for_each (range 1 n) (partition_group fuel dfa) (mk_sweep g ng un, false)
            = Some r /\ Inv n (old_groups (fst r))).
  { intros a b. apply (for_each_range I); [lia | exact Hinv |].
    intros i [st updated] Hi HI. unfold I in *. cbn [fst] in *.
    destruct (partition_group_spec fuel dfa fuel_ok dfa_ok (old_groups st) i st updated
                HI Hi eq_refl) as (st' & updated' & Hrun' & Hinv2 & _).
    exists (st', updated'). split; [exact Hrun' | exact Hinv2]. }
  destruct (Hrun ng un) as (r1 & E1 & _). destruct (Hrun ng' un') as (r2 & E2 & _).
  unfold partition. fold n. rewrite E1, E2. cbn [bind].
  assert (HR : old_groups (fst r1) = old_groups (fst r2) /\ snd r1 = snd r2 /\
               Inv n (old_groups (fst r1))).
  { apply (for_each_rel
             (fun a b => old_groups (fst a) = old_groups (fst b) /\ snd a = snd b /\
                         Inv n (old_groups (fst a)))
             (partition_group fuel dfa) (range 1 n)) with
      (s1 := (mk_sweep g ng un, false)) (s2 := (mk_sweep g ng' un', false));
      try assumption; [| cbn [fst snd old_groups]; auto].
    intros i [sa ua] [sb ub] a' b' Hi (Ho & Hu & Hia) Ha Hb.
    cbn [fst snd] in Ho, Hu, Hia. subst ub. apply in_range in Hi.
    destruct (partition_group_indep (old_groups sa) i sa sb ua a' b' Hia Hi eq_refl
                (eq_sym Ho) Ha Hb) as (K1 & K2).
    split; [assumption |]. split; [assumption |].
    destruct (partition_group_spec fuel dfa fuel_ok dfa_ok (old_groups sa) i sa ua
                Hia Hi eq_refl) as (st' & updated' & Hrun' & Hinv2 & _).
    rewrite Hrun' in Ha. injection Ha as <-. exact Hinv2. }
  destruct r1 as [s1 u1], r2 as [s2 u2]. cbn [fst snd] in HR.
  destruct HR as (-> & -> & _). reflexivity.
Qed.

End Shape.

(** X19.  In the refinement loop of [minimize_dfa] the result of
    [partition] does not depend on what its automatic arrays [new_groups]
    and [unified] hold on entry: every cell of them is written before it is
    read. *)
Theorem partition_ignores_automatic_arrays fuel dfa groups :
  (2 <= fuel)%nat -> trans_ok dfa -> 1 <= nstates dfa ->
  exists g0,
    init_partitions fuel (nstates dfa) (state_attrib dfa) groups = Some g0 /\
    forall g ng un ng' un', reached fuel dfa g0 g ->
      partition fuel dfa (mk_sweep g ng un) = partition fuel dfa (mk_sweep g ng' un').
Proof.
  intros Hf Hok Hn.
  destruct (init_partitions_spec fuel Hf (state_attrib dfa) (nstates dfa) groups)
    as (g0 & Hinit & Hinv0 & _); [lia |].
  exists g0. split; [exact Hinit |]. intros g ng un ng' un' Hr.
  pose proof (reached_Inv fuel dfa g0 g Hf Hok ltac:(lia) Hinv0 Hr) as Hinv.
  apply partition_indep; try assumption. lia.
Qed.

Lemma partition_ignores_automatic_arrays_witness :
  exists g0,
    init_partitions 2 (nstates fork_dfa) (state_attrib fork_dfa) zeros = Some g0 /\
    forall g ng un ng' un', reached 2 fork_dfa g0 g ->
      partition 2 fork_dfa (mk_sweep g ng un) = partition 2 fork_dfa (mk_sweep g ng' un').
Proof.
  apply (partition_ignores_automatic_arrays 2 fork_dfa zeros).
  - lia.
  - apply trans_okb_sound. reflexivity.
  - simpl. lia.
Defined.

Lemma for_each_rel_pre {S : Type} (R : list Z -> S -> S -> Prop)
  (body : Z -> S -> option S) :
  (forall pre i a b a' b', R pre a b ->
     body i a = Some a' -> body i b = Some b' -> R (pre ++ [i]) a' b') ->
  forall l pre s1 s2 r1 r2, R pre s1 s2 ->
    for_each l body s1 = Some r1 -> for_each l body s2 = Some r2 ->
    R (pre ++ l) r1 r2.
Proof.
  intros Hstep. induction l as [| i l IH]; intros pre s1 s2 r1 r2 HR H1 H2;
    cbn [for_each] in *.
  - injection H1 as <-. injection H2 as <-. now rewrite app_nil_r.
  - destruct (body i s1) as [a' |] eqn:E1; [| discriminate].
    destruct (body i s2) as [b' |] eqn:E2; [| discriminate].
    cbn [bind] in H1, H2.
    replace (pre ++ i :: l) with ((pre ++ [i]) ++ l) by now rewrite <- app_assoc.
    apply (IH (pre ++ [i]) a' b'); try assumption.
    now apply (Hstep pre i s1 s2).
Qed.

Lemma fold_left_agree {A : Type} (f g : A -> Z -> A) l :
  (forall a x, In x l -> f a x = g a x) ->
  forall a, fold_left f l a = fold_left g l a.
Proof.
  induction l as [| x l IH]; intros H a; [reflexivity |]. cbn [fold_left].
  rewrite (H a x) by now left. apply IH. intros b y Hy. apply H. now right.
Qed.

Lemma compress_scan_agree fuel n g map0 pam0 rep0 map1 pam1 rep1 sc sc' :
  compress_scan fuel n (mk_scan g (upd map0 0 0) (upd pam0 0 0) (upd rep0 0 0) 0)
    = Some sc ->
  compress_scan fuel n (mk_scan g (upd map1 0 0) (upd pam1 0 0) (upd rep1 0 0) 0)
    = Some sc' ->
  scan_agree (range 1 n) sc sc'.
Proof.
  unfold compress_scan. intros H1 H2.
  change (scan_agree ([] ++ range 1 n) sc sc').
  refine (for_each_rel_pre scan_agree _ _ (range 1 n) [] _ _ sc sc' _ H1 H2).
  - clear. intros pre i a b a' b' (Hg & Hrc & Hpos & Hrep & Hmap & Hpam) Ha Hb.
    rewrite <- Hg in Hb.
    destruct (find fuel i (sc_groups a)) as [[r g1] |]; [| discriminate].
    cbn [bind] in Ha, Hb. rewrite !upd_eq in Ha, Hb. rewrite <- Hrc in Hb.
    assert (Hrep' : forall x, x = 0 \/ In x (pre ++ [i]) ->
              upd (sc_rep a) i r x = upd (sc_rep b) i r x).
    { intros x Hx. unfold upd. destruct (Z.eqb_spec x i); [reflexivity |].
      apply Hrep. destruct Hx as [-> | Hx]; [now left |].
      apply in_app_or in Hx. destruct Hx as [Hx | [<- | []]]; [now right | congruence]. }
    destruct (Z.eqb_spec i r) as [E | E].
    + injection Ha as <-. injection Hb as <-. unfold scan_agree.
      cbn [sc_groups sc_map sc_pam sc_rep rep_count].
      split; [reflexivity |]. split; [reflexivity |]. split; [lia |].
      split; [exact Hrep' |]. split.
      * intros x Hx. unfold upd. destruct (Z.eqb_spec x i); [reflexivity |].
        apply Hmap. destruct Hx as [-> | [Hx Hxx]]; [now left |]. right.
        rewrite upd_neq in Hxx by assumption. split; [| assumption].
        apply in_app_or in Hx. destruct Hx as [Hx | [<- | []]]; [assumption | congruence].
      * intros t Ht. unfold upd. destruct (Z.eqb_spec t (rep_count a + 1));
          [reflexivity | apply Hpam; lia].
    + injection Ha as <-. injection Hb as <-. unfold scan_agree.
      cbn [sc_groups sc_map sc_pam sc_rep rep_count].
      split; [reflexivity |]. split; [reflexivity |]. split; [assumption |].
      split; [exact Hrep' |]. split; [| assumption].
      intros x Hx. apply Hmap. destruct Hx as [-> | [Hx Hxx]]; [now left |]. right.
      destruct (Z.eq_dec x i) as [-> | Hne]; [rewrite upd_eq in Hxx; congruence |].
      rewrite upd_neq in Hxx by assumption. split; [| assumption].
      apply in_app_or in Hx. destruct Hx as [Hx | [<- | []]]; [assumption | congruence].
  - unfold scan_agree. cbn [sc_groups sc_map sc_pam sc_rep rep_count].
    split; [reflexivity |]. split; [reflexivity |]. split; [lia |].
    split; [intros x [-> | []]; now rewrite !upd_eq |].
    split; [intros x [-> | [[] _]]; now rewrite !upd_eq |].
    intros t Ht. assert (t = 0) by lia. subst t. now rewrite !upd_eq.
Qed.

Lemma compress_fill_agree old_dfa g sc sc' fs0 :
  trans_ok old_dfa -> wf (nstates old_dfa) g ->
  scan_inv (nstates old_dfa) g (nstates old_dfa) sc ->
  scan_agree (range 1 (nstates old_dfa)) sc sc' ->
  compress_fill old_dfa sc fs0 = compress_fill old_dfa sc' fs0 /\
  forall t, 0 <= t <= nstates old_dfa ->
    sc_map sc (sc_rep sc t) = sc_map sc' (sc_rep sc' t).
Proof.
  intros Hok Hwf Hscan (Hg & Hrc & Hpos & Hrep & Hmap & Hpam).
  assert (Hval : forall t, 0 <= t <= nstates old_dfa ->
            sc_map sc (sc_rep sc t) = sc_map sc' (sc_rep sc' t)).
  { intros t Ht.
    assert (Ert : sc_rep sc t = sc_rep sc' t).
    { apply Hrep. destruct (Z.eq_dec t 0); [now left | right; apply in_range; lia]. }
    rewrite <- Ert. apply Hmap.
    destruct (Z.eq_dec t 0) as [-> | Hne].
    - left. apply Hscan.
    - right.
      destruct (scan_map_rep old_dfa g Hwf sc t Hscan ltac:(lia))
        as (r & Hroot & Er & Hr & _).
      rewrite Er. split; [now apply in_range |].
      pose proof Hscan as (_ & _ & _ & _ & _ & Hreps & _).
      apply (root_fun g r); [apply Hreps; lia |].
      apply root_self. now apply (root_cell g t). }
  split; [| exact Hval].
  unfold compress_fill. rewrite <- Hrc. apply fold_left_agree.
  intros fs i Hi. apply in_range in Hi.
  rewrite <- (Hpam i) by lia.
  pose proof Hscan as (_ & _ & _ & _ & _ & _ & _ & Hpamr).
  destruct (Hpamr i Hi) as (Hp & _).
  rewrite (fold_left_agree
             (fun m j => upd2 m i j (sc_map sc (sc_rep sc (mat old_dfa (sc_pam sc i) j))))
             (fun m j => upd2 m i j (sc_map sc' (sc_rep sc' (mat old_dfa (sc_pam sc i) j))))
             (range 1 (nab old_dfa))); [reflexivity |].
  intros m j Hj. apply in_range in Hj. rewrite Hval; [reflexivity |].
  now apply Hok.
Qed.

(** X20.  The automaton [compress_dfa] writes and its accept count do not
    depend on what the automatic arrays [map], [pam] and [rep] hold on
    entry. *)
Theorem compress_dfa_ignores_automatic_arrays
  fuel old_dfa new_dfa g map0 pam0 rep0 map1 pam1 rep1 :
  trans_ok old_dfa -> 0 <= init_state old_dfa <= nstates old_dfa ->
  wf (nstates old_dfa) g -> (Z.to_nat (nstates old_dfa) <= fuel)%nat ->
  exists out sc sc' ac,
    compress_dfa fuel old_dfa new_dfa g map0 pam0 rep0 = Some (out, sc, ac) /\
    compress_dfa fuel old_dfa new_dfa g map1 pam1 rep1 = Some (out, sc', ac).
Proof.
  intros Hok Hinit Hwf Hfuel.
  destruct (compress_dfa_spec fuel old_dfa new_dfa g map0 pam0 rep0 ltac:(lia) Hfuel Hwf)
    as (out & sc & ac & Hcomp & Hscan & _).
  destruct (compress_dfa_spec fuel old_dfa new_dfa g map1 pam1 rep1 ltac:(lia) Hfuel Hwf)
    as (out' & sc' & ac' & Hcomp' & _).
  exists out, sc, sc', ac. split; [exact Hcomp |]. rewrite Hcomp'.
  unfold compress_dfa in Hcomp, Hcomp'.
  destruct (compress_scan fuel (nstates old_dfa)
              (mk_scan g (upd map0 0 0) (upd pam0 0 0) (upd rep0 0 0) 0))
    as [s0 |] eqn:E0; [| discriminate].
  destruct (compress_scan fuel (nstates old_dfa)
              (mk_scan g (upd map1 0 0) (upd pam1 0 0) (upd rep1 0 0) 0))
    as [s1 |] eqn:E1; [| discriminate].
  cbn [bind] in Hcomp, Hcomp'. cbv zeta in Hcomp, Hcomp'.
  pose proof (compress_scan_agree fuel _ g _ _ _ _ _ _ s0 s1 E0 E1) as Hagree.
  assert (Es : s0 = sc) by (injection Hcomp; auto). subst s0.
  destruct (compress_fill_agree old_dfa g sc s1
              (mk_fill (mat new_dfa) (state_attrib new_dfa) (accept new_dfa) 0)
              Hok Hwf Hscan Hagree) as (Hfill & Hval).
  rewrite <- Hfill, <- (Hval (init_state old_dfa) Hinit) in Hcomp'.
  destruct Hagree as (_ & Hrc & _). rewrite <- Hrc in Hcomp'.
  injection Hcomp as <- <-. injection Hcomp' as <- <- <-. reflexivity.
Qed.

Lemma compress_dfa_ignores_automatic_arrays_witness :
  exists out sc sc' ac,
    compress_dfa 3 fork_dfa blank_dfa fork_rep zeros zeros zeros = Some (out, sc, ac) /\
    compress_dfa 3 fork_dfa blank_dfa fork_rep path_rep fork_rep path_rep
      = Some (out, sc', ac).
Proof.
  apply (compress_dfa_ignores_automatic_arrays 3 fork_dfa blank_dfa fork_rep
           zeros zeros zeros path_rep fork_rep path_rep).
  - apply trans_okb_sound. reflexivity.
  - simpl. lia.
  - apply wfb_sound. reflexivity.
  - simpl. lia.
Defined.




(** X22.  Every partition vector the refinement loop of [minimize_dfa]
    hands to [partition] is well formed, has depth at most one (the parent
    of an element is a root) and has right weights (a root stores minus the
    number of the other members of its class). *)
Theorem refinement_loop_vectors_are_flat fuel dfa groups :
  (2 <= fuel)%nat -> trans_ok dfa -> 1 <= nstates dfa ->
  exists g0,
    init_partitions fuel (nstates dfa) (state_attrib dfa) groups = Some g0 /\
    forall g, reached fuel dfa g0 g ->
      wf (nstates dfa) g /\ weights_ok (nstates dfa) g /\
      forall x, 1 <= x <= nstates dfa -> 0 < g x -> g (g x) <= 0.
Proof.
  intros Hf Hok Hn.
  destruct (init_partitions_spec fuel Hf (state_attrib dfa) (nstates dfa) groups)
    as (g0 & Hinit & Hinv0 & _); [lia |].
  exists g0. split; [exact Hinit |]. intros g Hr.
  pose proof (reached_Inv fuel dfa g0 g Hf Hok ltac:(lia) Hinv0 Hr) as Hinv.
  split; [now apply Inv_wf |]. split; [now apply Inv_weights |].
  now apply Inv_flat.
Qed.

Lemma refinement_loop_vectors_are_flat_witness :
  exists g0,
    init_partitions 2 (nstates fork_dfa) (state_attrib fork_dfa) zeros = Some g0 /\
    forall g, reached 2 fork_dfa g0 g ->
      wf (nstates fork_dfa) g /\ weights_ok (nstates fork_dfa) g /\
      forall x, 1 <= x <= nstates fork_dfa -> 0 < g x -> g (g x) <= 0.
Proof.
  apply (refinement_loop_vectors_are_flat 2 fork_dfa zeros).
  - lia.
  - apply trans_okb_sound. reflexivity.
  - simpl. lia.
Defined.

(** ** The number of states of the result *)

Lemma NoDup_map_on (f : Z -> Z) l :
  (forall x y, In x l -> In y l -> f x = f y -> x = y) ->
  NoDup l -> NoDup (map f l).
Proof.
  induction l as [| a l IH]; intros Hinj Hnd; cbn [map]; [constructor |].
  apply NoDup_cons_iff in Hnd. destruct Hnd as [Ha Hnd]. constructor.
  - intros Hin. apply in_map_iff in Hin. destruct Hin as (y & Ey & Hy).
    apply Ha. rewrite (Hinj a y); [assumption | now left | now right | now symmetry].
  - apply IH; [| assumption]. intros x y Hx Hy. apply Hinj; now right.
Qed.

Lemma rep_count_class_count n g sc :
  0 <= n -> scan_inv n g n sc -> rep_count sc = Z.of_nat (class_count n g).
Proof.
  intros Hn (_ & _ & _ & _ & Hrc & _ & Hmap & Hpam).
  set (R := filter (is_root g) (range 1 n)).
  assert (HR : forall r, In r R <-> 1 <= r <= n /\ g r <= 0).
  { intros r. unfold R. rewrite filter_In, in_range. unfold is_root.
    rewrite Z.leb_le. reflexivity. }
  assert (HRnd : NoDup R) by (apply NoDup_filter, range_NoDup).
  assert (Hle1 : (length R <= Z.to_nat (rep_count sc))%nat).
  { replace (Z.to_nat (rep_count sc)) with (length (range 1 (rep_count sc)))
      by (rewrite range_length; f_equal; lia).
    rewrite <- (length_map (sc_map sc)).
    apply NoDup_incl_length.
    - apply NoDup_map_on; [| assumption]. intros x y Hx Hy E.
      apply HR in Hx, Hy.
      destruct (Hmap x (proj1 Hx) (root_self g x (proj2 Hx))) as (_ & Ex).
      destruct (Hmap y (proj1 Hy) (root_self g y (proj2 Hy))) as (_ & Ey).
      rewrite <- Ex, <- Ey. now rewrite E.
    - intros t Ht. apply in_map_iff in Ht. destruct Ht as (x & <- & Hx).
      apply HR in Hx. apply in_range.
      now destruct (Hmap x (proj1 Hx) (root_self g x (proj2 Hx))). }
  assert (Hle2 : (Z.to_nat (rep_count sc) <= length R)%nat).
  { replace (Z.to_nat (rep_count sc)) with (length (range 1 (rep_count sc)))
      by (rewrite range_length; f_equal; lia).
    rewrite <- (length_map (sc_pam sc)).
    apply NoDup_incl_length.
    - apply NoDup_map_on; [| apply range_NoDup]. intros x y Hx Hy E.
      apply in_range in Hx, Hy.
      destruct (Hpam x Hx) as (_ & _ & Ex). destruct (Hpam y Hy) as (_ & _ & Ey).
      rewrite <- Ex, <- Ey. now rewrite E.
    - intros r Hr. apply in_map_iff in Hr. destruct Hr as (t & <- & Ht).
      apply in_range in Ht. destruct (Hpam t Ht) as (Hp & Hroot & _).
      apply HR. split; [assumption | now apply (root_cell g (sc_pam sc t))]. }
  unfold class_count. fold R. lia.
Qed.

Lemma filter_length_all (p : Z -> bool) l :
  length (filter p l) = length l <-> forall x, In x l -> p x = true.
Proof.
  induction l as [| a l IH]; cbn [filter length].
  - split; [intros _ x [] | reflexivity].
  - pose proof (filter_length_le p l) as Hle.
    destruct (p a) eqn:Ea; cbn [length].
    + split.
      * intros E x [<- | Hx]; [assumption |]. apply IH; [lia | assumption].
      * intros H. f_equal. apply IH. intros x Hx. apply H. now right.
    + split; [lia |]. intros H. specialize (H a ltac:(now left)). congruence.
Qed.

Lemma all_roots_iff n g :
  Inv n g ->
  (class_count n g = Z.to_nat n <->
   forall x y, 1 <= x <= n -> 1 <= y <= n -> same g x y = true -> x = y).
Proof.
  intros Hinv. unfold class_count.
  replace (Z.to_nat n) with (length (range 1 n))
    by (rewrite range_length; f_equal; lia).
  rewrite filter_length_all. split.
  - intros H x y Hx Hy Hs. unfold same in Hs. apply Z.eqb_eq in Hs.
    pose proof (H x ltac:(now apply in_range)) as Rx.
    pose proof (H y ltac:(now apply in_range)) as Ry.
    unfold is_root in Rx, Ry. apply Z.leb_le in Rx, Ry. unfold cls in Hs.
    destruct (Z.gtb_spec (g x) 0); [lia |]. destruct (Z.gtb_spec (g y) 0); [lia |].
    assumption.
  - intros H x Hx. apply in_range in Hx. unfold is_root. apply Z.leb_le.
    destruct (Z_lt_le_dec 0 (g x)) as [Hpos | Hneg]; [exfalso | assumption].
    pose proof (Inv_cls_in n g x Hinv Hx) as Hc.
    pose proof (Inv_flat n g Hinv x Hx Hpos) as Hflat.
    assert (Ecls : cls g x = g x) by (unfold cls; destruct (Z.gtb_spec (g x) 0); [reflexivity | lia]).
    rewrite Ecls in Hc.
    assert (Hs : same g x (g x) = true).
    { unfold same. apply Z.eqb_eq. rewrite Ecls. unfold cls.
      destruct (Z.gtb_spec (g (g x)) 0); [lia | reflexivity]. }
    pose proof (H x (g x) Hx Hc Hs) as E. rewrite <- E in Hflat. lia.
Qed.

(** X23.  The result of [minimize_dfa] has as many states as the input
    exactly when no two different states of the input are indistinguishable;
    otherwise it has fewer. *)
Theorem minimize_dfa_shrinks_iff_redundant fuel D out0 groups w :
  valid_dfa D ->
  accept out0 MAX_STATES = 0 ->
  (Z.to_nat MAX_STATES < fuel)%nat ->
  exists M,
    minimize_dfa fuel D out0 groups w = Some M /\
    nstates M <= nstates D /\
    (nstates M = nstates D <->
     forall x y, 1 <= x <= nstates D -> 1 <= y <= nstates D ->
       indist D x y -> x = y).
Proof.
  intros (Hn & _ & Hok & Hinit & _ & HnoD) Hsent Hfuel.
  assert (Hf2 : (2 <= fuel)%nat) by (unfold MAX_STATES in Hfuel; lia).
  assert (Hfn : (Z.to_nat (nstates D) <= fuel)%nat) by lia.
  destruct (final_partition_spec fuel D groups w Hf2 Hfn Hok ltac:(lia))
    as (g & Hpart & Hinv & Hstable & Hattr).
  pose proof (Inv_wf _ _ Hinv) as Hwf.
  destruct (compress_dfa_spec fuel D out0 g (w_map w) (w_pam w) (w_rep w)
              ltac:(lia) Hfn Hwf)
    as (out & sc & ac & Hcomp & Hscan & Hfill & Hns & Hnab & Hin).
  pose proof Hfill as (_ & _ & _ & _ & Hac & _ & Hfr & _).
  cbn [f_accept a_count] in Hac, Hfr.
  assert (Hrc : 0 <= rep_count sc <= nstates D) by apply Hscan.
  assert (Hsent' : accept out MAX_STATES = 0) by (rewrite Hfr; [assumption | lia]).
  destruct (find_dead_states_spec fuel out (w_connected w) MAX_STATES
              ltac:(unfold MAX_STATES; lia) Hsent' Hfuel)
    as (attrib' & Hdead & _).
  eexists. split.
  { unfold minimize_dfa. rewrite Hpart. cbn [bind]. rewrite Hcomp. cbn [bind].
    rewrite Hdead. cbn [bind]. reflexivity. }
  cbn [nstates]. rewrite Hns. split; [lia |].
  rewrite (rep_count_class_count (nstates D) g sc ltac:(lia) Hscan).
  pose proof (all_roots_iff (nstates D) g Hinv) as Hall.
  assert (Hsame : forall x y, 1 <= x <= nstates D -> 1 <= y <= nstates D ->
            (same g x y = true <-> indist D x y)).
  { intros x y Hx Hy. split.
    - now apply (class_indist D g Hok Hinv Hstable Hattr).
    - exact (final_partition_keeps fuel D groups w (indist D) g Hf2 Hok ltac:(lia)
               (indist_closed D Hok) (indist_respects D) Hpart x y Hx Hy). }
  split.
  - intros E x y Hx Hy Hxy. apply (proj1 Hall); [lia | assumption | assumption |].
    now apply Hsame.
  - intros H. rewrite (proj2 Hall); [lia |].
    intros x y Hx Hy Hs. apply H; try assumption. now apply Hsame.
Qed.

Lemma minimize_dfa_shrinks_iff_redundant_witness :
  exists M,
    minimize_dfa 51 fork_dfa blank_dfa zeros blank_workspace = Some M /\
    nstates M <= nstates fork_dfa /\
    (nstates M = nstates fork_dfa <->
     forall x y, 1 <= x <= nstates fork_dfa -> 1 <= y <= nstates fork_dfa ->
       indist fork_dfa x y -> x = y).
Proof.
  apply (minimize_dfa_shrinks_iff_redundant 51 fork_dfa blank_dfa zeros blank_workspace).
  - apply valid_dfab_sound. vm_compute. reflexivity.
  - reflexivity.
  - vm_compute. lia.
Defined.

(** ** The connectivity matrix on its own *)

Lemma pivots_sound_gen n l (T : Z -> Z -> Prop) :
  (forall x y z, T x y -> T y z -> T x z) ->
  forall c,
  (forall a b, 1 <= a <= n -> 1 <= b <= n -> c a b <> 0 -> T a b) ->
  (forall x, In x l -> 1 <= x <= n) ->
  forall a b, 1 <= a <= n -> 1 <= b <= n -> pivots n l c a b <> 0 -> T a b.
Proof.
  intros Htrans. induction l as [| i l IH]; intros c Hc Hl a b Ha Hb; cbn [pivots fold_left];
    [now apply Hc |].
  apply IH; try assumption; [| intros x Hx; apply Hl; now right].
  clear a b Ha Hb. intros a b Ha Hb H.
  assert (Hi : 1 <= i <= n) by (apply Hl; now left).
  apply (closure_pivot_spec (mk_automaton n 0 (fun _ _ => 0) 0 zeros no_attrib)) in H.
  cbn [nstates] in H. destruct H as [H | (_ & _ & H1 & H2)].
  - now apply Hc.
  - apply Htrans with i; now apply Hc.
Qed.

(** X24.  [t_closure] computes the transitive closure of whatever relation
    the matrix holds among the states [1..nstates]: afterwards
    [connected[a][b]] is set exactly when [b] can be reached from [a] by one
    or more steps along entries that were set before. *)
Theorem t_closure_is_transitive_closure n c a b :
  1 <= a <= n -> 1 <= b <= n ->
  (t_closure n c a b <> 0 <-> clos_trans Z (edge n c) a b).
Proof.
  intros Ha Hb.
  set (D := mk_automaton n 0 (fun _ _ => 0) 0 zeros no_attrib).
  change (t_closure n c) with (pivots (nstates D) (range 1 (nstates D)) c).
  assert (Hr : forall x, In x (range 1 n) -> 1 <= x <= n) by (intros x; apply in_range).
  split.
  - apply (pivots_sound_gen n (range 1 n) (clos_trans Z (edge n c))); try assumption.
    + intros x y z. apply t_trans.
    + intros x y Hx Hy H. apply t_step. repeat split; tauto.
  - intros H. apply clos_trans_t1n in H.
    induction H as [a b (_ & _ & E) | a x b (_ & Hx & E) Hrt IH].
    + now apply (pivots_mono D).
    + apply (pivots_trans D _ _ Hr x); try assumption.
      * now apply in_range.
      * now apply (pivots_mono D).
      * now apply IH.
Qed.

Lemma t_closure_is_transitive_closure_witness :
  t_closure 3 (fun x y => if (y =? x + 1) then 1 else 0) 1 3 <> 0
  <-> clos_trans Z (edge 3 (fun x y => if (y =? x + 1) then 1 else 0)) 1 3.
Proof.
  apply (t_closure_is_transitive_closure 3 (fun x y => if (y =? x + 1) then 1 else 0) 1 3);
    lia.
Defined.

(** X25.  [init_connections] overwrites the rows of the states: afterwards
    [connected[a][b]] is set exactly when [b] is [a] itself or the target of
    a transition of [a], whatever the matrix held before. *)
Theorem init_connections_sets_direct_steps dfa c a b :
  1 <= a <= nstates dfa -> 1 <= b <= nstates dfa ->
  (init_connections (mat dfa) (nstates dfa) (nab dfa) c a b <> 0
   <-> a = b \/ exists j, 1 <= j <= nab dfa /\ mat dfa a j = b).
Proof.
  intros Ha Hb. rewrite (init_connections_spec dfa c a b Ha Hb). unfold step.
  split; (intros [E | (j & Hj & E)]; [now left | right; exists j]).
  - tauto.
  - repeat split; try tauto. lia.
Qed.

Lemma init_connections_sets_direct_steps_witness :
  init_connections (mat chain_dfa) (nstates chain_dfa) (nab chain_dfa)
    (fun _ _ => 7) 1 3 <> 0
  <-> 1 = 3 \/ exists j, 1 <= j <= nab chain_dfa /\ mat chain_dfa 1 j = 3.
Proof.
  apply (init_connections_sets_direct_steps chain_dfa (fun _ _ => 7) 1 3); simpl; lia.
Defined.

Lemma minimize_dfa_init_range fuel D out0 groups w :
  valid_dfa D ->
  accept out0 MAX_STATES = 0 ->
  (Z.to_nat MAX_STATES < fuel)%nat ->
  exists M,
    minimize_dfa fuel D out0 groups w = Some M /\
    1 <= init_state M <= nstates M.
Proof.
  intros (Hn & _ & Hok & Hinit & _ & HnoD) Hsent Hfuel.
  assert (Hf2 : (2 <= fuel)%nat) by (unfold MAX_STATES in Hfuel; lia).
  assert (Hfn : (Z.to_nat (nstates D) <= fuel)%nat) by lia.
  destruct (final_partition_spec fuel D groups w Hf2 Hfn Hok ltac:(lia))
    as (g & Hpart & Hinv & Hstable & Hattr).
  pose proof (Inv_wf _ _ Hinv) as Hwf.
  destruct (compress_dfa_spec fuel D out0 g (w_map w) (w_pam w) (w_rep w)
              ltac:(lia) Hfn Hwf)
    as (out & sc & ac & Hcomp & Hscan & Hfill & Hns & Hnab & Hin).
  pose proof Hfill as (_ & _ & _ & _ & Hac & _ & Hfr & _).
  cbn [f_accept a_count] in Hac, Hfr.
  assert (Hrc : 0 <= rep_count sc <= nstates D) by apply Hscan.
  assert (Hsent' : accept out MAX_STATES = 0) by (rewrite Hfr; [assumption | lia]).
  destruct (find_dead_states_spec fuel out (w_connected w) MAX_STATES
              ltac:(unfold MAX_STATES; lia) Hsent' Hfuel)
    as (attrib' & Hdead & _).
  eexists. split.
  { unfold minimize_dfa. rewrite Hpart. cbn [bind]. rewrite Hcomp. cbn [bind].
    rewrite Hdead. cbn [bind]. reflexivity. }
  cbn [init_state nstates]. rewrite Hin, Hns.
  apply (newid_pos D g sc Hinv Hscan). lia.
Qed.

(** X26.  When the output structure starts with an empty accept list: if
    any state of the result of [minimize_dfa] is not marked dead, its
    initial state is not marked dead either, so the line "Initial state"
    that [output_dfa] prints for a non-empty automaton names a state that is
    printed. *)
Theorem minimize_dfa_initial_state_is_live fuel D out0 groups w :
  valid_dfa D ->
  (forall j, accept out0 j = 0) ->
  (Z.to_nat MAX_STATES < fuel)%nat ->
  exists M,
    minimize_dfa fuel D out0 groups w = Some M /\
    1 <= init_state M <= nstates M /\
    forall s, 1 <= s <= nstates M -> state_attrib M s <> attr_D ->
      state_attrib M (init_state M) <> attr_D.
Proof.
  intros HD Hblank Hfuel.
  destruct (minimize_dfa_live_iff_useful fuel D out0 groups w HD Hblank Hfuel)
    as (M & Hrun & Hlive).
  destruct (minimize_dfa_init_range fuel D out0 groups w HD (Hblank MAX_STATES) Hfuel)
    as (M' & Hrun' & Hinit).
  rewrite Hrun in Hrun'. injection Hrun' as <-.
  exists M. split; [exact Hrun |]. split; [exact Hinit |].
  intros s Hs Hne. apply Hlive in Hne; [| assumption].
  destruct Hne as (Hreach & a & Hsa & HaA).
  apply (Hlive (init_state M) Hinit). split; [apply rt_refl |].
  exists a. split; [| assumption]. now apply rt_trans with s.
Qed.

Lemma minimize_dfa_initial_state_is_live_witness :
  exists M,
    minimize_dfa 51 trap_dfa blank_dfa zeros blank_workspace = Some M /\
    1 <= init_state M <= nstates M /\
    forall s, 1 <= s <= nstates M -> state_attrib M s <> attr_D ->
      state_attrib M (init_state M) <> attr_D.
Proof.
  apply (minimize_dfa_initial_state_is_live 51 trap_dfa blank_dfa zeros blank_workspace).
  - apply valid_dfab_sound. vm_compute. reflexivity.
  - reflexivity.
  - vm_compute. lia.
Defined.
